(** * wings/parser helpers: replacement resolution and patch application

    A shallow embedding of [parser/helpers.go].  Go strings and [[]byte]
    are both sequences of bytes and are converted into one another without
    change by the source ([[]byte(cfr.Value)], [string(value)]); both are
    modelled by [string], whose characters are 8-bit. *)

From Stdlib Require Import ZArith NArith Ascii.
From stdpp Require Import gmap strings list fin_maps.

Set Warnings "-register-all".

Local Open Scope Z_scope.

(** ** Bytes *)

Definition byteval (c : ascii) : Z := Z.of_N (N_of_ascii c).

Definition inRange (lo hi c : ascii) : bool :=
  (byteval lo <=? byteval c) && (byteval c <=? byteval hi).

Definition eqb_byte (a b : ascii) : bool := Ascii.eqb a b.

(** ** Package [strings] *)

Module strings.

Fixpoint HasPrefix (s prefix : string) {struct prefix} : bool :=
  match prefix, s with
  | EmptyString, _ => true
  | String p prefix', String c s' => eqb_byte c p && HasPrefix s' prefix'
  | String _ _, EmptyString => false
  end.

Fixpoint drop (n : nat) (s : string) : string :=
  match n, s with
  | O, _ => s
  | S n', String _ s' => drop n' s'
  | S _, EmptyString => EmptyString
  end.

(** [Cut s sep]: the text before and after the first instance of [sep]
    ([s[:i]] and [s[i+len(sep):]] for [i = Index(s, sep)]). *)
Fixpoint Cut (s sep : string) : option (string * string) :=
  if HasPrefix s sep then Some (EmptyString, drop (String.length sep) s)
  else match s with
       | EmptyString => None
       | String c s' =>
           match Cut s' sep with
           | Some (before, after) => Some (String c before, after)
           | None => None
           end
       end.

Definition Contains (s substr : string) : bool :=
  match Cut s substr with Some _ => true | None => false end.

(** The loop of [genSplit] for a non-empty separator: at most [n] pieces,
    the last one holding the unsplit remainder. *)
Fixpoint genSplit (n : nat) (s sep : string) : list string :=
  match n with
  | O => []
  | S O => [s]
  | S n' =>
      match Cut s sep with
      | None => [s]
      | Some (before, after) => before :: genSplit n' after sep
      end
  end.

(** [SplitN(s, sep, n)] for [n > 0] and a non-empty [sep]; [genSplit]
    clamps [n] to [len(s)+1]. *)
Definition SplitN (s sep : string) (n : nat) : list string :=
  genSplit (Nat.min n (S (String.length s))) s sep.

(** [Split(s, sep)] is [genSplit] with [n = Count(s, sep) + 1], which is at
    most [len(s)+1]; the loop stops by itself once [sep] is absent. *)
Definition Split (s sep : string) : list string :=
  genSplit (S (String.length s)) s sep.

Fixpoint TrimLeft (s : string) (c : ascii) : string :=
  match s with
  | String a s' => if eqb_byte a c then TrimLeft s' c else s
  | EmptyString => EmptyString
  end.

Fixpoint TrimRight (s : string) (c : ascii) : string :=
  match s with
  | EmptyString => EmptyString
  | String a s' =>
      match TrimRight s' c with
      | EmptyString => if eqb_byte a c then EmptyString else String a EmptyString
      | t => String a t
      end
  end.

(** [Trim(s, cutset)] for a cutset of one ASCII byte: [trimLeftByte] then
    [trimRightByte]. *)
Definition Trim (s : string) (c : ascii) : string :=
  TrimRight (TrimLeft s c) c.

(** The loop of [Replace(s, old, new, -1)] for a non-empty [old]. *)
Fixpoint replaceLoop (fuel : nat) (s old new : string) : string :=
  match fuel with
  | O => s
  | S fuel' =>
      match Cut s old with
      | None => s
      | Some (before, after) => before +:+ new +:+ replaceLoop fuel' after old new
      end
  end.

Definition Replace (s old new : string) : string :=
  replaceLoop (String.length s) s old new.

End strings.

(** ** Package [strconv] *)

Module strconv.

Inductive NumError := ErrSyntax | ErrRange.

(** [int] is 64 bits wide on the platforms the daemon is built for. *)
Definition intSize : Z := 64.
Definition maxUint64 : Z := 2 ^ 64 - 1.

Definition lower (c : Z) : Z := Z.lor c 32.

(** The digit loop of [ParseUint(s, 10, 64)]; [n] is a [uint64]. *)
Fixpoint parseUintLoop (s : string) (n : Z) : Z * option NumError :=
  match s with
  | EmptyString => (n, None)
  | String ch s' =>
      let c := byteval ch in
      let digit :=
        if (48 <=? c) && (c <=? 57) then Some (c - 48)
        else if (97 <=? lower c) && (lower c <=? 122)
             then Some (lower c - 97 + 10)
             else None in
      match digit with
      | None => (0, Some ErrSyntax)
      | Some d =>
          if 10 <=? d then (0, Some ErrSyntax)
          else if maxUint64 / 10 + 1 <=? n then (maxUint64, Some ErrRange)
          else
            let n10 := (n * 10) mod 2 ^ 64 in
            let n1 := (n10 + d) mod 2 ^ 64 in
            if (n1 <? n10) || (maxUint64 <? n1) then (maxUint64, Some ErrRange)
            else parseUintLoop s' n1
      end
  end.

Definition ParseUint (s : string) : Z * option NumError :=
  match s with
  | EmptyString => (0, Some ErrSyntax)
  | _ => parseUintLoop s 0
  end.

(** [ParseInt(s, 10, 0)]: sign, then the unsigned digits, then the range
    check against [1 << 63].  A range error returns the nearest bound. *)
Definition ParseInt (s : string) : Z * option NumError :=
  match s with
  | EmptyString => (0, Some ErrSyntax)
  | String c0 s1 =>
      let neg := eqb_byte c0 "-" in
      let digits := if eqb_byte c0 "+" || neg then s1 else s in
      let '(un, err) := ParseUint digits in
      match err with
      | Some ErrSyntax => (0, Some ErrSyntax)
      | _ =>
          let cutoff := 2 ^ (intSize - 1) in
          if negb neg && (cutoff <=? un) then (cutoff - 1, Some ErrRange)
          else if neg && (cutoff <? un) then (- cutoff, Some ErrRange)
          else (if neg then - un else un, None)
      end
  end.

(** The fast path of [Atoi]: fewer than 19 bytes cannot overflow. *)
Fixpoint atoiFast (s : string) (n : Z) : option Z :=
  match s with
  | EmptyString => Some n
  | String ch s' =>
      let d := (byteval ch - 48) mod 256 in
      if 9 <? d then None else atoiFast s' (n * 10 + d)
  end.

Definition Atoi (s : string) : Z * option NumError :=
  let sLen := String.length s in
  if ((0 <? sLen) && (sLen <? 19))%nat then
    match s with
    | EmptyString => (0, Some ErrSyntax)
    | String c0 s1 =>
        let signed := eqb_byte c0 "-" || eqb_byte c0 "+" in
        let digits := if signed then s1 else s in
        if signed && (String.length digits <? 1)%nat then (0, Some ErrSyntax)
        else match atoiFast digits 0 with
             | None => (0, Some ErrSyntax)
             | Some n => (if eqb_byte c0 "-" then - n else n, None)
             end
    end
  else ParseInt s.

Inductive BoolError := ErrBoolSyntax.

Definition ParseBool (str : string) : bool * option BoolError :=
  if bool_decide (str ∈ ["1"; "t"; "T"; "true"; "TRUE"; "True"]) then (true, None)
  else if bool_decide (str ∈ ["0"; "f"; "F"; "false"; "FALSE"; "False"])
       then (false, None)
       else (false, Some ErrBoolSyntax).

End strconv.

(** ** Package [unicode/utf8] *)

Module utf8.

Definition RuneError : Z := 65533.

Definition between (lo hi b : Z) : bool := (lo <=? b) && (b <=? hi).

(** Size and accepted range of the second byte, indexed by the first byte
    (the tables [first] and [acceptRanges]); [None] for ASCII and for
    bytes that cannot start a sequence. *)
Definition first (b0 : Z) : option (nat * Z * Z) :=
  if between 194 223 b0 then Some (2%nat, 128, 191)
  else if b0 =? 224 then Some (3%nat, 160, 191)
  else if between 225 236 b0 then Some (3%nat, 128, 191)
  else if b0 =? 237 then Some (3%nat, 128, 159)
  else if between 238 239 b0 then Some (3%nat, 128, 191)
  else if b0 =? 240 then Some (4%nat, 144, 191)
  else if between 241 243 b0 then Some (4%nat, 128, 191)
  else if b0 =? 244 then Some (4%nat, 128, 143)
  else None.

Definition maskx (b : Z) : Z := Z.land b 63.

(** [DecodeRuneInString]: the first rune of [s] and its width in bytes. *)
Definition DecodeRuneInString (s : string) : Z * nat :=
  match s with
  | EmptyString => (RuneError, 0%nat)
  | String c0 t =>
      let s0 := byteval c0 in
      match first s0 with
      | None => (if s0 <? 128 then s0 else RuneError, 1%nat)
      | Some (sz, lo, hi) =>
          if (S (String.length t) <? sz)%nat then (RuneError, 1%nat)
          else
            match t with
            | EmptyString => (RuneError, 1%nat)
            | String c1 t1 =>
                let s1 := byteval c1 in
                if negb (between lo hi s1) then (RuneError, 1%nat)
                else if (sz <=? 2)%nat
                then (Z.lor (Z.shiftl (Z.land s0 31) 6) (maskx s1), 2%nat)
                else
                  match t1 with
                  | EmptyString => (RuneError, 1%nat)
                  | String c2 t2 =>
                      let s2 := byteval c2 in
                      if negb (between 128 191 s2) then (RuneError, 1%nat)
                      else if (sz <=? 3)%nat
                      then (Z.lor (Z.shiftl (Z.land s0 15) 12)
                              (Z.lor (Z.shiftl (maskx s1) 6) (maskx s2)), 3%nat)
                      else
                        match t2 with
                        | EmptyString => (RuneError, 1%nat)
                        | String c3 _ =>
                            let s3 := byteval c3 in
                            if negb (between 128 191 s3) then (RuneError, 1%nat)
                            else (Z.lor (Z.shiftl (Z.land s0 7) 18)
                                    (Z.lor (Z.shiftl (maskx s1) 12)
                                       (Z.lor (Z.shiftl (maskx s2) 6) (maskx s3))),
                                  4%nat)
                        end
                  end
            end
      end
  end.

End utf8.

(** ** Package [regexp], specialised to [configMatchRegex]

    [configMatchRegex = regexp.MustCompile(`{{\s?config\.([\w.-]+)\s?}}`)].
    Every literal and class of the pattern is ASCII, and no byte of a
    multi-byte UTF-8 sequence is ASCII, so matching rune by rune and byte by
    byte agree.  The three variable parts are each followed by a byte
    outside their own class ([c] after the first [\s?], [\s] or [}] after
    the path, [}] after the second [\s?]), so the leftmost-first match at a
    given start is the greedy one and no backtracking is involved. *)

Module regexp.

(** Perl class [\s]: [[\t\n\f\r ]]. *)
Definition isSpace (c : ascii) : bool :=
  let b := byteval c in
  (b =? 9) || (b =? 10) || (b =? 12) || (b =? 13) || (b =? 32).

(** Perl class [\w]: [[0-9A-Za-z_]]. *)
Definition isWord (c : ascii) : bool :=
  inRange "0" "9" c || inRange "A" "Z" c || inRange "a" "z" c || eqb_byte c "_".

(** The bracket class [[\w.-]]. *)
Definition isPathByte (c : ascii) : bool :=
  isWord c || eqb_byte c "." || eqb_byte c "-".

(** A match and its capture group 1, with the text that follows it. *)
Record Submatch := { whole : string; group1 : string; after : string }.

Definition literal (p s : string) : option string :=
  if strings.HasPrefix s p then Some (strings.drop (String.length p) s) else None.

(** [\s?], greedy. *)
Definition optSpace (s : string) : string * string :=
  match s with
  | String c s' => if isSpace c then (String c EmptyString, s') else (EmptyString, s)
  | EmptyString => (EmptyString, EmptyString)
  end.

(** [[\w.-]*], greedy. *)
Fixpoint pathSpan (s : string) : string * string :=
  match s with
  | String c s' =>
      if isPathByte c then let '(p, r) := pathSpan s' in (String c p, r)
      else (EmptyString, s)
  | EmptyString => (EmptyString, EmptyString)
  end.

(** The match anchored at the start of [s], if there is one. *)
Definition matchHere (s : string) : option Submatch :=
  match literal "{{" s with
  | None => None
  | Some s1 =>
      let '(w1, s2) := optSpace s1 in
      match literal "config." s2 with
      | None => None
      | Some s3 =>
          let '(g, s4) := pathSpan s3 in
          match g with
          | EmptyString => None
          | _ =>
              let '(w2, s5) := optSpace s4 in
              match literal "}}" s5 with
              | None => None
              | Some s6 =>
                  Some {| whole := "{{" +:+ w1 +:+ "config." +:+ g +:+ w2 +:+ "}}";
                          group1 := g; after := s6 |}
              end
          end
      end
  end.

(** The leftmost match: the text before it and the match. *)
Fixpoint find (s : string) : option (string * Submatch) :=
  match matchHere s with
  | Some m => Some (EmptyString, m)
  | None =>
      match s with
      | EmptyString => None
      | String c s' =>
          match find s' with
          | Some (before, m) => Some (String c before, m)
          | None => None
          end
      end
  end.

Definition Match (b : string) : bool :=
  match find b with Some _ => true | None => false end.

Definition FindString (s : string) : string :=
  match find s with Some (_, m) => whole m | None => EmptyString end.

Section Expand.

(** [unicode.IsLetter(r) || unicode.IsDigit(r)] for the runes above
    ASCII; the Unicode tables are a parameter. *)
Variable isLetterOrDigit : Z -> bool.

Definition isNameRune (r : Z) : bool :=
  if r <? 128
  then utf8.between 48 57 r || utf8.between 65 90 r || utf8.between 97 122 r
       || (r =? 95)
  else isLetterOrDigit r.

(** The scan of [extract]: the byte length of the leading run of
    letters, digits and underscores. *)
Fixpoint nameLen (fuel : nat) (str : string) : nat :=
  match fuel with
  | O => O
  | S fuel' =>
      let '(r, size) := utf8.DecodeRuneInString str in
      match size with
      | O => O
      | _ => if isNameRune r then (size + nameLen fuel' (strings.drop size str))%nat
             else O
      end
  end.

Fixpoint take (n : nat) (s : string) : string :=
  match n, s with
  | S n', String c s' => String c (take n' s')
  | _, _ => EmptyString
  end.

(** The number a name denotes: decimal digits only, below [1e8] before
    each step, no leading zero; otherwise [-1]. *)
Fixpoint nameNum (name : string) (num : Z) : Z :=
  match name with
  | EmptyString => num
  | String c name' =>
      if negb (inRange "0" "9" c) || (100000000 <=? num) then -1
      else nameNum name' (num * 10 + byteval c - 48)
  end.

(** [extract]: a leading [name] or [{name}]; the name, its number and
    the rest of the template. *)
Definition extract (str : string) : option (string * Z * string) :=
  match str with
  | EmptyString => None
  | String c0 str1 =>
      let brace := eqb_byte c0 "{" in
      let str := if brace then str1 else str in
      let i := nameLen (String.length str) str in
      match i with
      | O => None
      | _ =>
          let name := take i str in
          let num := nameNum name 0 in
          let num :=
            match name with
            | String "0" (String _ _) => -1
            | _ => num
            end in
          if brace then
            match strings.drop i str with
            | String "}" rest => Some (name, num, rest)
            | _ => None
            end
          else Some (name, num, strings.drop i str)
      end
  end.

(** The text of a numbered group.  The pattern has one capture group
    and no named group, so a name that is not a number finds nothing. *)
Definition groupText (m : Submatch) (num : Z) : string :=
  if num =? 0 then whole m
  else if num =? 1 then group1 m
  else EmptyString.

(** [expand]: the template with [$$], [$name] and [${name}] replaced. *)
Fixpoint expandLoop (fuel : nat) (template : string) (m : Submatch) : string :=
  match fuel with
  | O => template
  | S fuel' =>
      match strings.Cut template "$" with
      | None => template
      | Some (before, rest) =>
          before +:+
          match rest with
          | String "$" rest' => "$" +:+ expandLoop fuel' rest' m
          | _ =>
              match extract rest with
              | None => "$" +:+ expandLoop fuel' rest m
              | Some (_, num, rest') => groupText m num +:+ expandLoop fuel' rest' m
              end
          end
      end
  end.

Definition expand (template : string) (m : Submatch) : string :=
  expandLoop (S (String.length template)) template m.

(** The loop of [replaceAll]: copy the text before each match, insert
    the expansion, continue after the match.  A match is never empty, so
    the special cases for empty matches do not arise. *)
Fixpoint replaceAll (fuel : nat) (src repl : string) : string :=
  match fuel with
  | O => src
  | S fuel' =>
      match find src with
      | None => src
      | Some (before, m) => before +:+ expand repl m +:+ replaceAll fuel' (after m) repl
      end
  end.

Definition ReplaceAllString (src repl : string) : string :=
  replaceAll (S (String.length src)) src repl.

End Expand.

End regexp.

(** ** Errors

    The values of Go's [error] interface that reach [helpers.go]: the
    error variables of [jsonparser], the errors of [gabs], a decoding error
    of [encoding/json], and [errors.WithStack].  [IndexOutOfRangePanic]
    stands for the run-time panic of an index expression out of range. *)

Inductive error :=
| KeyPathNotFoundError
| UnknownValueTypeError
| MalformedJsonError
| MalformedStringError
| MalformedArrayError
| MalformedObjectError
| MalformedValueError
| OverflowIntegerError
| MalformedStringEscapeError
| ErrPathCollision
| ErrAppendAtRoot
| ErrIndexNotNumber
| ErrIndexInvalid
| ErrIndexOutOfBounds
| ErrFieldNotFound
| SyntaxError
| IndexOutOfRangePanic
| WithStack (cause : error).

Global Instance error_eq_dec : EqDecision error.
Proof. solve_decision. Defined.

Module jsonparser.

Inductive ValueType :=
| NotExist | String | Number | Object | Array | Boolean | Null | Unknown.

Global Instance ValueType_eq_dec : EqDecision ValueType.
Proof. solve_decision. Defined.

End jsonparser.

(** ** Package [gabs]

    A [Container] holds one [interface{}].  Maps and slices are references:
    a container made from a child of the document shares the child's map
    with the document, while [nil] and scalars are held by value.  The
    store keeps the maps and the backing arrays; [append] is modelled as
    always allocating, which cannot be told apart here because the slice
    header that was appended to is overwritten at once. *)

Module gabs.

(** An [interface{}] of a document: [nil], a [bool], an [int] (what
    [getKeyValue] makes of a number), a [float64] (what the decoder makes of
    a number, kept as its literal: the pass never computes with it), a
    [string], or a reference to a [map[string]interface{}] or to the array
    behind a [[]interface{}]. *)
Inductive value :=
| Nil
| Bool (b : bool)
| Int (n : Z)
| Float64 (lit : string)
| Str (s : string)
| MapRef (l : nat)
| SliceRef (l : nat).

Global Instance value_eq_dec : EqDecision value.
Proof. solve_decision. Defined.

(** The maps and arrays in existence, and the next free location.  A
    reference is read with [!!!]; a reference of a well-formed store names a
    cell, so the default of [!!!] is not met. *)
Record store := {
  maps : gmap nat (gmap string value);
  slices : gmap nat (list value);
  next : nat
}.

Definition emptyStore : store := {| maps := ∅; slices := ∅; next := 0 |}.

Definition newMap (σ : store) (m : gmap string value) : store * value :=
  ({| maps := <[next σ := m]> (maps σ); slices := slices σ; next := S (next σ) |},
   MapRef (next σ)).

Definition newSlice (σ : store) (a : list value) : store * value :=
  ({| maps := maps σ; slices := <[next σ := a]> (slices σ); next := S (next σ) |},
   SliceRef (next σ)).

Definition storeMap (σ : store) (l : nat) (m : gmap string value) : store :=
  {| maps := <[l := m]> (maps σ); slices := slices σ; next := next σ |}.

Definition storeSlice (σ : store) (l : nat) (a : list value) : store :=
  {| maps := maps σ; slices := <[l := a]> (slices σ); next := next σ |}.

(** [DotPathToSlice]: split on dots, then undo the escapes [~1] and [~0]
    in every non-empty segment. *)
Definition DotPathToSlice (path : string) : list string :=
  map (fun v => match v with
                | EmptyString => v
                | _ => strings.Replace (strings.Replace v "~1" ".") "~0" "~"
                end)
      (strings.Split path ".").

(** [searchStrict(true, hierarchy...)] with the error dropped, as [Search]
    does: [None] is the nil container. *)
Fixpoint Search (σ : store) (object : value) (hierarchy : list string)
  : store * option value :=
  match hierarchy with
  | [] => (σ, Some object)
  | pathSeg :: rest =>
      match object with
      | MapRef l =>
          match (maps σ !!! l) !! pathSeg with
          | Some o => Search σ o rest
          | None => (σ, None)
          end
      | SliceRef l =>
          let marray := slices σ !!! l in
          if bool_decide (pathSeg = "*") then
            let '(σ, tmpArray) :=
              (fix each (vals : list value) (σ : store) (tmp : list value) :=
                 match vals with
                 | [] => (σ, tmp)
                 | val :: vals' =>
                     match rest with
                     | [] => each vals' σ (tmp ++ [val])
                     | _ :: _ =>
                         match Search σ val rest with
                         | (σ, Some d) => each vals' σ (tmp ++ [d])
                         | (σ, None) => each vals' σ tmp
                         end
                     end
                 end) marray σ [] in
            match tmpArray with
            | [] => (σ, None)
            | _ :: _ => let '(σ, r) := newSlice σ tmpArray in (σ, Some r)
            end
          else
            let '(index, err) := strconv.Atoi pathSeg in
            match err with
            | Some _ => (σ, None)
            | None =>
                if index <? 0 then (σ, None)
                else match marray !! Z.to_nat index with
                     | Some o => Search σ o rest
                     | None => (σ, None)
                     end
            end
      | _ => (σ, None)
      end
  end.

Definition Path (σ : store) (g : value) (path : string) : store * option value :=
  Search σ g (DotPathToSlice path).

(** [Children]: the elements of a slice, the values of a map (in the
    order [map_to_list] lists them; Go leaves the order open), and nothing
    for any other container, the nil container included. *)
Definition Children (σ : store) (g : option value) : list value :=
  match g with
  | Some (SliceRef l) => slices σ !!! l
  | Some (MapRef l) => (map_to_list (maps σ !!! l)).*2
  | _ => []
  end.

(** The loop of [Set] over the path segments from [target] on; [object]
    is the value reached so far and [rec] the call [g.Set] that stores the
    grown slice at [hierarchy[:target]]. *)
Fixpoint setLoop (rec : store -> value -> value -> list string -> store * value * option error)
    (hierarchy : list string) (v : value)
    (target : nat) (rest : list string) (σ : store) (g object : value)
  : store * value * option error :=
  match rest with
  | [] => (σ, g, None)
  | pathSeg :: rest' =>
      let last := match rest' with [] => true | _ :: _ => false end in
      match object with
      | MapRef l =>
          let mmap := maps σ !!! l in
          if last then
            setLoop rec hierarchy v (S target) rest'
              (storeMap σ l (<[pathSeg := v]> mmap)) g v
          else
            match mmap !! pathSeg with
            | Some Nil | None =>
                let '(σ, o) := newMap σ ∅ in
                setLoop rec hierarchy v (S target) rest'
                  (storeMap σ l (<[pathSeg := o]> mmap)) g o
            | Some o => setLoop rec hierarchy v (S target) rest' σ g o
            end
      | SliceRef l =>
          let marray := slices σ !!! l in
          if bool_decide (pathSeg = "-") then
            if (target <? 1)%nat then (σ, g, Some ErrAppendAtRoot)
            else
              let '(σ, object) := if last then (σ, v) else newMap σ ∅ in
              let '(σ, marray') := newSlice σ (marray ++ [object]) in
              let '(σ, g, err) := rec σ g marray' (take target hierarchy) in
              match err with
              | Some e => (σ, g, Some e)
              | None => setLoop rec hierarchy v (S target) rest' σ g object
              end
          else
            let '(index, err) := strconv.Atoi pathSeg in
            match err with
            | Some _ => (σ, g, Some ErrIndexNotNumber)
            | None =>
                if index <? 0 then (σ, g, Some ErrIndexInvalid)
                else if (Z.of_nat (length marray) <=? index)
                then (σ, g, Some ErrIndexOutOfBounds)
                else if last then
                  setLoop rec hierarchy v (S target) rest'
                    (storeSlice σ l (<[Z.to_nat index := v]> marray)) g v
                else
                  match marray !! Z.to_nat index with
                  | Some Nil | None => (σ, g, Some ErrFieldNotFound)
                  | Some o => setLoop rec hierarchy v (S target) rest' σ g o
                  end
            end
      | _ => (σ, g, Some ErrPathCollision)
      end
  end.

(** [Set] (named [Set'], [Set] being a keyword): the store, the container's
    own [object] field and the error.  A nil [object] becomes a fresh map
    held by this container only.  The recursive call has a shorter path;
    [fuel] bounds the recursion and [length hierarchy] is enough. *)
Fixpoint Set' (fuel : nat) (σ : store) (g : value) (v : value) (hierarchy : list string)
  : store * value * option error :=
  match hierarchy with
  | [] => (σ, v, None)
  | _ :: _ =>
      match fuel with
      | O => (σ, g, Some ErrPathCollision)
      | S fuel' =>
          let '(σ, g) := match g with Nil => newMap σ ∅ | _ => (σ, g) end in
          setLoop (fun σ g v h => Set' fuel' σ g v h) hierarchy v 0%nat hierarchy σ g g
      end
  end.

Definition SetP (σ : store) (g : value) (v : value) (path : string)
  : store * value * option error :=
  let hierarchy := DotPathToSlice path in
  Set' (length hierarchy) σ g v hierarchy.

(** What [encoding/json] decodes into an [interface{}]. *)
Inductive json :=
| JNull
| JBool (b : bool)
| JNumber (lit : string)
| JString (s : string)
| JArray (elems : list json)
| JObject (fields : list (string * json)).

(** Building the decoded value: a fresh map per object (a repeated key
    keeps its last value), a fresh slice per array, a [float64] per
    number. *)
Fixpoint load (j : json) (σ : store) : store * value :=
  match j with
  | JNull => (σ, Nil)
  | JBool b => (σ, Bool b)
  | JNumber lit => (σ, Float64 lit)
  | JString s => (σ, Str s)
  | JArray elems =>
      let '(σ, vs) :=
        (fix each (elems : list json) (σ : store) : store * list value :=
           match elems with
           | [] => (σ, [])
           | x :: elems' =>
               let '(σ, v) := load x σ in
               let '(σ, vs) := each elems' σ in (σ, v :: vs)
           end) elems σ in
      newSlice σ vs
  | JObject fields =>
      let '(σ, m) :=
        (fix each (fields : list (string * json)) (σ : store) (m : gmap string value)
           : store * gmap string value :=
           match fields with
           | [] => (σ, m)
           | (k, x) :: fields' =>
               let '(σ, v) := load x σ in each fields' σ (<[k := v]> m)
           end) fields σ ∅ in
      newMap σ m
  end.

(** The document a container holds, read back from the store to the
    given depth. *)
Inductive tree :=
| TNil
| TBool (b : bool)
| TInt (n : Z)
| TFloat64 (lit : string)
| TStr (s : string)
| TMap (m : gmap string tree)
| TSlice (a : list tree).

Fixpoint read (depth : nat) (σ : store) (v : value) : tree :=
  match v with
  | Nil => TNil
  | Bool b => TBool b
  | Int n => TInt n
  | Float64 lit => TFloat64 lit
  | Str s => TStr s
  | MapRef l =>
      match depth with
      | O => TNil
      | S d => TMap (read d σ <$> (maps σ !!! l))
      end
  | SliceRef l =>
      match depth with
      | O => TNil
      | S d => TSlice (read d σ <$> (slices σ !!! l))
      end
  end.

End gabs.

(** ** Package [strcase] *)

Module strcase.

Definition isDelimiter (c : ascii) : bool :=
  eqb_byte c "_" || eqb_byte c " " || eqb_byte c "-" || eqb_byte c ".".

Definition upper (c : ascii) : ascii :=
  if inRange "a" "z" c then ascii_of_N (N_of_ascii c - 32) else c.

Fixpoint camelLoop (s : string) (capNext : bool) : string :=
  match s with
  | EmptyString => EmptyString
  | String c s' =>
      if isDelimiter c then camelLoop s' true
      else String (if capNext then upper c else c) (camelLoop s' false)
  end.

(** Modelled from the spec: [strcase.ToCamel] belongs to an imported
    package that is not part of this repository.  The first letter and
    every letter that follows a delimiter are put in upper case and the
    delimiters are removed. *)
Definition ToCamel (s : string) : string := camelLoop s true.

End strcase.

(** ** The parser: [helpers.go] *)

Record ConfigurationFileReplacement := {
  Match : string;
  Value : string;
  ValueType : jsonparser.ValueType
}.

Record ConfigurationFile := {
  Replace : list ConfigurationFileReplacement;
  configuration : string
}.

(** The calls the pass makes, in order: [Resolved v] for a call of
    [LookupConfigurationValue] on the rule [v], [Written c path value vt] for
    a call of [setPathway] on the container holding [c]. *)
Inductive event :=
| Resolved (v : ConfigurationFileReplacement)
| Written (c : gabs.value) (path : string) (value : string) (vt : jsonparser.ValueType).

(** Gets the value of a key based on the value type defined. *)
Definition getKeyValue (value : string) (vt : jsonparser.ValueType) : gabs.value :=
  match vt with
  | jsonparser.Number => gabs.Int (strconv.Atoi value).1
  | jsonparser.Boolean => gabs.Bool (strconv.ParseBool value).1
  | _ => gabs.Str value
  end.

(** Helper function to set the value of the JSON key item based on the
    jsonparser value type returned. *)
Definition setPathway (σ : gabs.store) (c : gabs.value) (path : string)
    (value : string) (vt : jsonparser.ValueType)
  : gabs.store * gabs.value * option error :=
  let v := getKeyValue value vt in
  gabs.SetP σ c v path.

(** ** Notions used to state the properties *)

Fixpoint allBytes (P : ascii -> bool) (s : string) : bool :=
  match s with
  | EmptyString => true
  | String c s' => P c && allBytes P s'
  end.

(** A placeholder token with the path [p]: [{{], whitespace, [config.], a
    non-empty path of word characters, dots and hyphens, whitespace, [}}];
    [maxSpace] bounds the length of each run of whitespace. *)
Definition placeholder (maxSpace : option nat) (t p : string) : Prop :=
  exists w1 w2 : string,
    t = "{{" +:+ w1 +:+ "config." +:+ p +:+ w2 +:+ "}}" /\
    allBytes regexp.isSpace w1 = true /\ allBytes regexp.isSpace w2 = true /\
    p <> EmptyString /\ allBytes regexp.isPathByte p = true /\
    match maxSpace with
    | Some n => (String.length w1 <= n)%nat /\ (String.length w2 <= n)%nat
    | None => True
    end.

(** The wire format in the words of the specification: any amount of the
    optional whitespace. *)
Definition wireToken (t : string) : Prop := exists p, placeholder None t p.

(** The tokens with at most one byte of whitespace on each side. *)
Definition regexToken (t : string) : Prop := exists p, placeholder (Some 1%nat) t p.

Definition containsToken (token : string -> Prop) (v : string) : Prop :=
  exists pre t post : string, v = pre +:+ t +:+ post /\ token t.





(** The first byte of a string, as a test. *)
Definition startsWith (P : ascii -> bool) (s : string) : bool :=
  match s with String c _ => P c | EmptyString => false end.

(** A value is valid in a store when the reference it holds, if any, names
    a cell of the store. *)
Definition valid (σ : gabs.store) (v : gabs.value) : Prop :=
  match v with
  | gabs.MapRef l => is_Some (gabs.maps σ !! l)
  | gabs.SliceRef l => is_Some (gabs.slices σ !! l)
  | _ => True
  end.

(** A store is well formed when its cells lie below the next free location
    and hold valid values only. *)
Record wellFormed (σ : gabs.store) : Prop := {
  maps_below : forall l, is_Some (gabs.maps σ !! l) -> (l < gabs.next σ)%nat;
  slices_below : forall l, is_Some (gabs.slices σ !! l) -> (l < gabs.next σ)%nat;
  maps_valid : forall l m k v, gabs.maps σ !! l = Some m -> m !! k = Some v -> valid σ v;
  slices_valid : forall l a v, gabs.slices σ !! l = Some a -> v ∈ a -> valid σ v
}.

(** A later store keeps the cells of an earlier one. *)
Definition grows (σ σ' : gabs.store) : Prop := forall v, valid σ v -> valid σ' v.

(** What an operation on the store keeps: the store it leaves is well
    formed, holds the cells of the store it found, and the value it returns
    is valid there. *)
Definition keeps (σ σ' : gabs.store) (v : gabs.value) : Prop :=
  wellFormed σ' /\ grows σ σ' /\ valid σ' v.

(** ** Host configurations and documents of the scenarios *)

(** A host configuration given by the table of its keys: [Get] finds the
    listed key paths and reports every other one as missing. *)
Definition hostGet (table : list (list string * (string * jsonparser.ValueType)))
    (data : string) (keys : list string)
  : string * jsonparser.ValueType * Z * option error :=
  match list_find (fun e => bool_decide (e.1 = keys)) table with
  | Some (_, (_, (v, t))) => (v, t, 0, None)
  | None => (EmptyString, jsonparser.NotExist, -1, Some KeyPathNotFoundError)
  end.

(** A host configuration whose every lookup fails with [e]. *)
Definition brokenGet (e : error) (data : string) (keys : list string)
  : string * jsonparser.ValueType * Z * option error :=
  (EmptyString, jsonparser.NotExist, -1, Some e).

Definition noLetters (r : Z) : bool := false.

Definition emptyFile : ConfigurationFile := {| Replace := []; configuration := "" |}.

(** [{"server":{"port":25565}}] *)
Definition serverDoc : gabs.json :=
  gabs.JObject [("server", gabs.JObject [("port", gabs.JNumber "25565")])].

(** [{"worlds":{"world1":{"bind":"0.0.0.0"},"world2":{"bind":"0.0.0.0"}}}] *)
Definition worldsDoc : gabs.json :=
  gabs.JObject
    [("worlds",
      gabs.JObject [("world1", gabs.JObject [("bind", gabs.JString "0.0.0.0")]);
                    ("world2", gabs.JObject [("bind", gabs.JString "0.0.0.0")])])].


(** [{"a":{"x":{"b":{"p":{},"q":{}}}}}] *)
Definition nestedDoc : gabs.json :=
  gabs.JObject
    [("a", gabs.JObject
             [("x", gabs.JObject
                      [("b", gabs.JObject [("p", gabs.JObject []);
                                           ("q", gabs.JObject [])])])])].

(** [{"worlds":{"lobby":null,"world1":{"bind":"0.0.0.0"}}}] *)
Definition nullWorldDoc : gabs.json :=
  gabs.JObject
    [("worlds",
      gabs.JObject [("lobby", gabs.JNull);
                    ("world1", gabs.JObject [("bind", gabs.JString "0.0.0.0")])])].

(** [{"a":[[1]]}] *)
Definition arraysDoc : gabs.json :=
  gabs.JObject [("a", gabs.JArray [gabs.JArray [gabs.JNumber "1"]])].

(** The document in its store, as [gabs.ParseJSON] leaves it. *)
Definition loaded (j : gabs.json) : gabs.store * gabs.value := gabs.load j gabs.emptyStore.

(** [c.SetP(v, path)] on the document [j], read back with the error. *)
Definition setOn (j : gabs.json) (v : gabs.value) (path : string)
  : gabs.tree * option error :=
  let '(σ, g) := loaded j in
  let '(σ, g, err) := gabs.SetP σ g v path in
  (gabs.read (S (gabs.next σ)) σ g, err).

Definition nestedRule : ConfigurationFileReplacement :=
  {| Match := "a.*.b.*.c"; Value := "v"; ValueType := jsonparser.String |}.

Definition portRule : ConfigurationFileReplacement :=
  {| Match := "server.port"; Value := "{{ config.docker.port }}";
     ValueType := jsonparser.Number |}.

Definition bindRule : ConfigurationFileReplacement :=
  {| Match := "worlds.*.bind"; Value := "127.0.0.1"; ValueType := jsonparser.String |}.

Section Parser.

(** [unicode.IsLetter(r) || unicode.IsDigit(r)] above ASCII. *)
Variable isLetterOrDigit : Z -> bool.

(** [strcase.ToCamel]. *)
Variable ToCamel : string -> string.

(** [jsonparser.Get(data, keys...)]: the value, its type, the offset and
    the error. *)
Variable Get : string -> list string -> string * jsonparser.ValueType * Z * option error.

(** [json.Unmarshal] into an [interface{}]. *)
Variable Unmarshal : string -> gabs.json + error.

(** [huntPath] and [path] of [LookupConfigurationValue]. *)
Definition huntPath (value : string) : string :=
  regexp.ReplaceAllString isLetterOrDigit (regexp.FindString value) "$1".

Definition lookupPath (value : string) : list string :=
  map ToCamel (strings.Split (huntPath value) ".").

(** Looks up a configuration value on the Daemon given a dot-notated
    syntax. *)
Definition LookupConfigurationValue (f : ConfigurationFile)
    (cfr : ConfigurationFileReplacement)
  : string * jsonparser.ValueType * option error :=
  if negb (regexp.Match (Value cfr)) then (Value cfr, ValueType cfr, None)
  else
    let path := lookupPath (Value cfr) in
    let '(match_, dt, _, err) := Get (configuration f) path in
    match err with
    | Some e =>
        if bool_decide (e ≠ KeyPathNotFoundError)
        then (match_, dt, Some (WithStack e))
        else (Value cfr, ValueType cfr, None)
    | None =>
        let replaced := regexp.ReplaceAllString isLetterOrDigit (Value cfr) match_ in
        (replaced, ValueType cfr, None)
    end.

(** The loop over the matched children: each container is made for the
    loop and dropped after its write. *)
Fixpoint eachChild (σ : gabs.store) (children : list gabs.value) (path : string)
    (value : string) (vt : jsonparser.ValueType)
  : list event * gabs.store * option error :=
  match children with
  | [] => ([], σ, None)
  | child :: children' =>
      let '(σ, _, err) := setPathway σ child path value vt in
      match err with
      | Some e => ([Written child path value vt], σ, Some e)
      | None =>
          let '(tr, σ, err) := eachChild σ children' path value vt in
          (Written child path value vt :: tr, σ, err)
      end
  end.

(** The loop over [f.Replace]; [parsed] is the [object] of the document's
    container. *)
Fixpoint eachRule (f : ConfigurationFile) (rules : list ConfigurationFileReplacement)
    (σ : gabs.store) (parsed : gabs.value)
  : list event * gabs.store * gabs.value * option error :=
  match rules with
  | [] => ([], σ, parsed, None)
  | v :: rules' =>
      let '(value, dt, err) := LookupConfigurationValue f v in
      match err with
      | Some e => ([Resolved v], σ, parsed, Some e)
      | None =>
          if strings.Contains (Match v) ".*" then
            let parts := strings.SplitN (Match v) ".*" 2 in
            match parts !! 0%nat, parts !! 1%nat with
            | Some part0, Some part1 =>
                let '(σ, node) := gabs.Path σ parsed (strings.Trim part0 ".") in
                let '(tr, σ, err) :=
                  eachChild σ (gabs.Children σ node) (strings.Trim part1 ".") value dt in
                match err with
                | Some e => (Resolved v :: tr, σ, parsed, Some e)
                | None =>
                    let '(tr', σ, parsed, err) := eachRule f rules' σ parsed in
                    (Resolved v :: tr ++ tr', σ, parsed, err)
                end
            | _, _ => ([Resolved v], σ, parsed, Some IndexOutOfRangePanic)
            end
          else
            let '(σ', parsed', err) := setPathway σ parsed (Match v) value dt in
            match err with
            | Some e => ([Resolved v; Written parsed (Match v) value dt], σ', parsed', Some e)
            | None =>
                let '(tr', σ', parsed', err) := eachRule f rules' σ' parsed' in
                (Resolved v :: Written parsed (Match v) value dt :: tr', σ', parsed', err)
            end
      end
  end.

(** [gabs.ParseJSON]. *)
Definition ParseJSON (data : string) : (gabs.store * gabs.value) + error :=
  match Unmarshal data with
  | inr e => inr e
  | inl j => inl (gabs.load j gabs.emptyStore)
  end.

(** Iterate over an unstructured JSON/YAML/etc. interface and set all of
    the required key/value pairs for the configuration file.  The result
    is the calls made, the container returned ([None] for [nil]) and the
    error. *)
Definition IterateOverJson (f : ConfigurationFile) (data : string)
  : list event * option (gabs.store * gabs.value) * option error :=
  match ParseJSON data with
  | inr e => ([], None, Some e)
  | inl (σ, parsed) =>
      let '(tr, σ, parsed, err) := eachRule f (Replace f) σ parsed in
      match err with
      | Some e => (tr, None, Some e)
      | None => (tr, Some (σ, parsed), None)
      end
  end.

(** The document of the returned container, read back. *)
Definition document (r : list event * option (gabs.store * gabs.value) * option error)
  : option gabs.tree :=
  match r.1.2 with
  | Some (σ, parsed) => Some (gabs.read (S (gabs.next σ)) σ parsed)
  | None => None
  end.

End Parser.

(** ** Further notions *)

(** The scalars a document holds. *)
Definition scalar (v : gabs.value) : bool :=
  match v with
  | gabs.Bool _ | gabs.Int _ | gabs.Float64 _ | gabs.Str _ => true
  | _ => false
  end.

(** [σ'] has every cell of [σ] with its contents unchanged; what it has
    more lies at or above the next free location of [σ]. *)
Definition extends (σ σ' : gabs.store) : Prop :=
  (gabs.next σ <= gabs.next σ')%nat /\
  forall l, (l < gabs.next σ)%nat ->
    gabs.maps σ' !! l = gabs.maps σ !! l /\ gabs.slices σ' !! l = gabs.slices σ !! l.

(** The document a decoded JSON value denotes: a number is kept as a
    [float64], and of the fields of an object that share a name the last
    one stays. *)
Fixpoint treeOf (j : gabs.json) : gabs.tree :=
  match j with
  | gabs.JNull => gabs.TNil
  | gabs.JBool b => gabs.TBool b
  | gabs.JNumber lit => gabs.TFloat64 lit
  | gabs.JString s => gabs.TStr s
  | gabs.JArray elems => gabs.TSlice (treeOf <$> elems)
  | gabs.JObject fields =>
      gabs.TMap (foldl (fun m kv => <[kv.1 := treeOf kv.2]> m) ∅ fields)
  end.

(** The parts of a text put together again with the separator between
    them. *)
Fixpoint join (sep : string) (parts : list string) : string :=
  match parts with
  | [] => EmptyString
  | [p] => p
  | p :: ps => p +:+ sep +:+ join sep ps
  end.


(** The values that refer to a cell of the store. *)
Definition isRef (v : gabs.value) : bool :=
  match v with
  | gabs.MapRef _ | gabs.SliceRef _ => true
  | _ => false
  end.

(** [rank] orders the cells of [σ]: a cell lies below every cell it refers
    to. *)
Definition ranked (rank : gabs.value -> Z) (σ : gabs.store) : Prop :=
  (forall l m k v, gabs.maps σ !! l = Some m -> m !! k = Some v -> isRef v = true ->
     rank (gabs.MapRef l) < rank v) /\
  (forall l a v, gabs.slices σ !! l = Some a -> v ∈ a -> isRef v = true ->
     rank (gabs.SliceRef l) < rank v).

(** A store without a cycle of references, which is what decoding builds
    and what writing scalars keeps. *)
Definition acyclic (σ : gabs.store) : Prop := exists rank, ranked rank σ.

(** The cell [c] refers to is the same in both stores. *)
Definition sameCell (σ σ' : gabs.store) (c : gabs.value) : Prop :=
  match c with
  | gabs.MapRef l => gabs.maps σ' !! l = gabs.maps σ !! l
  | gabs.SliceRef l => gabs.slices σ' !! l = gabs.slices σ !! l
  | _ => True
  end.

(** The path a rule writes at: [Match] itself, or for a rule with a
    wildcard marker what follows the first marker, trimmed of dots. *)
Definition writePath (v : ConfigurationFileReplacement) : string :=
  if strings.Contains (Match v) ".*" then
    match strings.SplitN (Match v) ".*" 2 !! 1%nat with
    | Some part1 => strings.Trim part1 "."
    | None => EmptyString
    end
  else Match v.

(** No segment of the path is the append marker of [Set]. *)
Definition appendFree (path : string) : Prop := "-" ∉ gabs.DotPathToSlice path.

(** ** Package [regexp], specialised to [xmlValueMatchRegex]

    The pattern of [xmlValueMatchRegex] reads, piece by piece: [^], [\[],
    the group [([\w]+)], [='], the group of [.*], ['\]] and [$].  It is
    anchored at both ends of the text.  What follows [[\w]+] is [=], which is
    no word character, so the group is the whole run of word characters.
    [.*] takes bytes other than a newline, the longest run first, and gives
    them back one by one until the rest of the pattern matches; no byte of a
    multi-byte UTF-8 sequence is the quote the rest starts with, so giving
    back bytes and giving back runes agree. *)

Module xmlregexp.

(** [[\w]*], greedy. *)
Fixpoint wordSpan (s : string) : string * string :=
  match s with
  | String c s' =>
      if regexp.isWord c then let '(w, r) := wordSpan s' in (String c w, r)
      else (EmptyString, s)
  | EmptyString => (EmptyString, EmptyString)
  end.

(** ['\]$]: the quote and the bracket, then the end of the text. *)
Definition closing (s : string) : bool := String.eqb s "']".

(** The group of [.*] followed by ['\]$]: the group, when the rest of
    the pattern matches after it. *)
Fixpoint dotStar (s : string) : option string :=
  match s with
  | EmptyString => None
  | String c s' =>
      let here := if closing s then Some EmptyString else None in
      if eqb_byte c "010" then here
      else match dotStar s' with
           | Some g => Some (String c g)
           | None => here
           end
  end.

(** [FindStringSubmatch]: the two groups of the match, if the text
    matches. *)
Definition FindStringSubmatch (s : string) : option (string * string) :=
  match regexp.literal "[" s with
  | None => None
  | Some s1 =>
      let '(name, s2) := wordSpan s1 in
      match name with
      | EmptyString => None
      | _ =>
          match regexp.literal "='" s2 with
          | None => None
          | Some s3 =>
              match dotStar s3 with
              | Some value => Some (name, value)
              | None => None
              end
          end
      end
  end.

End xmlregexp.

(** A byte other than the newline, which is what [.] matches. *)
Definition notNewline (c : ascii) : bool := negb (eqb_byte c "010").


(** Every map of [σ] is in [σ'] with at least its keys, and every array
    with its length. *)
Definition keepsKeys (σ σ' : gabs.store) : Prop :=
  (forall l m, gabs.maps σ !! l = Some m ->
     exists m', gabs.maps σ' !! l = Some m' /\
                forall k, is_Some (m !! k) -> is_Some (m' !! k)) /\
  (forall l a, gabs.slices σ !! l = Some a ->
     exists a', gabs.slices σ' !! l = Some a' /\ length a' = length a).

(** ** Scenarios *)

(** The host configuration and the file of the port scenario, and the pass
    over [{"server":{"port":25565}}]. *)
Definition portHost (data : string) (keys : list string)
  : string * jsonparser.ValueType * Z * option error :=
  hostGet [(["Docker"; "Port"], ("25566", jsonparser.Number))] data keys.

Definition portFile : ConfigurationFile :=
  {| Replace := [portRule]; configuration := "" |}.

Definition portPass : list event * option (gabs.store * gabs.value) * option error :=
  IterateOverJson noLetters strcase.ToCamel portHost (fun _ => inl serverDoc) portFile "".

(** The store and the object of the container a pass returns. *)
Definition returned (r : list event * option (gabs.store * gabs.value) * option error)
  : gabs.store * gabs.value :=
  default (gabs.emptyStore, gabs.Nil) r.1.2.

(** ** Documents as trees *)

(** A step from a map or an array into one of the values it holds. *)
Inductive pos :=
| Key (k : string)
| Index (i : nat).

(** [addr] gives maps and arrays of the store their place in a document:
    only cells that exist have a place, and the place of what a placed cell
    holds is the place of the cell followed by the key or the index.  A cell
    that [addr] leaves out is no part of the document. *)
Record addressed (addr : gabs.value -> option (list pos)) (σ : gabs.store) : Prop := {
  addr_valid : forall c, is_Some (addr c) -> isRef c = true /\ valid σ c;
  addr_key : forall l m k w p,
    gabs.maps σ !! l = Some m -> m !! k = Some w -> isRef w = true ->
    addr (gabs.MapRef l) = Some p -> addr w = Some (p ++ [Key k]);
  addr_index : forall l a i w p,
    gabs.slices σ !! l = Some a -> a !! i = Some w -> isRef w = true ->
    addr (gabs.SliceRef l) = Some p -> addr w = Some (p ++ [Index i])
}.

(** The cell [c] lies at or below the place [A]. *)
Definition below (A : list pos) (addr : gabs.value -> option (list pos))
    (c : gabs.value) : Prop :=
  exists q, addr c = Some (A ++ q).

(** Two places of which neither lies below the other. *)
Definition apart (A B : list pos) : Prop := forall q q', A ++ q <> B ++ q'.

(** The document of [root] is a tree: every map and array in it has one
    place, the root the empty one. *)
Definition tree (σ : gabs.store) (root : gabs.value) : Prop :=
  exists addr, addressed addr σ /\ (isRef root = true -> addr root = Some []).

(** The path of the node whose children a rule with a wildcard marker
    writes to: what precedes the first marker, trimmed of dots. *)
Definition nodePath (v : ConfigurationFileReplacement) : string :=
  match strings.SplitN (Match v) ".*" 2 !! 0%nat with
  | Some part0 => strings.Trim part0 "."
  | None => EmptyString
  end.

(** No segment of the path is the wildcard of [Search]. *)
Definition starFree (path : string) : Prop := "*" ∉ gabs.DotPathToSlice path.

(** An address function with the place of one cell set anew. *)
Definition place (addr : gabs.value -> option (list pos)) (n : gabs.value)
    (P : option (list pos)) : gabs.value -> option (list pos) :=
  fun c => if decide (c = n) then P else addr c.

(** The references among [cs] have places, and the places of two of them
    at different positions of the list lie apart: the documents below them
    share no map and no array. *)
Definition placedApart (addr : gabs.value -> option (list pos)) (cs : list gabs.value)
  : Prop :=
  (forall c, c ∈ cs -> isRef c = true -> is_Some (addr c)) /\
  (forall (i j : nat) ci cj Ai Aj, i <> j -> cs !! i = Some ci -> cs !! j = Some cj ->
     addr ci = Some Ai -> addr cj = Some Aj -> apart Ai Aj).

(** The file and the pass of the scenario of the worlds: every world gets
    the bind address. *)
Definition worldsFile : ConfigurationFile :=
  {| Replace := [bindRule]; configuration := "" |}.

Definition worldsPass : list event * option (gabs.store * gabs.value) * option error :=
  IterateOverJson noLetters strcase.ToCamel (hostGet []) (fun _ => inl worldsDoc)
    worldsFile "".

(** The first segment of the path a rule follows from the document: of
    [Match], or for a rule with a wildcard marker of the path of the node. *)
Definition firstSegment (v : ConfigurationFileReplacement) : string :=
  hd EmptyString
     (gabs.DotPathToSlice
        (if strings.Contains (Match v) ".*" then nodePath v else Match v)).

(** From [σ] to [σ'] the field [k] of the map at [l0] and everything below
    it are kept, and so are the places. *)
Definition fieldKept (l0 : nat) (k : string)
    (addr addr' : gabs.value -> option (list pos)) (σ σ' : gabs.store) : Prop :=
  (forall c, valid σ c -> addr' c = addr c) /\
  (gabs.maps σ' !!! l0 : gmap string gabs.value) !! k = (gabs.maps σ !!! l0) !! k /\
  (forall x, valid σ x -> isRef x = true -> below [Key k] addr x -> sameCell σ σ' x).

(** A rule that leaves the top-level field [k] alone, as far as its paths
    tell: it starts at another field, it does not append, and the path of its
    node, if it has a wildcard marker, has no wildcard segment. *)
Definition ruleAvoids (k : string) (v : ConfigurationFileReplacement) : Prop :=
  appendFree (writePath v) /\
  (strings.Contains (Match v) ".*" = true -> starFree (nodePath v)) /\
  firstSegment v <> k.

(** [{"server":{"port":25565},"worlds":{"world1":{"bind":"0.0.0.0"}},"motd":{"lines":["hi"]}}]
    with a plain rule for the port and a wildcard rule for the worlds. *)
Definition mixedFields : list (string * gabs.json) :=
  [("server", gabs.JObject [("port", gabs.JNumber "25565")]);
   ("worlds", gabs.JObject [("world1", gabs.JObject [("bind", gabs.JString "0.0.0.0")])]);
   ("motd", gabs.JObject [("lines", gabs.JArray [gabs.JString "hi"])])].

Definition mixedFile : ConfigurationFile :=
  {| Replace := [portRule; bindRule]; configuration := "" |}.

Definition mixedPass : list event * option (gabs.store * gabs.value) * option error :=
  IterateOverJson noLetters strcase.ToCamel portHost
    (fun _ => inl (gabs.JObject mixedFields)) mixedFile "".

Module StringsFacts.

Lemma append_cons (c : ascii) (s t : string) : String c s +:+ t = String c (s +:+ t).
Proof. reflexivity. Qed.

Lemma append_nil_l (s : string) : "" +:+ s = s.
Proof. reflexivity. Qed.

Lemma append_nil_r (s : string) : s +:+ "" = s.
Proof. induction s as [|c s IH]; [done | by rewrite append_cons, IH]. Qed.

Lemma append_assoc (a b c : string) : (a +:+ b) +:+ c = a +:+ b +:+ c.
Proof. induction a as [|x a IH]; [done | by rewrite !append_cons, IH]. Qed.

Lemma append_length (a b : string) :
  String.length (a +:+ b) = (String.length a + String.length b)%nat.
Proof. induction a as [|x a IH]; [done | rewrite append_cons; simpl; by rewrite IH]. Qed.

Lemma append_inv_head (a b c : string) : a +:+ b = a +:+ c -> b = c.
Proof. induction a as [|x a IH]; [exact (fun H => H) |]. rewrite !append_cons. intros [= H]. auto. Qed.

Lemma eqb_byte_eq (a b : ascii) : eqb_byte a b = true <-> a = b.
Proof. apply Ascii.eqb_eq. Qed.

Lemma eqb_byte_refl (a : ascii) : eqb_byte a a = true.
Proof. apply Ascii.eqb_refl. Qed.

Lemma eqb_byte_neq (a b : ascii) : eqb_byte a b = false <-> a <> b.
Proof. apply Ascii.eqb_neq. Qed.

Lemma HasPrefix_app (p r : string) : strings.HasPrefix (p +:+ r) p = true.
Proof. induction p as [|c p IH]; [done |]. rewrite append_cons. simpl. by rewrite eqb_byte_refl, IH. Qed.

Lemma drop_app (p r : string) : strings.drop (String.length p) (p +:+ r) = r.
Proof. induction p as [|c p IH]; [done | exact IH]. Qed.

Lemma HasPrefix_inv (s p : string) :
  strings.HasPrefix s p = true -> s = p +:+ strings.drop (String.length p) s.
Proof.
  revert s. induction p as [|c p IH]; intros s; simpl; [done |].
  destruct s as [|d s]; [done |]. intros H.
  apply andb_true_iff in H as [Hc Hp]. apply eqb_byte_eq in Hc as ->.
  rewrite append_cons. f_equal. by apply IH.
Qed.

(** [Cut] splits at an instance of the separator. *)
Lemma Cut_Some (s sep before after : string) :
  strings.Cut s sep = Some (before, after) -> s = before +:+ sep +:+ after.
Proof.
  revert before after. induction s as [|c s IH]; intros before after; simpl.
  - destruct (strings.HasPrefix "" sep) eqn:Hp; [|done].
    intros [= <- <-]. by apply HasPrefix_inv in Hp.
  - destruct (strings.HasPrefix (String c s) sep) eqn:Hp.
    + intros [= <- <-]. by apply HasPrefix_inv in Hp.
    + destruct (strings.Cut s sep) as [[b a]|] eqn:Hc; [|done].
      intros [= <- <-]. rewrite append_cons. f_equal. by apply IH.
Qed.

(** ... and that instance is the first one: no instance starts earlier. *)
Lemma Cut_first (s sep before after x y : string) :
  strings.Cut s sep = Some (before, after) -> s = x +:+ sep +:+ y ->
  (String.length before <= String.length x)%nat.
Proof.
  revert before after x. induction s as [|c s IH]; intros before after x; simpl.
  - destruct (strings.HasPrefix "" sep); [|done]. intros [= <- <-] _. simpl. lia.
  - destruct (strings.HasPrefix (String c s) sep) eqn:Hp.
    + intros [= <- <-] _. simpl. lia.
    + destruct (strings.Cut s sep) as [[b a]|] eqn:Hc; [|done].
      intros [= <- <-] Hs. destruct x as [|d x].
      * rewrite append_nil_l in Hs. rewrite Hs, HasPrefix_app in Hp. done.
      * rewrite append_cons in Hs. injection Hs as -> Hs. simpl.
        specialize (IH b a x eq_refl Hs). lia.
Qed.

Lemma Cut_None (s sep x y : string) :
  strings.Cut s sep = None -> s <> x +:+ sep +:+ y.
Proof.
  revert x. induction s as [|c s IH]; intros x; simpl.
  - destruct (strings.HasPrefix "" sep) eqn:Hp; [done|]. intros _ Hs.
    destruct x; [|done]. rewrite append_nil_l in Hs. rewrite Hs, HasPrefix_app in Hp. done.
  - destruct (strings.HasPrefix (String c s) sep) eqn:Hp; [done|].
    destruct (strings.Cut s sep) as [[b a]|] eqn:Hc; [done|].
    intros _ Hs. destruct x as [|d x].
    + rewrite append_nil_l in Hs. rewrite Hs, HasPrefix_app in Hp. done.
    + rewrite append_cons in Hs. injection Hs as -> Hs. by eapply IH.
Qed.

Lemma Cut_complete (x sep y : string) :
  exists before after, strings.Cut (x +:+ sep +:+ y) sep = Some (before, after).
Proof.
  destruct (strings.Cut (x +:+ sep +:+ y) sep) as [[b a]|] eqn:Hc; [eauto|].
  by eapply Cut_None in Hc.
Qed.

Lemma Contains_true (s sep : string) :
  strings.Contains s sep = true <-> exists x y, s = x +:+ sep +:+ y.
Proof.
  unfold strings.Contains. split.
  - destruct (strings.Cut s sep) as [[b a]|] eqn:Hc; [|done].
    intros _. exists b, a. by apply Cut_Some.
  - intros (x & y & ->). by destruct (Cut_complete x sep y) as (b & a & ->).
Qed.

(** [SplitN(s, sep, 2)] of a string that contains [sep] has two parts. *)
Lemma SplitN_2 (s sep : string) :
  strings.Contains s sep = true -> sep <> "" ->
  exists part0 part1,
    strings.SplitN s sep 2 = [part0; part1] /\
    strings.Cut s sep = Some (part0, part1).
Proof.
  unfold strings.Contains, strings.SplitN. intros H Hsep.
  destruct (strings.Cut s sep) as [[b a]|] eqn:Hc; [|done].
  exists b, a. split; [|done].
  destruct s as [|c s].
  - apply Cut_Some in Hc. destruct b; [|done]. destruct sep; done.
  - simpl String.length. replace (Nat.min 2 (S (S (String.length s)))) with 2%nat by lia.
    simpl. simpl in Hc. by rewrite Hc.
Qed.

(** Two ways of cutting one string: the longer first part extends the
    shorter one. *)
Lemma append_split (a b c d : string) :
  a +:+ b = c +:+ d -> (String.length a <= String.length c)%nat ->
  exists e, c = a +:+ e /\ b = e +:+ d.
Proof.
  revert c. induction a as [|x a IH]; intros c H Hl.
  - exists c. by rewrite !append_nil_l in *.
  - destruct c as [|y c]; [simpl in Hl; lia|].
    rewrite !append_cons in H. injection H as -> H.
    destruct (IH c H) as (e & -> & ->); [simpl in Hl; lia|]. by exists e.
Qed.

Lemma Cut_after_shorter (s sep before after : string) :
  sep <> "" -> strings.Cut s sep = Some (before, after) ->
  (String.length after < String.length s)%nat.
Proof.
  intros Hsep H. apply Cut_Some in H as ->. rewrite !append_length.
  destruct sep; [done|]. simpl. lia.
Qed.

Lemma genSplit_SS (n : nat) (s sep : string) :
  strings.genSplit (S (S n)) s sep =
  match strings.Cut s sep with
  | None => [s]
  | Some (before, after) => before :: strings.genSplit (S n) after sep
  end.
Proof. reflexivity. Qed.

(** [genSplit] does not depend on the bound once it exceeds the length of
    the string, which [Count(s, sep) + 1] never does. *)
Lemma genSplit_fuel (n k : nat) (s sep : string) :
  sep <> "" -> (String.length s < n)%nat -> (String.length s < k)%nat ->
  strings.genSplit n s sep = strings.genSplit k s sep.
Proof.
  intros Hsep. revert k s. induction n as [|n IH]; intros k s Hn Hk; [lia|].
  destruct k as [|k]; [lia|].
  destruct (strings.Cut s sep) as [[b a]|] eqn:Hc.
  - pose proof (Cut_after_shorter _ _ _ _ Hsep Hc) as Hlt.
    destruct n as [|n]; [lia|]. destruct k as [|k]; [lia|].
    rewrite !genSplit_SS, Hc. f_equal. apply IH; lia.
  - destruct n as [|n], k as [|k]; rewrite ?genSplit_SS, ?Hc; done.
Qed.

(** The equation of [Split]: the text before the first separator, then the
    pieces of the text after it. *)
Lemma Split_unfold (s sep : string) :
  sep <> "" ->
  strings.Split s sep =
  match strings.Cut s sep with
  | None => [s]
  | Some (before, after) => before :: strings.Split after sep
  end.
Proof.
  intros Hsep. unfold strings.Split.
  destruct (strings.Cut s sep) as [[b a]|] eqn:Hc.
  - pose proof (Cut_after_shorter _ _ _ _ Hsep Hc) as Hlt.
    destruct (String.length s) as [|n] eqn:Hl; [lia|].
    rewrite genSplit_SS, Hc. f_equal. apply genSplit_fuel; [done|lia..].
  - destruct (String.length s); rewrite ?genSplit_SS, ?Hc; done.
Qed.

Lemma replaceLoop_fuel (n k : nat) (s old new : string) :
  old <> "" -> (String.length s <= n)%nat -> (String.length s <= k)%nat ->
  strings.replaceLoop n s old new = strings.replaceLoop k s old new.
Proof.
  intros Hold. revert k s. induction n as [|n IH]; intros k s Hn Hk.
  - destruct s; [|simpl in Hn; lia].
    destruct k; simpl; [done|]. destruct old; done.
  - destruct (strings.Cut s old) as [[b a]|] eqn:Hc.
    + pose proof (Cut_after_shorter _ _ _ _ Hold Hc) as Hlt.
      destruct k as [|k]; [lia|]. simpl. rewrite Hc. do 2 f_equal. apply IH; lia.
    + destruct k; simpl; by rewrite ?Hc.
Qed.

(** The equation of [Replace] with [n = -1]: every instance is replaced,
    from left to right. *)
Lemma Replace_unfold (s old new : string) :
  old <> "" ->
  strings.Replace s old new =
  match strings.Cut s old with
  | None => s
  | Some (before, after) => before +:+ new +:+ strings.Replace after old new
  end.
Proof.
  intros Hold. unfold strings.Replace.
  destruct (strings.Cut s old) as [[b a]|] eqn:Hc.
  - pose proof (Cut_after_shorter _ _ _ _ Hold Hc) as Hlt.
    destruct (String.length s) as [|n] eqn:Hl; [lia|].
    simpl. rewrite Hc. do 2 f_equal. apply replaceLoop_fuel; [done|lia..].
  - destruct (String.length s); simpl; by rewrite ?Hc.
Qed.

Lemma drop_length (n : nat) (s : string) :
  String.length (strings.drop n s) = (String.length s - n)%nat.
Proof.
  revert s. induction n as [|n IH]; intros s; simpl; [lia|].
  destruct s; simpl; [done | apply IH].
Qed.

End StringsFacts.

Import StringsFacts.

Module RegexpFacts.

Lemma space_not_path (c : ascii) : regexp.isSpace c = true -> regexp.isPathByte c = false.
Proof. destruct c as [[] [] [] [] [] [] [] []]; vm_compute; congruence. Qed.

Lemma literal_app (p r : string) : regexp.literal p (p +:+ r) = Some r.
Proof. unfold regexp.literal. by rewrite HasPrefix_app, drop_app. Qed.

Lemma literal_Some (p s r : string) : regexp.literal p s = Some r -> s = p +:+ r.
Proof.
  unfold regexp.literal. destruct (strings.HasPrefix s p) eqn:Hp; [|done].
  intros [= <-]. by apply HasPrefix_inv.
Qed.

Lemma optSpace_spec (s w r : string) :
  regexp.optSpace s = (w, r) ->
  s = w +:+ r /\ allBytes regexp.isSpace w = true /\ (String.length w <= 1)%nat.
Proof.
  destruct s as [|c s]; simpl.
  - intros [= <- <-]. simpl. auto.
  - destruct (regexp.isSpace c) eqn:Hc; intros [= <- <-]; simpl; rewrite ?Hc; auto.
Qed.

Lemma optSpace_skip (s : string) :
  startsWith regexp.isSpace s = false -> regexp.optSpace s = ("", s).
Proof. destruct s as [|c s]; simpl; [done|]. by intros ->. Qed.

Lemma optSpace_take (w r : string) :
  allBytes regexp.isSpace w = true -> (String.length w <= 1)%nat ->
  startsWith regexp.isSpace r = false ->
  regexp.optSpace (w +:+ r) = (w, r).
Proof.
  destruct w as [|c [|d w]]; simpl; intros Hw Hl Hr; [| |lia].
  - rewrite append_nil_l. by apply optSpace_skip.
  - rewrite append_cons, append_nil_l. simpl. apply andb_true_iff in Hw as [-> _]. done.
Qed.

Lemma pathSpan_spec (s p r : string) :
  regexp.pathSpan s = (p, r) ->
  s = p +:+ r /\ allBytes regexp.isPathByte p = true /\ startsWith regexp.isPathByte r = false.
Proof.
  revert p r. induction s as [|c s IH]; intros p r; simpl.
  - intros [= <- <-]. auto.
  - destruct (regexp.isPathByte c) eqn:Hc.
    + destruct (regexp.pathSpan s) as [p' r'] eqn:Hs. intros [= <- <-].
      destruct (IH p' r' eq_refl) as (-> & Hp & Hr).
      rewrite append_cons. simpl. rewrite Hc. auto.
    + intros [= <- <-]. simpl. auto.
Qed.

Lemma pathSpan_app (p r : string) :
  allBytes regexp.isPathByte p = true -> startsWith regexp.isPathByte r = false ->
  regexp.pathSpan (p +:+ r) = (p, r).
Proof.
  intros Hp Hr. induction p as [|c p IH].
  - rewrite append_nil_l. destruct r as [|d r]; simpl in *; [done|]. by rewrite Hr.
  - simpl in Hp. apply andb_true_iff in Hp as [Hc Hp].
    rewrite append_cons. simpl. rewrite Hc, (IH Hp). done.
Qed.

Lemma matchHere_sound (s : string) (m : regexp.Submatch) :
  regexp.matchHere s = Some m ->
  s = regexp.whole m +:+ regexp.after m /\
  placeholder (Some 1%nat) (regexp.whole m) (regexp.group1 m).
Proof.
  unfold regexp.matchHere.
  destruct (regexp.literal "{{" s) as [s1|] eqn:H1; [|done].
  destruct (regexp.optSpace s1) as [w1 s2] eqn:H2.
  destruct (regexp.literal "config." s2) as [s3|] eqn:H3; [|done].
  destruct (regexp.pathSpan s3) as [g s4] eqn:H4.
  destruct g as [|g0 g]; [done|].
  destruct (regexp.optSpace s4) as [w2 s5] eqn:H5.
  destruct (regexp.literal "}}" s5) as [s6|] eqn:H6; [|done].
  intros [= <-]. simpl.
  apply literal_Some in H1, H3, H6.
  apply optSpace_spec in H2 as (E2 & Hw1 & Hl1), H5 as (E5 & Hw2 & Hl2).
  apply pathSpan_spec in H4 as (E4 & Hg & _).
  split.
  - subst s s1 s2 s3 s4 s5. by rewrite !append_assoc.
  - by exists w1, w2.
Qed.

Lemma matchHere_complete (t p rest : string) :
  placeholder (Some 1%nat) t p ->
  regexp.matchHere (t +:+ rest) =
  Some {| regexp.whole := t; regexp.group1 := p; regexp.after := rest |}.
Proof.
  intros (w1 & w2 & -> & Hw1 & Hw2 & Hp & Hpb & Hl1 & Hl2).
  unfold regexp.matchHere. rewrite !append_assoc, literal_app.
  rewrite optSpace_take by done. rewrite literal_app.
  assert (Hstart : startsWith regexp.isPathByte (w2 +:+ "}}" +:+ rest) = false).
  { destruct w2 as [|c w2]; [done|]. rewrite append_cons. simpl.
    simpl in Hw2. apply andb_true_iff in Hw2 as [Hc _]. by apply space_not_path. }
  rewrite pathSpan_app by done.
  destruct p as [|p0 p]; [done|].
  rewrite optSpace_take by done. rewrite literal_app. done.
Qed.

Lemma find_sound (s pre : string) (m : regexp.Submatch) :
  regexp.find s = Some (pre, m) ->
  s = pre +:+ regexp.whole m +:+ regexp.after m /\
  placeholder (Some 1%nat) (regexp.whole m) (regexp.group1 m).
Proof.
  revert pre. induction s as [|c s IH]; intros pre; [done|]. simpl.
  destruct (regexp.matchHere (String c s)) as [m'|] eqn:Hm.
  - intros [= <- <-]. by apply matchHere_sound.
  - destruct (regexp.find s) as [[b m']|] eqn:Hf; [|done].
    intros [= <- <-]. destruct (IH b eq_refl) as [-> Hp]. by rewrite append_cons.
Qed.

Lemma find_here (s : string) (m : regexp.Submatch) :
  regexp.matchHere s = Some m -> regexp.find s = Some ("", m).
Proof. intros H. destruct s; [by vm_compute in H | simpl; by rewrite H]. Qed.

Lemma find_complete (pre s : string) :
  regexp.matchHere s <> None -> regexp.find (pre +:+ s) <> None.
Proof.
  intros Hs. induction pre as [|c pre IH].
  - rewrite append_nil_l. destruct (regexp.matchHere s) as [m|] eqn:Hm; [|done].
    by rewrite (find_here _ _ Hm).
  - rewrite append_cons. simpl. destruct (regexp.matchHere (String c _)); [done|].
    destruct (regexp.find (pre +:+ s)) as [[b m]|]; done.
Qed.

(** [find] gives the leftmost match: no token starts before it. *)
Lemma find_leftmost (s pre pre' t post' : string) (m : regexp.Submatch) :
  regexp.find s = Some (pre, m) -> s = pre' +:+ t +:+ post' -> regexToken t ->
  (String.length pre <= String.length pre')%nat.
Proof.
  intros Hf Hs [p Hp]. revert pre pre' Hf Hs.
  induction s as [|c s IH]; intros pre pre' Hf Hs; [by vm_compute in Hf|].
  simpl in Hf. destruct (regexp.matchHere (String c s)) as [m'|] eqn:Hm.
  - injection Hf as <- <-. simpl. lia.
  - destruct (regexp.find s) as [[b m']|] eqn:Hf'; [|done].
    injection Hf as <- <-. destruct pre' as [|d pre'].
    + rewrite append_nil_l in Hs. by rewrite Hs, (matchHere_complete t p post' Hp) in Hm.
    + rewrite append_cons in Hs. injection Hs as -> Hs. simpl.
      specialize (IH b pre' eq_refl Hs). lia.
Qed.

(** [Match] holds exactly for the values that contain a token with at most
    one byte of whitespace on each side. *)
Lemma Match_iff (v : string) :
  regexp.Match v = true <-> containsToken regexToken v.
Proof.
  unfold regexp.Match. split.
  - destruct (regexp.find v) as [[pre m]|] eqn:Hf; [|done]. intros _.
    apply find_sound in Hf as [-> Hp].
    exists pre, (regexp.whole m), (regexp.after m). split; [done|].
    by exists (regexp.group1 m).
  - intros (pre & t & post & -> & p & Hp).
    pose proof (find_complete pre (t +:+ post)) as H.
    rewrite (matchHere_complete t p post Hp) in H.
    destruct (regexp.find (pre +:+ t +:+ post)) as [[b m]|]; [done|].
    by destruct H.
Qed.

Lemma find_after_shorter (s pre : string) (m : regexp.Submatch) :
  regexp.find s = Some (pre, m) ->
  (String.length (regexp.after m) < String.length s)%nat.
Proof.
  intros Hf. apply find_sound in Hf as [-> (w1 & w2 & E & _)].
  rewrite E, !append_length. simpl. lia.
Qed.

(** A rune of a non-empty string takes at least one byte and no more bytes
    than the string has. *)
Lemma DecodeRune_size (s : string) :
  s <> "" ->
  (1 <= (utf8.DecodeRuneInString s).2 <= String.length s)%nat.
Proof.
  destruct s as [|c0 t]; [done|]. intros _. unfold utf8.DecodeRuneInString.
  destruct (utf8.first (byteval c0)) as [[[sz lo] hi]|]; [|simpl; lia].
  destruct (_ <? sz)%nat; [simpl; lia|].
  destruct t as [|c1 t1]; [simpl; lia|].
  destruct (negb _); [simpl; lia|]. destruct (sz <=? 2)%nat; [simpl; lia|].
  destruct t1 as [|c2 t2]; [simpl; lia|].
  destruct (negb _); [simpl; lia|]. destruct (sz <=? 3)%nat; [simpl; lia|].
  destruct t2 as [|c3 t3]; [simpl; lia|].
  destruct (negb _); simpl; lia.
Qed.

Section ExpandFacts.

Variable isLetterOrDigit : Z -> bool.

Lemma nameLen_fuel (n k : nat) (str : string) :
  (String.length str <= n)%nat -> (String.length str <= k)%nat ->
  regexp.nameLen isLetterOrDigit n str = regexp.nameLen isLetterOrDigit k str.
Proof.
  revert k str. induction n as [|n IH]; intros k str Hn Hk.
  - destruct str; [|simpl in Hn; lia]. by destruct k.
  - destruct str as [|c t]; [by destruct k|].
    destruct k as [|k]; [simpl in Hk; lia|].
    pose proof (DecodeRune_size (String c t) ltac:(done)) as Hs.
    cbn [regexp.nameLen].
    destruct (utf8.DecodeRuneInString (String c t)) as [r size]. cbn [snd] in Hs.
    destruct size as [|size]; [lia|].
    destruct (regexp.isNameRune isLetterOrDigit r); [|done].
    f_equal. apply IH; rewrite drop_length; simpl in *; lia.
Qed.

Lemma nameLen_le (n : nat) (str : string) :
  (regexp.nameLen isLetterOrDigit n str <= String.length str)%nat.
Proof.
  revert str. induction n as [|n IH]; intros str; [simpl; lia|].
  destruct str as [|c t]; [simpl; lia|].
  pose proof (DecodeRune_size (String c t) ltac:(done)) as Hs.
  cbn [regexp.nameLen].
  destruct (utf8.DecodeRuneInString (String c t)) as [r size]. cbn [snd] in Hs.
  destruct size as [|size]; [lia|].
  destruct (regexp.isNameRune isLetterOrDigit r); [|lia].
  specialize (IH (strings.drop (S size) (String c t))).
  rewrite drop_length in IH. lia.
Qed.

(** What [extract] leaves of the template is no longer than the template. *)
Lemma extract_rest (str name rest : string) (num : Z) :
  regexp.extract isLetterOrDigit str = Some (name, num, rest) ->
  (String.length rest <= String.length str)%nat.
Proof.
  unfold regexp.extract. destruct str as [|c0 str1]; [done|].
  cbv zeta. destruct (regexp.nameLen _ _ _) as [|i] eqn:Hi; [done|].
  destruct (eqb_byte c0 "{").
  - destruct (strings.drop (S i) str1) as [|c r] eqn:Hd; [done|].
    destruct (Ascii.eqb_spec c "}") as [->|Hne].
    + intros [= _ _ <-].
      pose proof (drop_length (S i) str1) as Hl. rewrite Hd in Hl. simpl in *. lia.
    + intros H. exfalso. revert H.
      destruct c as [[] [] [] [] [] [] [] []]; done.
  - intros [= _ _ <-]. rewrite drop_length. simpl. lia.
Qed.

Lemma expandLoop_fuel (n k : nat) (template : string) (m : regexp.Submatch) :
  (String.length template < n)%nat -> (String.length template < k)%nat ->
  regexp.expandLoop isLetterOrDigit n template m
  = regexp.expandLoop isLetterOrDigit k template m.
Proof.
  revert k template. induction n as [|n IH]; intros k template Hn Hk; [lia|].
  destruct k as [|k]; [lia|]. cbn [regexp.expandLoop].
  destruct (strings.Cut template "$") as [[before rest]|] eqn:Hc; [|done].
  pose proof (Cut_after_shorter _ "$" _ _ ltac:(done) Hc) as Hlt. f_equal.
  assert (Hex : match regexp.extract isLetterOrDigit rest with
                | Some (_, num, rest') =>
                    regexp.groupText m num +:+ regexp.expandLoop isLetterOrDigit n rest' m
                | None => "$" +:+ regexp.expandLoop isLetterOrDigit n rest m
                end =
                match regexp.extract isLetterOrDigit rest with
                | Some (_, num, rest') =>
                    regexp.groupText m num +:+ regexp.expandLoop isLetterOrDigit k rest' m
                | None => "$" +:+ regexp.expandLoop isLetterOrDigit k rest m
                end).
  { destruct (regexp.extract isLetterOrDigit rest) as [[[name num] rest']|] eqn:He.
    - apply extract_rest in He. f_equal. apply IH; lia.
    - f_equal. apply IH; lia. }
  destruct rest as [|c rest']; [exact Hex|].
  destruct (Ascii.eqb_spec c "$") as [->|Hne].
  - f_equal. apply IH; simpl in *; lia.
  - destruct c as [[] [] [] [] [] [] [] []]; try exact Hex. by destruct Hne.
Qed.

(** The equation of [expand]: text up to a [$] is copied; [$$] gives [$];
    [$name] and [${name}] give the text of the group; a [$] that starts no
    name stays. *)
Lemma expand_unfold (template : string) (m : regexp.Submatch) :
  regexp.expand isLetterOrDigit template m =
  match strings.Cut template "$" with
  | None => template
  | Some (before, rest) =>
      before +:+
      match rest with
      | String "$" rest' => "$" +:+ regexp.expand isLetterOrDigit rest' m
      | _ =>
          match regexp.extract isLetterOrDigit rest with
          | None => "$" +:+ regexp.expand isLetterOrDigit rest m
          | Some (_, num, rest') =>
              regexp.groupText m num +:+ regexp.expand isLetterOrDigit rest' m
          end
      end
  end.
Proof.
  unfold regexp.expand at 1. cbn [regexp.expandLoop].
  destruct (strings.Cut template "$") as [[before rest]|] eqn:Hc; [|done].
  pose proof (Cut_after_shorter _ "$" _ _ ltac:(done) Hc) as Hlt. f_equal.
  assert (Hex : match regexp.extract isLetterOrDigit rest with
                | Some (_, num, rest') =>
                    regexp.groupText m num
                    +:+ regexp.expandLoop isLetterOrDigit (String.length template) rest' m
                | None =>
                    "$" +:+ regexp.expandLoop isLetterOrDigit (String.length template) rest m
                end =
                match regexp.extract isLetterOrDigit rest with
                | Some (_, num, rest') =>
                    regexp.groupText m num +:+ regexp.expand isLetterOrDigit rest' m
                | None => "$" +:+ regexp.expand isLetterOrDigit rest m
                end).
  { unfold regexp.expand.
    destruct (regexp.extract isLetterOrDigit rest) as [[[name num] rest']|] eqn:He.
    - apply extract_rest in He. f_equal. apply expandLoop_fuel; lia.
    - f_equal. apply expandLoop_fuel; lia. }
  destruct rest as [|c rest']; [exact Hex|].
  destruct (Ascii.eqb_spec c "$") as [->|Hne].
  - f_equal. unfold regexp.expand. apply expandLoop_fuel; simpl in *; lia.
  - destruct c as [[] [] [] [] [] [] [] []]; try exact Hex. by destruct Hne.
Qed.

Lemma expand_plain (template : string) (m : regexp.Submatch) :
  strings.Contains template "$" = false ->
  regexp.expand isLetterOrDigit template m = template.
Proof.
  unfold strings.Contains, regexp.expand. simpl.
  by destruct (strings.Cut template "$").
Qed.

Lemma expand_group1 (m : regexp.Submatch) :
  regexp.expand isLetterOrDigit "$1" m = regexp.group1 m.
Proof. vm_compute. apply append_nil_r. Qed.

Lemma replaceAll_fuel (n k : nat) (src repl : string) :
  (String.length src < n)%nat -> (String.length src < k)%nat ->
  regexp.replaceAll isLetterOrDigit n src repl = regexp.replaceAll isLetterOrDigit k src repl.
Proof.
  revert k src. induction n as [|n IH]; intros k src Hn Hk; [lia|].
  destruct k as [|k]; [lia|]. simpl.
  destruct (regexp.find src) as [[pre m]|] eqn:Hf; [|done].
  apply find_after_shorter in Hf. f_equal. f_equal. apply IH; lia.
Qed.

(** The equation of [ReplaceAllString]: the text before the leftmost match,
    the expansion of the template, and the rest treated in the same way. *)
Lemma ReplaceAllString_unfold (src repl : string) :
  regexp.ReplaceAllString isLetterOrDigit src repl =
  match regexp.find src with
  | None => src
  | Some (pre, m) =>
      pre +:+ regexp.expand isLetterOrDigit repl m
          +:+ regexp.ReplaceAllString isLetterOrDigit (regexp.after m) repl
  end.
Proof.
  unfold regexp.ReplaceAllString.
  change (regexp.replaceAll isLetterOrDigit (S (String.length src)) src repl)
    with (match regexp.find src with
          | None => src
          | Some (pre, m) =>
              pre +:+ regexp.expand isLetterOrDigit repl m
                  +:+ regexp.replaceAll isLetterOrDigit (String.length src)
                        (regexp.after m) repl
          end).
  destruct (regexp.find src) as [[pre m]|] eqn:Hf; [|done].
  apply find_after_shorter in Hf. f_equal. f_equal. apply replaceAll_fuel; lia.
Qed.

Lemma ReplaceAllString_no_match (src repl : string) :
  regexp.Match src = false -> regexp.ReplaceAllString isLetterOrDigit src repl = src.
Proof.
  unfold regexp.Match. rewrite ReplaceAllString_unfold.
  by destruct (regexp.find src) as [[pre m]|].
Qed.

Lemma find_whole (s pre : string) (m : regexp.Submatch) :
  regexp.find s = Some (pre, m) ->
  regexp.find (regexp.whole m) =
  Some ("", {| regexp.whole := regexp.whole m; regexp.group1 := regexp.group1 m;
               regexp.after := "" |}).
Proof.
  intros Hf. apply find_sound in Hf as [_ Hp].
  pose proof (matchHere_complete _ _ "" Hp) as H. rewrite append_nil_r in H.
  by apply find_here.
Qed.

End ExpandFacts.

End RegexpFacts.

Import StringsFacts.

Module StrconvFacts.














End StrconvFacts.

Module GabsFacts.

(** The loop of [Set] calls [rec] on proper prefixes of the path only, so
    two functions that agree there give the same loop. *)
Lemma setLoop_ext
    (rec1 rec2 : gabs.store -> gabs.value -> gabs.value -> list string
                 -> gabs.store * gabs.value * option error)
    (hierarchy : list string) (v : gabs.value) :
  (forall σ g w t, (t < length hierarchy)%nat ->
     rec1 σ g w (take t hierarchy) = rec2 σ g w (take t hierarchy)) ->
  forall (rest : list string) (target : nat) (σ : gabs.store) (g object : gabs.value),
    (target + length rest = length hierarchy)%nat ->
    gabs.setLoop rec1 hierarchy v target rest σ g object
    = gabs.setLoop rec2 hierarchy v target rest σ g object.
Proof.
  intros Hrec. induction rest as [|pathSeg rest IH]; intros target σ g object Hlen; [done|].
  assert (Hnext : (S target + length rest = length hierarchy)%nat) by (simpl in Hlen; lia).
  cbn [gabs.setLoop]. cbv zeta.
  destruct object as [| | | | |l|l]; try done.
  - destruct rest; [by apply IH|].
    destruct (_ !! pathSeg) as [[]|]; try by apply IH.
    all: destruct (gabs.newMap σ ∅); by apply IH.
  - destruct (bool_decide (pathSeg = "-")).
    + destruct (target <? 1)%nat; [done|].
      destruct (if match rest with [] => true | _ => false end
                then (σ, v) else gabs.newMap σ ∅) as [σ1 object].
      destruct (gabs.newSlice σ1 _) as [σ2 marray'].
      rewrite Hrec by (simpl in Hlen; lia).
      destruct (rec2 σ2 g marray' (take target hierarchy)) as [[σ3 g3] [e|]]; [done|].
      by apply IH.
    + destruct (strconv.Atoi pathSeg) as [index [e|]]; [done|].
      destruct (index <? 0); [done|]. destruct (_ <=? index); [done|].
      destruct rest; [by apply IH|].
      destruct (_ !! Z.to_nat index) as [[]|]; try done; by apply IH.
Qed.

(** [Set] does not depend on the fuel once it reaches the length of the
    path: the bound is never met. *)
Lemma Set'_fuel (n k : nat) (σ : gabs.store) (g v : gabs.value) (hierarchy : list string) :
  (length hierarchy <= n)%nat -> (length hierarchy <= k)%nat ->
  gabs.Set' n σ g v hierarchy = gabs.Set' k σ g v hierarchy.
Proof.
  revert k σ g v hierarchy. induction n as [|n IH]; intros k σ g v hierarchy Hn Hk.
  - destruct hierarchy; [by destruct k | simpl in Hn; lia].
  - destruct hierarchy as [|seg hierarchy]; [by destruct k|].
    destruct k as [|k]; [simpl in Hk; lia|].
    cbn [gabs.Set'].
    destruct (match g with gabs.Nil => _ | _ => _ end) as [σ1 g1].
    apply setLoop_ext; [|done].
    intros σ' g' w t Ht. apply IH; rewrite length_take; simpl in *; lia.
Qed.



End GabsFacts.

Module StoreFacts.

Lemma grows_refl (σ : gabs.store) : grows σ σ.
Proof. by intros v. Qed.

Lemma grows_trans (σ1 σ2 σ3 : gabs.store) : grows σ1 σ2 -> grows σ2 σ3 -> grows σ1 σ3.
Proof. intros H1 H2 v Hv. auto. Qed.

Lemma emptyStore_wf : wellFormed gabs.emptyStore.
Proof.
  split; simpl.
  - intros l [x H]. by rewrite lookup_empty in H.
  - intros l [x H]. by rewrite lookup_empty in H.
  - intros l m k v H. by rewrite lookup_empty in H.
  - intros l a v H. by rewrite lookup_empty in H.
Qed.

Lemma newMap_grows (σ : gabs.store) (m : gmap string gabs.value) :
  grows σ (gabs.newMap σ m).1.
Proof.
  intros [| | | | |l|l]; simpl; try done.
  intros H. rewrite lookup_insert_is_Some. destruct (decide (gabs.next σ = l)); auto.
Qed.

Lemma newSlice_grows (σ : gabs.store) (a : list gabs.value) :
  grows σ (gabs.newSlice σ a).1.
Proof.
  intros [| | | | |l|l]; simpl; try done.
  intros H. rewrite lookup_insert_is_Some. destruct (decide (gabs.next σ = l)); auto.
Qed.

Lemma storeMap_grows (σ : gabs.store) (l : nat) (m : gmap string gabs.value) :
  grows σ (gabs.storeMap σ l m).
Proof.
  intros [| | | | |l'|l']; simpl; try done.
  intros H. rewrite lookup_insert_is_Some. destruct (decide (l = l')); auto.
Qed.

Lemma storeSlice_grows (σ : gabs.store) (l : nat) (a : list gabs.value) :
  grows σ (gabs.storeSlice σ l a).
Proof.
  intros [| | | | |l'|l']; simpl; try done.
  intros H. rewrite lookup_insert_is_Some. destruct (decide (l = l')); auto.
Qed.

(** Putting a map of valid values into a cell, new or old, keeps the store
    well formed. *)
Lemma putMap_wf (σ : gabs.store) (l n : nat) (m : gmap string gabs.value) :
  wellFormed σ -> (l < n)%nat -> (gabs.next σ <= n)%nat ->
  (forall k v, m !! k = Some v -> valid σ v) ->
  wellFormed {| gabs.maps := <[l := m]> (gabs.maps σ); gabs.slices := gabs.slices σ;
                gabs.next := n |}.
Proof.
  intros [Hmb Hsb Hmv Hsv] Hl Hn Hm.
  assert (Hg : grows σ {| gabs.maps := <[l := m]> (gabs.maps σ);
                          gabs.slices := gabs.slices σ; gabs.next := n |}).
  { intros [| | | | |l'|l']; simpl; try done.
    intros H. rewrite lookup_insert_is_Some. destruct (decide (l = l')); auto. }
  split; simpl.
  - intros l' H. apply lookup_insert_is_Some in H as [<- | [_ H]]; [done|].
    apply Hmb in H. lia.
  - intros l' H. apply Hsb in H. lia.
  - intros l' m' k v H Hk. apply Hg.
    destruct (decide (l = l')) as [<-|Hne].
    + rewrite lookup_insert_eq in H. injection H as <-. eauto.
    + rewrite lookup_insert_ne in H by done. eauto.
  - intros l' a v H Hv. apply Hg. eauto.
Qed.

Lemma putSlice_wf (σ : gabs.store) (l n : nat) (a : list gabs.value) :
  wellFormed σ -> (l < n)%nat -> (gabs.next σ <= n)%nat ->
  (forall v, v ∈ a -> valid σ v) ->
  wellFormed {| gabs.maps := gabs.maps σ; gabs.slices := <[l := a]> (gabs.slices σ);
                gabs.next := n |}.
Proof.
  intros [Hmb Hsb Hmv Hsv] Hl Hn Ha.
  assert (Hg : grows σ {| gabs.maps := gabs.maps σ;
                          gabs.slices := <[l := a]> (gabs.slices σ); gabs.next := n |}).
  { intros [| | | | |l'|l']; simpl; try done.
    intros H. rewrite lookup_insert_is_Some. destruct (decide (l = l')); auto. }
  split; simpl.
  - intros l' H. apply Hmb in H. lia.
  - intros l' H. apply lookup_insert_is_Some in H as [<- | [_ H]]; [done|].
    apply Hsb in H. lia.
  - intros l' m' k v H Hk. apply Hg. eauto.
  - intros l' a' v H Hv. apply Hg.
    destruct (decide (l = l')) as [<-|Hne].
    + rewrite lookup_insert_eq in H. injection H as <-. eauto.
    + rewrite lookup_insert_ne in H by done. eauto.
Qed.

Lemma newMap_wf (σ : gabs.store) (m : gmap string gabs.value) :
  wellFormed σ -> (forall k v, m !! k = Some v -> valid σ v) ->
  wellFormed (gabs.newMap σ m).1 /\ valid (gabs.newMap σ m).1 (gabs.newMap σ m).2.
Proof.
  intros Hwf Hm. split; [apply putMap_wf; auto; lia|].
  simpl. rewrite lookup_insert_eq. eauto.
Qed.

Lemma newSlice_wf (σ : gabs.store) (a : list gabs.value) :
  wellFormed σ -> (forall v, v ∈ a -> valid σ v) ->
  wellFormed (gabs.newSlice σ a).1 /\ valid (gabs.newSlice σ a).1 (gabs.newSlice σ a).2.
Proof.
  intros Hwf Ha. split; [apply putSlice_wf; auto; lia|].
  simpl. rewrite lookup_insert_eq. eauto.
Qed.

Lemma storeMap_wf (σ : gabs.store) (l : nat) (m : gmap string gabs.value) :
  wellFormed σ -> valid σ (gabs.MapRef l) ->
  (forall k v, m !! k = Some v -> valid σ v) ->
  wellFormed (gabs.storeMap σ l m).
Proof.
  intros Hwf Hl Hm. apply putMap_wf; auto. by apply (maps_below _ Hwf).
Qed.

Lemma storeSlice_wf (σ : gabs.store) (l : nat) (a : list gabs.value) :
  wellFormed σ -> valid σ (gabs.SliceRef l) ->
  (forall v, v ∈ a -> valid σ v) ->
  wellFormed (gabs.storeSlice σ l a).
Proof.
  intros Hwf Hl Ha. apply putSlice_wf; auto. by apply (slices_below _ Hwf).
Qed.

(** Reading a valid reference yields valid values. *)
Lemma map_entry_valid (σ : gabs.store) (l : nat) (k : string) (v : gabs.value) :
  wellFormed σ -> (gabs.maps σ !!! l) !! k = Some v -> valid σ v.
Proof.
  intros Hwf H. rewrite lookup_total_alt in H.
  destruct (gabs.maps σ !! l) as [m|] eqn:Hm; simpl in H; [|by rewrite lookup_empty in H].
  eapply maps_valid; eauto.
Qed.

Lemma slice_elem_valid (σ : gabs.store) (l : nat) (v : gabs.value) :
  wellFormed σ -> v ∈ (gabs.slices σ !!! l : list gabs.value) -> valid σ v.
Proof.
  intros Hwf H. rewrite lookup_total_alt in H.
  destruct (gabs.slices σ !! l) as [a|] eqn:Ha; simpl in H; [|by apply elem_of_nil in H].
  eapply slices_valid; eauto.
Qed.

Lemma keeps_refl (σ : gabs.store) (v : gabs.value) :
  wellFormed σ -> valid σ v -> keeps σ σ v.
Proof. intros. split; [done|]. split; [apply grows_refl | done]. Qed.

Lemma keeps_trans (σ1 σ2 σ3 : gabs.store) (w : gabs.value) :
  grows σ1 σ2 -> keeps σ2 σ3 w -> keeps σ1 σ3 w.
Proof.
  intros H1 (Hwf & H2 & Hw). split; [done|]. split; [|done].
  eapply grows_trans; eauto.
Qed.

Lemma newMap_empty_keeps (σ : gabs.store) :
  wellFormed σ -> keeps σ (gabs.newMap σ ∅).1 (gabs.newMap σ ∅).2.
Proof.
  intros Hwf.
  destruct (newMap_wf σ ∅ Hwf) as [H1 H2].
  { intros k v H. by rewrite lookup_empty in H. }
  split; [done|]. split; [apply newMap_grows | done].
Qed.

(** The loop of [Set] keeps the store well formed when the call it makes
    for a grown slice does. *)
Lemma setLoop_keeps
    (rec : gabs.store -> gabs.value -> gabs.value -> list string
           -> gabs.store * gabs.value * option error)
    (hierarchy : list string) (v : gabs.value) :
  (forall σ g w h, wellFormed σ -> valid σ g -> valid σ w ->
     keeps σ (rec σ g w h).1.1 (rec σ g w h).1.2) ->
  forall (rest : list string) (target : nat) (σ : gabs.store) (g object : gabs.value),
    wellFormed σ -> valid σ g -> valid σ v -> valid σ object ->
    keeps σ (gabs.setLoop rec hierarchy v target rest σ g object).1.1
            (gabs.setLoop rec hierarchy v target rest σ g object).1.2.
Proof.
  intros Hrec. induction rest as [|pathSeg rest IH]; intros target σ g object Hwf Hg Hv Ho.
  { by apply keeps_refl. }
  cbn [gabs.setLoop]. cbv zeta.
  destruct object as [| | | | |l|l]; try by apply keeps_refl.
  - (* a map *)
    assert (Hput : forall w, valid σ w ->
              wellFormed (gabs.storeMap σ l (<[pathSeg := w]> (gabs.maps σ !!! l)))).
    { intros w Hw. apply storeMap_wf; [done..|].
      intros k x Hk. destruct (decide (pathSeg = k)) as [<-|Hne].
      - rewrite lookup_insert_eq in Hk. by injection Hk as <-.
      - rewrite lookup_insert_ne in Hk by done. by eapply map_entry_valid. }
    destruct rest as [|seg rest].
    + eapply keeps_trans; [apply storeMap_grows|].
      apply IH; [by apply Hput | by apply storeMap_grows..].
    + assert (Hfresh : keeps σ
        (gabs.setLoop rec hierarchy v (S target) (seg :: rest)
           (gabs.storeMap (gabs.newMap σ ∅).1 l
              (<[pathSeg := (gabs.newMap σ ∅).2]> (gabs.maps σ !!! l))) g
           (gabs.newMap σ ∅).2).1.1
        (gabs.setLoop rec hierarchy v (S target) (seg :: rest)
           (gabs.storeMap (gabs.newMap σ ∅).1 l
              (<[pathSeg := (gabs.newMap σ ∅).2]> (gabs.maps σ !!! l))) g
           (gabs.newMap σ ∅).2).1.2).
      { destruct (newMap_empty_keeps σ Hwf) as (Hwf1 & Hg1 & Hv1).
        eapply keeps_trans; [exact Hg1|].
        eapply keeps_trans; [apply storeMap_grows|].
        apply IH.
        - apply storeMap_wf; [done | by apply Hg1 |].
          intros k x Hk. destruct (decide (pathSeg = k)) as [<-|Hne].
          + rewrite lookup_insert_eq in Hk. by injection Hk as <-.
          + rewrite lookup_insert_ne in Hk by done. apply Hg1. by eapply map_entry_valid.
        - by apply storeMap_grows, Hg1.
        - by apply storeMap_grows, Hg1.
        - by apply storeMap_grows. }
      destruct ((gabs.maps σ !!! l) !! pathSeg) as [o|] eqn:Hlook; [|exact Hfresh].
      assert (Hval : valid σ o) by by eapply map_entry_valid.
      destruct o; try exact Hfresh; by apply IH.
  - (* a slice *)
    destruct (bool_decide (pathSeg = "-")).
    + destruct (target <? 1)%nat; [by apply keeps_refl|].
      assert (Hobj : exists σ1 object,
                (if match rest with [] => true | _ => false end
                 then (σ, v) else gabs.newMap σ ∅) = (σ1, object)
                /\ keeps σ σ1 object).
      { destruct rest.
        - exists σ, v. split; [done|]. by apply keeps_refl.
        - eexists _, _. split; [reflexivity|]. by apply newMap_empty_keeps. }
      destruct Hobj as (σ1 & object & -> & Hwf1 & Hg1 & Ho1).
      destruct (newSlice_wf σ1 (gabs.slices σ !!! l ++ [object]) Hwf1) as [Hwf2 Hv2].
      { intros x Hx. apply elem_of_app in Hx as [Hx|Hx].
        - apply Hg1. by eapply slice_elem_valid.
        - apply list_elem_of_singleton in Hx as ->. done. }
      pose proof (newSlice_grows σ1 (gabs.slices σ !!! l ++ [object])) as Hg2.
      destruct (gabs.newSlice σ1 _) as [σ2 marray'] eqn:Hnew. simpl in Hwf2, Hv2, Hg2.
      specialize (Hrec σ2 g marray' (take target hierarchy) Hwf2
                    (Hg2 _ (Hg1 _ Hg)) Hv2).
      destruct (rec σ2 g marray' (take target hierarchy)) as [[σ3 g3] err].
      simpl in Hrec. destruct Hrec as (Hwf3 & Hg3 & Hv3).
      assert (Hg13 : grows σ σ3).
      { eapply grows_trans; [exact Hg1|]. eapply grows_trans; [exact Hg2|exact Hg3]. }
      destruct err as [e|].
      * simpl. split; [done|]. split; done.
      * eapply keeps_trans; [exact Hg13|].
        apply IH; [done | done | by apply Hg13 | by apply Hg3, Hg2].
    + destruct (strconv.Atoi pathSeg) as [index [e|]]; [by apply keeps_refl|].
      destruct (index <? 0); [by apply keeps_refl|].
      destruct (_ <=? index); [by apply keeps_refl|].
      destruct rest as [|seg rest].
      * eapply keeps_trans; [apply storeSlice_grows|].
        apply IH; [| by apply storeSlice_grows..].
        apply storeSlice_wf; [done..|].
        intros x Hx. apply list_elem_of_lookup in Hx as [i Hi].
        destruct (decide (i = Z.to_nat index)) as [->|Hne].
        -- apply list_lookup_insert_Some in Hi as [(_ & <- & _)|[? _]]; done.
        -- rewrite list_lookup_insert_ne in Hi by done.
           eapply slice_elem_valid; [done|]. by eapply list_elem_of_lookup_2.
      * destruct ((gabs.slices σ !!! l : list gabs.value) !! Z.to_nat index) as [o|] eqn:Hlook;
          [|by apply keeps_refl].
        assert (Hval : valid σ o).
        { eapply slice_elem_valid; [done|]. by eapply list_elem_of_lookup_2. }
        destruct o; try (by apply keeps_refl); by apply IH.
Qed.

Lemma Set'_keeps (fuel : nat) (σ : gabs.store) (g v : gabs.value) (hierarchy : list string) :
  wellFormed σ -> valid σ g -> valid σ v ->
  keeps σ (gabs.Set' fuel σ g v hierarchy).1.1 (gabs.Set' fuel σ g v hierarchy).1.2.
Proof.
  revert σ g v hierarchy. induction fuel as [|fuel IH]; intros σ g v hierarchy Hwf Hg Hv.
  - destruct hierarchy; by apply keeps_refl.
  - destruct hierarchy as [|seg hierarchy]; [by apply keeps_refl|].
    cbn [gabs.Set'].
    assert (Hroot : exists σ1 g1,
              match g with gabs.Nil => gabs.newMap σ ∅ | _ => (σ, g) end = (σ1, g1)
              /\ keeps σ σ1 g1).
    { destruct g; try (eexists _, _; split; [reflexivity|]; by apply keeps_refl).
      eexists _, _. split; [reflexivity|]. by apply newMap_empty_keeps. }
    destruct Hroot as (σ1 & g1 & -> & Hwf1 & Hg1 & Hv1).
    eapply keeps_trans; [exact Hg1|].
    apply setLoop_keeps; auto.
Qed.

Lemma SetP_keeps (σ : gabs.store) (g v : gabs.value) (path : string) :
  wellFormed σ -> valid σ g -> valid σ v ->
  keeps σ (gabs.SetP σ g v path).1.1 (gabs.SetP σ g v path).1.2.
Proof. apply Set'_keeps. Qed.

(** Induction on a decoded document, with the hypothesis for every element
    of an array and every field of an object. *)
Lemma json_induction (P : gabs.json -> Prop) :
  P gabs.JNull ->
  (forall b, P (gabs.JBool b)) ->
  (forall lit, P (gabs.JNumber lit)) ->
  (forall s, P (gabs.JString s)) ->
  (forall elems, Forall P elems -> P (gabs.JArray elems)) ->
  (forall fields, Forall (fun kv => P kv.2) fields -> P (gabs.JObject fields)) ->
  forall j, P j.
Proof.
  intros Hnull Hbool Hnum Hstr Harr Hobj.
  fix IH 1. intros [|b|lit|s|elems|fields].
  - exact Hnull.
  - apply Hbool.
  - apply Hnum.
  - apply Hstr.
  - apply Harr. induction elems as [|x elems IHl]; constructor; [apply IH | exact IHl].
  - apply Hobj. induction fields as [|[k x] fields IHl]; constructor; [apply IH | exact IHl].
Qed.

(** Decoding a document builds valid cells only. *)
Lemma load_keeps (j : gabs.json) :
  forall σ, wellFormed σ -> keeps σ (gabs.load j σ).1 (gabs.load j σ).2.
Proof.
  induction j as [|b|lit|s|elems IH|fields IH] using json_induction; intros σ Hwf;
    try by apply keeps_refl.
  - cbn [gabs.load].
    match goal with |- context [?F elems σ] => pose (each := F); change (F elems σ) with (each elems σ) end.
    assert (Heach : forall σ, wellFormed σ ->
              wellFormed (each elems σ).1 /\ grows σ (each elems σ).1
              /\ forall x, x ∈ (each elems σ).2 -> valid (each elems σ).1 x).
    { clear σ Hwf. induction IH as [|x elems Hx _ IHl]; intros σ Hwf.
      - simpl. split; [done|]. split; [apply grows_refl|]. intros x Hx. by apply elem_of_nil in Hx.
      - unfold each. simpl. fold each.
        destruct (Hx σ Hwf) as (Hwf1 & Hg1 & Hv1).
        destruct (gabs.load x σ) as [σ1 v1]. simpl in Hwf1, Hg1, Hv1.
        destruct (IHl σ1 Hwf1) as (Hwf2 & Hg2 & Hv2).
        destruct (each elems σ1) as [σ2 vs]. simpl in *.
        split; [done|]. split; [by eapply grows_trans|].
        intros y Hy. apply elem_of_cons in Hy as [->|Hy]; auto. }
    destruct (Heach σ Hwf) as (Hwf1 & Hg1 & Hv1).
    destruct (each elems σ) as [σ1 vs]. simpl in Hwf1, Hg1, Hv1.
    destruct (newSlice_wf σ1 vs Hwf1 Hv1) as [Hwf2 Hv2].
    split; [done|]. split; [|done].
    eapply grows_trans; [exact Hg1 | apply newSlice_grows].
  - cbn [gabs.load].
    match goal with |- context [?F fields σ ∅] => pose (each := F); change (F fields σ ∅) with (each fields σ ∅) end.
    assert (Heach : forall σ m, wellFormed σ ->
              (forall k v, m !! k = Some v -> valid σ v) ->
              wellFormed (each fields σ m).1 /\ grows σ (each fields σ m).1
              /\ forall k v, (each fields σ m).2 !! k = Some v -> valid (each fields σ m).1 v).
    { clear σ Hwf. induction IH as [|[k x] fields Hx _ IHl]; intros σ m Hwf Hm.
      - simpl. split; [done|]. split; [apply grows_refl | done].
      - unfold each. simpl. fold each. simpl in Hx.
        destruct (Hx σ Hwf) as (Hwf1 & Hg1 & Hv1).
        destruct (gabs.load x σ) as [σ1 v1]. simpl in Hwf1, Hg1, Hv1.
        destruct (IHl σ1 (<[k := v1]> m) Hwf1) as (Hwf2 & Hg2 & Hv2).
        { intros k' v' Hk. destruct (decide (k = k')) as [<-|Hne].
          - rewrite lookup_insert_eq in Hk. by injection Hk as <-.
          - rewrite lookup_insert_ne in Hk by done. eauto. }
        split; [done|]. split; [by eapply grows_trans | done]. }
    destruct (Heach σ ∅ Hwf) as (Hwf1 & Hg1 & Hv1).
    { intros k v H. by rewrite lookup_empty in H. }
    destruct (each fields σ ∅) as [σ1 m]. simpl in Hwf1, Hg1, Hv1.
    destruct (newMap_wf σ1 m Hwf1 Hv1) as [Hwf2 Hv2].
    split; [done|]. split; [|done].
    eapply grows_trans; [exact Hg1 | apply newMap_grows].
Qed.

(** [Search] keeps the store well formed; what it finds is valid. *)
Lemma Search_keeps (hierarchy : list string) :
  forall (σ : gabs.store) (object : gabs.value),
    wellFormed σ -> valid σ object ->
    keeps σ (gabs.Search σ object hierarchy).1
            (default gabs.Nil (gabs.Search σ object hierarchy).2).
Proof.
  induction hierarchy as [|pathSeg rest IH]; intros σ object Hwf Ho.
  { by apply keeps_refl. }
  cbn [gabs.Search].
  destruct object as [| | | | |l|l]; try by apply keeps_refl.
  - destruct ((gabs.maps σ !!! l) !! pathSeg) as [o|] eqn:Hlook; [|by apply keeps_refl].
    apply IH; [done|]. by eapply map_entry_valid.
  - cbv zeta.
    assert (Helems : forall x, x ∈ (gabs.slices σ !!! l : list gabs.value) -> valid σ x).
    { intros x Hx. by eapply slice_elem_valid. }
    destruct (bool_decide (pathSeg = "*")).
    + match goal with |- context [?F (gabs.slices σ !!! l) σ []] =>
        pose (each := F);
        change (F (gabs.slices σ !!! l) σ []) with (each (gabs.slices σ !!! l) σ [])
      end.
      assert (Heach : forall vals σ tmp, wellFormed σ ->
                (forall x, x ∈ vals -> valid σ x) -> (forall x, x ∈ tmp -> valid σ x) ->
                wellFormed (each vals σ tmp).1 /\ grows σ (each vals σ tmp).1
                /\ forall x, x ∈ (each vals σ tmp).2 -> valid (each vals σ tmp).1 x).
      { clear σ Hwf Ho Helems. induction vals as [|val vals IHl]; intros σ tmp Hwf Hvals Htmp.
        - simpl. split; [done|]. split; [apply grows_refl | done].
        - assert (Hval : valid σ val) by (apply Hvals; left).
          assert (Hvals' : forall x, x ∈ vals -> valid σ x) by (intros x Hx; apply Hvals; by right).
          unfold each. simpl. fold each.
          destruct rest as [|seg rest].
          + apply IHl; [done..|].
            intros x Hx. apply elem_of_app in Hx as [Hx|Hx]; [auto|].
            by apply list_elem_of_singleton in Hx as ->.
          + destruct (IH σ val Hwf Hval) as (Hwf1 & Hg1 & Hv1).
            destruct (gabs.Search σ val (seg :: rest)) as [σ1 [d|]]; simpl in Hwf1, Hg1, Hv1.
            * destruct (IHl σ1 (tmp ++ [d]) Hwf1) as (Hwf2 & Hg2 & Hv2); [by auto| |].
              { intros x Hx. apply elem_of_app in Hx as [Hx|Hx]; [auto|].
                by apply list_elem_of_singleton in Hx as ->. }
              split; [done|]. split; [by eapply grows_trans | done].
            * destruct (IHl σ1 tmp Hwf1) as (Hwf2 & Hg2 & Hv2); [by auto..|].
              split; [done|]. split; [by eapply grows_trans | done]. }
      destruct (Heach (gabs.slices σ !!! l) σ [] Hwf Helems) as (Hwf1 & Hg1 & Hv1).
      { intros x Hx. by apply elem_of_nil in Hx. }
      destruct (each (gabs.slices σ !!! l) σ []) as [σ1 tmpArray]. simpl in Hwf1, Hg1, Hv1.
      destruct tmpArray as [|d tmpArray]; [by split|].
      destruct (newSlice_wf σ1 (d :: tmpArray) Hwf1 Hv1) as [Hwf2 Hv2].
      split; [done|]. split; [|done].
      eapply grows_trans; [exact Hg1 | apply newSlice_grows].
    + destruct (strconv.Atoi pathSeg) as [index [e|]]; [by apply keeps_refl|].
      destruct (index <? 0); [by apply keeps_refl|].
      destruct ((gabs.slices σ !!! l : list gabs.value) !! Z.to_nat index) as [o|] eqn:Hlook;
        [|by apply keeps_refl].
      apply IH; [done|]. apply Helems. by eapply list_elem_of_lookup_2.
Qed.

Lemma Children_valid (σ : gabs.store) (g : option gabs.value) :
  wellFormed σ -> valid σ (default gabs.Nil g) ->
  forall x, x ∈ gabs.Children σ g -> valid σ x.
Proof.
  intros Hwf Hg x Hx. destruct g as [[| | | | |l|l]|]; simpl in Hx;
    try by apply elem_of_nil in Hx.
  - apply list_elem_of_fmap in Hx as ([k y] & -> & Hy).
    apply elem_of_map_to_list in Hy. by eapply map_entry_valid.
  - by eapply slice_elem_valid.
Qed.

End StoreFacts.

Section StoreInvariant.

Import StoreFacts.

Variable isLetterOrDigit : Z -> bool.
Variable ToCamel : string -> string.
Variable Get : string -> list string -> string * jsonparser.ValueType * Z * option error.
Variable Unmarshal : string -> gabs.json + error.

Lemma getKeyValue_valid (σ : gabs.store) (value : string) (vt : jsonparser.ValueType) :
  valid σ (getKeyValue value vt).
Proof. by destruct vt. Qed.

Lemma setPathway_keeps (σ : gabs.store) (c : gabs.value) (path value : string)
    (vt : jsonparser.ValueType) :
  wellFormed σ -> valid σ c ->
  keeps σ (setPathway σ c path value vt).1.1 (setPathway σ c path value vt).1.2.
Proof. intros Hwf Hc. apply SetP_keeps; [done..|apply getKeyValue_valid]. Qed.

Lemma eachChild_keeps (children : list gabs.value) (path value : string)
    (vt : jsonparser.ValueType) :
  forall σ, wellFormed σ -> (forall x, x ∈ children -> valid σ x) ->
    wellFormed (eachChild σ children path value vt).1.2
    /\ grows σ (eachChild σ children path value vt).1.2.
Proof.
  induction children as [|child children IH]; intros σ Hwf Hch.
  { split; [done | apply grows_refl]. }
  cbn [eachChild].
  destruct (setPathway_keeps σ child path value vt Hwf) as (Hwf1 & Hg1 & _).
  { apply Hch. left. }
  destruct (setPathway σ child path value vt) as [[σ1 c1] [e|]]; simpl in Hwf1, Hg1; [done|].
  destruct (IH σ1 Hwf1) as [Hwf2 Hg2].
  { intros x Hx. apply Hg1, Hch. by right. }
  destruct (eachChild σ1 children path value vt) as [[tr σ2] err]. simpl in *.
  split; [done | by eapply grows_trans].
Qed.

Lemma eachRule_keeps (f : ConfigurationFile) (rules : list ConfigurationFileReplacement) :
  forall σ parsed, wellFormed σ -> valid σ parsed ->
    keeps σ (eachRule isLetterOrDigit ToCamel Get f rules σ parsed).1.1.2
            (eachRule isLetterOrDigit ToCamel Get f rules σ parsed).1.2.
Proof.
  induction rules as [|v rules IH]; intros σ parsed Hwf Hp.
  { by apply keeps_refl. }
  cbn [eachRule].
  destruct (LookupConfigurationValue _ _ _ f v) as [[value dt] [e|]]; [by apply keeps_refl|].
  destruct (strings.Contains (Match v) ".*").
  - destruct (_ !! 0%nat) as [part0|]; [|by apply keeps_refl].
    destruct (_ !! 1%nat) as [part1|]; [|by apply keeps_refl].
    unfold gabs.Path.
    destruct (Search_keeps (gabs.DotPathToSlice (strings.Trim part0 ".")) σ parsed Hwf Hp)
      as (Hwf1 & Hg1 & Hv1).
    destruct (gabs.Search σ parsed _) as [σ1 node]. simpl in Hwf1, Hg1, Hv1.
    destruct (eachChild_keeps (gabs.Children σ1 node) (strings.Trim part1 ".") value dt
                σ1 Hwf1) as [Hwf2 Hg2].
    { by apply Children_valid. }
    destruct (eachChild σ1 _ _ value dt) as [[tr σ2] err]. simpl in Hwf2, Hg2.
    assert (Hg12 : grows σ σ2) by by eapply grows_trans.
    destruct err as [e|].
    + split; [done|]. split; [done|]. by apply Hg12.
    + specialize (IH σ2 parsed Hwf2 (Hg12 _ Hp)).
      destruct (eachRule _ _ _ f rules σ2 parsed) as [[[tr' σ3] p3] err'].
      by eapply keeps_trans.
  - destruct (setPathway_keeps σ parsed (Match v) value dt Hwf Hp) as (Hwf1 & Hg1 & Hv1).
    destruct (setPathway σ parsed (Match v) value dt) as [[σ1 p1] [e|]];
      simpl in Hwf1, Hg1, Hv1; [by split|].
    specialize (IH σ1 p1 Hwf1 Hv1).
    destruct (eachRule _ _ _ f rules σ1 p1) as [[[tr' σ3] p3] err'].
    by eapply keeps_trans.
Qed.

(** The container the pass returns lives in a well-formed store: every
    reference in it names a map or an array that exists. *)
Lemma IterateOverJson_well_formed (f : ConfigurationFile) (data : string)
    (σ : gabs.store) (parsed : gabs.value) :
  (IterateOverJson isLetterOrDigit ToCamel Get Unmarshal f data).1.2 = Some (σ, parsed) ->
  wellFormed σ /\ valid σ parsed.
Proof.
  unfold IterateOverJson, ParseJSON. intros H.
  destruct (Unmarshal data) as [j|e]; [|done].
  destruct (load_keeps j gabs.emptyStore emptyStore_wf) as (Hwf0 & _ & Hv0).
  destruct (gabs.load j gabs.emptyStore) as [σ0 p0]. simpl in Hwf0, Hv0.
  destruct (eachRule_keeps f (Replace f) σ0 p0 Hwf0 Hv0) as (Hwf1 & _ & Hv1).
  destruct (eachRule _ _ _ f (Replace f) σ0 p0) as [[[tr σ1] p1] [e|]]; [done|].
  simpl in *. by injection H as <- <-.
Qed.

End StoreInvariant.

(** * The model on small inputs *)

Module Examples.

Example Atoi_port : strconv.Atoi "25565" = (25565, None).
Proof. reflexivity. Qed.

Example Atoi_negative : strconv.Atoi "-12" = (-12, None).
Proof. reflexivity. Qed.

Example Atoi_placeholder :
  strconv.Atoi "{{ config.docker.port }}" = (0, Some strconv.ErrSyntax).
Proof. reflexivity. Qed.

Example Atoi_max : strconv.Atoi "9223372036854775807" = (9223372036854775807, None).
Proof. by vm_compute. Qed.

Example Atoi_beyond_min :
  strconv.Atoi "-9223372036854775809" = (-9223372036854775808, Some strconv.ErrRange).
Proof. by vm_compute. Qed.

Example ParseBool_spellings :
  map strconv.ParseBool ["True"; "0"; "yes"]
  = [(true, None); (false, None); (false, Some strconv.ErrBoolSyntax)].
Proof. reflexivity. Qed.

Example Split_dots : strings.Split "a.b..c" "." = ["a"; "b"; ""; "c"].
Proof. reflexivity. Qed.

Example Split_empty : strings.Split "" "." = [""].
Proof. reflexivity. Qed.

Example SplitN_first_marker : strings.SplitN "a.*.b.*.c" ".*" 2 = ["a"; ".b.*.c"].
Proof. reflexivity. Qed.

Example Trim_dots : strings.Trim "..a.b.." "." = "a.b".
Proof. reflexivity. Qed.

Example DotPathToSlice_escapes : gabs.DotPathToSlice "a~1b.c~0d." = ["a.b"; "c~d"; ""].
Proof. reflexivity. Qed.

Example FindString_leftmost :
  regexp.FindString "a {{ config.docker.port }} b {{config.x}}" = "{{ config.docker.port }}".
Proof. reflexivity. Qed.

Example Match_newline_counts_as_space :
  regexp.Match (String "{" (String "{" (String "010" "config.x}}"))) = true.
Proof. reflexivity. Qed.

Example Match_empty_path : regexp.Match "{{config.}}" = false.
Proof. reflexivity. Qed.

Example ReplaceAll_groups (isLetterOrDigit : Z -> bool) :
  regexp.ReplaceAllString isLetterOrDigit "a {{ config.docker.port }} b {{config.x}}"
    "${1}|$1|$0|$2|$1x|$$"
  = "a docker.port|docker.port|{{ config.docker.port }}|||$ b x|x|{{config.x}}|||$".
Proof. by vm_compute. Qed.

Example ReplaceAll_lone_dollar (isLetterOrDigit : Z -> bool) :
  regexp.ReplaceAllString isLetterOrDigit "{{config.x}}" "5$ and ${x" = "5$ and ${x".
Proof. by vm_compute. Qed.

Example ToCamel_segments :
  map strcase.ToCamel ["docker"; "network_interface"; "allowed-mounts"]
  = ["Docker"; "NetworkInterface"; "AllowedMounts"].
Proof. reflexivity. Qed.

Example SetP_overwrites :
  setOn serverDoc (gabs.Int 7) "server.port"
  = (gabs.TMap {[ "server" := gabs.TMap {[ "port" := gabs.TInt 7 ]} ]}, None).
Proof. by vm_compute. Qed.

Example SetP_creates_objects :
  setOn serverDoc (gabs.Int 7) "a.b"
  = (gabs.TMap {[ "server" := gabs.TMap {[ "port" := gabs.TFloat64 "25565" ]};
                  "a" := gabs.TMap {[ "b" := gabs.TInt 7 ]} ]}, None).
Proof. by vm_compute. Qed.

Example SetP_through_scalar :
  (setOn serverDoc (gabs.Int 7) "server.port.x").2 = Some ErrPathCollision.
Proof. by vm_compute. Qed.

Example SetP_on_null_document :
  setOn gabs.JNull (gabs.Bool true) "a"
  = (gabs.TMap {[ "a" := gabs.TBool true ]}, None).
Proof. by vm_compute. Qed.

Example SetP_index :
  setOn arraysDoc (gabs.Int 7) "a.0.0"
  = (gabs.TMap {[ "a" := gabs.TSlice [gabs.TSlice [gabs.TInt 7]] ]}, None).
Proof. by vm_compute. Qed.

Example SetP_append :
  setOn arraysDoc (gabs.Int 7) "a.0.-"
  = (gabs.TMap {[ "a" := gabs.TSlice [gabs.TSlice [gabs.TFloat64 "1"; gabs.TInt 7]] ]}, None).
Proof. by vm_compute. Qed.

Example SetP_append_object :
  setOn arraysDoc (gabs.Int 7) "a.-.x.y"
  = (gabs.TMap
       {[ "a" := gabs.TSlice
                   [gabs.TSlice [gabs.TFloat64 "1"];
                    gabs.TMap {[ "x" := gabs.TMap {[ "y" := gabs.TInt 7 ]} ]}] ]}, None).
Proof. by vm_compute. Qed.

Example SetP_index_out_of_bounds :
  (setOn arraysDoc (gabs.Int 7) "a.3").2 = Some ErrIndexOutOfBounds.
Proof. by vm_compute. Qed.

(** A write through the container of a null child makes a map that this
    container alone holds, and the document does not change. *)
Example null_child_is_left_alone :
  document (IterateOverJson noLetters strcase.ToCamel (hostGet []) (fun _ => inl nullWorldDoc)
              {| Replace := [bindRule]; configuration := "" |} "")
  = Some (gabs.TMap
            {[ "worlds" :=
                 gabs.TMap {[ "lobby" := gabs.TNil;
                              "world1" := gabs.TMap {[ "bind" := gabs.TStr "127.0.0.1" ]} ]} ]}).
Proof. by vm_compute. Qed.

End Examples.

Section ResolverFacts.

Import StringsFacts RegexpFacts.

Variable isLetterOrDigit : Z -> bool.
Variable ToCamel : string -> string.
Variable Get : string -> list string -> string * jsonparser.ValueType * Z * option error.

Local Abbreviation Lookup := (LookupConfigurationValue isLetterOrDigit ToCamel Get).

(** [huntPath] is the path captured by the leftmost placeholder. *)
Lemma huntPath_group1 (v pre : string) (m : regexp.Submatch) :
  regexp.find v = Some (pre, m) -> huntPath isLetterOrDigit v = regexp.group1 m.
Proof.
  intros Hf. unfold huntPath, regexp.FindString. rewrite Hf.
  rewrite ReplaceAllString_unfold, (find_whole _ _ _ Hf). cbn [regexp.after].
  rewrite expand_group1. cbn [regexp.group1].
  rewrite ReplaceAllString_no_match by done. apply append_nil_r.
Qed.

Lemma lookupPath_group1 (v pre : string) (m : regexp.Submatch) :
  regexp.find v = Some (pre, m) ->
  lookupPath isLetterOrDigit ToCamel v = map ToCamel (strings.Split (regexp.group1 m) ".").
Proof. intros Hf. unfold lookupPath. by rewrite (huntPath_group1 _ _ _ Hf). Qed.

Lemma Match_find (v pre : string) (m : regexp.Submatch) :
  regexp.find v = Some (pre, m) -> regexp.Match v = true.
Proof. unfold regexp.Match. by intros ->. Qed.

(** C3: a placeholder whose converted path the host configuration reports
    as missing leaves the value as it is: the result is the literal [Value]
    with the declared [ValueType] and no error. *)
Theorem C3_missing_key_keeps_literal (f : ConfigurationFile)
    (cfr : ConfigurationFileReplacement) (pre : string) (m : regexp.Submatch)
    (bytes : string) (dt : jsonparser.ValueType) (off : Z) :
  regexp.find (Value cfr) = Some (pre, m) ->
  Get (configuration f) (map ToCamel (strings.Split (regexp.group1 m) "."))
    = (bytes, dt, off, Some KeyPathNotFoundError) ->
  Lookup f cfr = (Value cfr, ValueType cfr, None).
Proof.
  intros Hf HG. unfold LookupConfigurationValue.
  by rewrite (Match_find _ _ _ Hf), (lookupPath_group1 _ _ _ Hf), HG.
Qed.

(** C1 (amended): when the path of the leftmost placeholder is found and the
    host value holds no [$], the result is the [Value] with that placeholder
    replaced in place by the host value and every later placeholder replaced
    by the same value, the text around them kept; the type is the declared
    one whatever the type of the host value, and there is no error. *)
Theorem C1_found_value_replaces_in_place (f : ConfigurationFile)
    (cfr : ConfigurationFileReplacement) (pre : string) (m : regexp.Submatch)
    (bytes : string) (dt : jsonparser.ValueType) (off : Z) :
  regexp.find (Value cfr) = Some (pre, m) ->
  Get (configuration f) (map ToCamel (strings.Split (regexp.group1 m) "."))
    = (bytes, dt, off, None) ->
  strings.Contains bytes "$" = false ->
  Value cfr = pre +:+ regexp.whole m +:+ regexp.after m /\
  placeholder (Some 1%nat) (regexp.whole m) (regexp.group1 m) /\
  Lookup f cfr =
    (pre +:+ bytes +:+ regexp.ReplaceAllString isLetterOrDigit (regexp.after m) bytes,
     ValueType cfr, None) /\
  (regexp.Match (regexp.after m) = false ->
   Lookup f cfr = (pre +:+ bytes +:+ regexp.after m, ValueType cfr, None)).
Proof.
  intros Hf HG Hd. destruct (find_sound _ _ _ Hf) as [Hv Hp].
  assert (HL : Lookup f cfr =
    (pre +:+ bytes +:+ regexp.ReplaceAllString isLetterOrDigit (regexp.after m) bytes,
     ValueType cfr, None)).
  { unfold LookupConfigurationValue.
    rewrite (Match_find _ _ _ Hf), (lookupPath_group1 _ _ _ Hf), HG. simpl.
    by rewrite ReplaceAllString_unfold, Hf, expand_plain. }
  repeat split; try done.
  intros Hn. by rewrite HL, ReplaceAllString_no_match.
Qed.

(** C4 (amended): a value is treated as holding a placeholder exactly when it
    contains a token with at most one byte of whitespace on each side of
    [config.<path>].  Without such a token the value is returned unchanged
    with the declared type; with one, the path of the leftmost token is
    converted and looked up, and the outcome of the lookup decides the
    result. *)
Theorem C4_placeholder_detection (f : ConfigurationFile)
    (cfr : ConfigurationFileReplacement) :
  (regexp.Match (Value cfr) = true <-> containsToken regexToken (Value cfr)) /\
  (forall t, regexToken t -> wireToken t) /\
  (~ containsToken regexToken (Value cfr) ->
   Lookup f cfr = (Value cfr, ValueType cfr, None)) /\
  (containsToken regexToken (Value cfr) ->
   exists pre m,
     regexp.find (Value cfr) = Some (pre, m) /\
     Lookup f cfr =
       let '(bytes, dt, _, err) :=
         Get (configuration f) (map ToCamel (strings.Split (regexp.group1 m) ".")) in
       match err with
       | Some e =>
           if bool_decide (e = KeyPathNotFoundError)
           then (Value cfr, ValueType cfr, None)
           else (bytes, dt, Some (WithStack e))
       | None =>
           (regexp.ReplaceAllString isLetterOrDigit (Value cfr) bytes, ValueType cfr, None)
       end).
Proof.
  split; [apply Match_iff|]. split.
  { intros t (p & w1 & w2 & E & H1 & H2 & H3 & H4 & _). exists p, w1, w2. done. }
  split.
  - intros Hn. unfold LookupConfigurationValue.
    destruct (regexp.Match (Value cfr)) eqn:HM; [|done].
    by apply Match_iff in HM.
  - intros Hc. apply Match_iff in Hc. unfold regexp.Match in Hc.
    destruct (regexp.find (Value cfr)) as [[pre m]|] eqn:Hf; [|done].
    exists pre, m. split; [done|]. unfold LookupConfigurationValue.
    rewrite (Match_find _ _ _ Hf), (lookupPath_group1 _ _ _ Hf). simpl.
    destruct (Get _ _) as [[[bytes dt] off] [e|]]; [|done].
    destruct (decide (e = KeyPathNotFoundError)) as [->|Hne].
    + by rewrite bool_decide_eq_false_2, bool_decide_eq_true_2 by (try intros H; auto).
    + by rewrite bool_decide_eq_true_2, bool_decide_eq_false_2.
Qed.

End ResolverFacts.





(** C1, counterexample: the value holds a placeholder whose path [B] is
    found, yet nothing is replaced, because only the path of the leftmost
    placeholder is looked up and [A] is missing; and when both are found the
    second placeholder receives the value of the first. *)
Lemma C1_counterexample :
  hostGet [(["B"], ("2", jsonparser.Number))] ""
    (map strcase.ToCamel (strings.Split "b" ".")) = ("2", jsonparser.Number, 0, None) /\
  LookupConfigurationValue noLetters strcase.ToCamel
    (hostGet [(["B"], ("2", jsonparser.Number))]) emptyFile
    {| Match := "k"; Value := "{{config.a}}:{{config.b}}";
       ValueType := jsonparser.String |}
  = ("{{config.a}}:{{config.b}}", jsonparser.String, None) /\
  LookupConfigurationValue noLetters strcase.ToCamel
    (hostGet [(["A"], ("1", jsonparser.Number)); (["B"], ("2", jsonparser.Number))])
    emptyFile
    {| Match := "k"; Value := "{{config.a}}:{{config.b}}";
       ValueType := jsonparser.String |}
  = ("1:1", jsonparser.String, None).
Proof. by vm_compute. Qed.

Lemma C1_witness :
  LookupConfigurationValue noLetters strcase.ToCamel
    (hostGet [(["X"], ("10.0.0.1", jsonparser.String))]) emptyFile
    {| Match := "k"; Value := "prefix-{{config.x}}-suffix";
       ValueType := jsonparser.Number |}
  = ("prefix-10.0.0.1-suffix", jsonparser.Number, None).
Proof.
  refine (proj2 (proj2 (proj2
    (C1_found_value_replaces_in_place noLetters strcase.ToCamel
       (hostGet [(["X"], ("10.0.0.1", jsonparser.String))]) emptyFile
       {| Match := "k"; Value := "prefix-{{config.x}}-suffix";
          ValueType := jsonparser.Number |}
       "prefix-"
       {| regexp.whole := "{{config.x}}"; regexp.group1 := "x";
          regexp.after := "-suffix" |}
       "10.0.0.1" jsonparser.String 0 _ _ _))) _); reflexivity.
Defined.

Lemma C3_witness :
  LookupConfigurationValue noLetters strcase.ToCamel (hostGet []) emptyFile portRule
  = ("{{ config.docker.port }}", jsonparser.Number, None).
Proof.
  refine (C3_missing_key_keeps_literal noLetters strcase.ToCamel (hostGet []) emptyFile
            portRule ""
            {| regexp.whole := "{{ config.docker.port }}"; regexp.group1 := "docker.port";
               regexp.after := "" |}
            "" jsonparser.NotExist (-1) _ _); reflexivity.
Defined.

(** C4, counterexample: two bytes of whitespace after [{{] are within the
    wire format as the specification words it, but the value is not treated
    as holding a placeholder: it is returned unchanged although the host
    configuration has the key. *)
Lemma C4_counterexample :
  containsToken wireToken "{{  config.x }}" /\
  LookupConfigurationValue noLetters strcase.ToCamel
    (hostGet [(["X"], ("1", jsonparser.String))]) emptyFile
    {| Match := "k"; Value := "{{  config.x }}"; ValueType := jsonparser.String |}
  = ("{{  config.x }}", jsonparser.String, None).
Proof.
  split; [|by vm_compute].
  exists "", "{{  config.x }}", "". split; [done|].
  exists "x", "  ", " ". by vm_compute.
Qed.

Lemma C4_witness :
  regexp.Match "a {{ config.x }} b" = true.
Proof.
  apply (proj2 (proj1 (C4_placeholder_detection noLetters strcase.ToCamel (hostGet [])
                         emptyFile
                         {| Match := "k"; Value := "a {{ config.x }} b";
                            ValueType := jsonparser.String |}))).
  exists "a ", "{{ config.x }}", " b". split; [reflexivity|].
  exists "x", " ", " ". vm_compute. repeat split; (congruence || lia).
Defined.

(** C10: evaluated where the host value holds a [$]: the lookup result [$1]
    is expanded as a template, so each token is replaced by its own path and
    not by the one lookup result. *)
Lemma C10_template_expansion :
  LookupConfigurationValue noLetters strcase.ToCamel
    (hostGet [(["A"], ("$1", jsonparser.String)); (["B"], ("other", jsonparser.String))])
    emptyFile
    {| Match := "k"; Value := "{{config.a}}-{{config.b}}";
       ValueType := jsonparser.String |}
  = ("a-b", jsonparser.String, None) /\
  LookupConfigurationValue noLetters strcase.ToCamel
    (hostGet [(["A"], ("p@$$w0rd", jsonparser.String))])
    emptyFile
    {| Match := "k"; Value := "{{config.a}}"; ValueType := jsonparser.String |}
  = ("p@$w0rd", jsonparser.String, None).
Proof. by vm_compute. Qed.

Section PassFacts.

Import StringsFacts RegexpFacts GabsFacts.

Variable isLetterOrDigit : Z -> bool.
Variable ToCamel : string -> string.
Variable Get : string -> list string -> string * jsonparser.ValueType * Z * option error.
Variable Unmarshal : string -> gabs.json + error.

Local Abbreviation Lookup := (LookupConfigurationValue isLetterOrDigit ToCamel Get).
Local Abbreviation Rules := (eachRule isLetterOrDigit ToCamel Get).
Local Abbreviation Iterate := (IterateOverJson isLetterOrDigit ToCamel Get Unmarshal).

(** C6: the scenario of the port taken from the host configuration. *)
Theorem C6_port_from_host_configuration (cfg data : string)
    (dt : jsonparser.ValueType) (off : Z) :
  Unmarshal data = inl serverDoc ->
  ToCamel "docker" = "Docker" -> ToCamel "port" = "Port" ->
  Get cfg ["Docker"; "Port"] = ("25566", dt, off, None) ->
  lookupPath isLetterOrDigit ToCamel (Value portRule) = ["Docker"; "Port"] /\
  document (Iterate {| Replace := [portRule]; configuration := cfg |} data)
    = Some (gabs.TMap {[ "server" := gabs.TMap {[ "port" := gabs.TInt 25566 ]} ]}) /\
  (Iterate {| Replace := [portRule]; configuration := cfg |} data).2 = None.
Proof.
  intros HU HD HP HG.
  assert (HL : lookupPath isLetterOrDigit ToCamel (Value portRule) = ["Docker"; "Port"]).
  { transitivity [ToCamel "docker"; ToCamel "port"]; [by vm_compute | by rewrite HD, HP]. }
  split; [done|].
  unfold document, IterateOverJson, ParseJSON. rewrite HU.
  cbn [Replace eachRule]. unfold LookupConfigurationValue.
  change (regexp.Match (Value portRule)) with true. cbn [negb configuration].
  rewrite HL, HG. by vm_compute.
Qed.

(** C7: the same scenario when the host configuration lacks the key: the
    literal placeholder goes through the coercion to a number and [0] is
    written, without an error. *)
Theorem C7_missing_key_writes_zero (cfg data bytes : string)
    (dt : jsonparser.ValueType) (off : Z) :
  Unmarshal data = inl serverDoc ->
  ToCamel "docker" = "Docker" -> ToCamel "port" = "Port" ->
  Get cfg ["Docker"; "Port"] = (bytes, dt, off, Some KeyPathNotFoundError) ->
  Lookup {| Replace := [portRule]; configuration := cfg |} portRule
    = ("{{ config.docker.port }}", jsonparser.Number, None) /\
  getKeyValue "{{ config.docker.port }}" jsonparser.Number = gabs.Int 0 /\
  document (Iterate {| Replace := [portRule]; configuration := cfg |} data)
    = Some (gabs.TMap {[ "server" := gabs.TMap {[ "port" := gabs.TInt 0 ]} ]}) /\
  (Iterate {| Replace := [portRule]; configuration := cfg |} data).2 = None.
Proof.
  intros HU HD HP HG.
  assert (HL : lookupPath isLetterOrDigit ToCamel (Value portRule) = ["Docker"; "Port"]).
  { transitivity [ToCamel "docker"; ToCamel "port"]; [by vm_compute | by rewrite HD, HP]. }
  assert (HR : Lookup {| Replace := [portRule]; configuration := cfg |} portRule
               = ("{{ config.docker.port }}", jsonparser.Number, None)).
  { unfold LookupConfigurationValue.
    change (regexp.Match (Value portRule)) with true. cbn [negb configuration].
    by rewrite HL, HG. }
  split; [done|]. split; [by vm_compute|].
  unfold document, IterateOverJson, ParseJSON. rewrite HU.
  cbn [Replace eachRule]. rewrite HR. by vm_compute.
Qed.

(** The loop over the rules runs the rules of a first part and then, unless
    one of them failed, those of the second part. *)
Lemma eachRule_app (f : ConfigurationFile) (rules1 rules2 : list ConfigurationFileReplacement)
    (σ : gabs.store) (parsed : gabs.value) :
  Rules f (rules1 ++ rules2) σ parsed =
  let '(tr1, σ1, parsed1, err1) := Rules f rules1 σ parsed in
  match err1 with
  | Some e => (tr1, σ1, parsed1, Some e)
  | None =>
      let '(tr2, σ2, parsed2, err2) := Rules f rules2 σ1 parsed1 in
      (tr1 ++ tr2, σ2, parsed2, err2)
  end.
Proof.
  revert σ parsed. induction rules1 as [|v rules1 IH]; intros σ parsed.
  - simpl. by destruct (Rules f rules2 σ parsed) as [[[tr2 σ2] p2] e2].
  - cbn [app eachRule].
    destruct (Lookup f v) as [[value dt] [e|]]; [done|].
    destruct (strings.Contains (Match v) ".*").
    + destruct (_ !! 0%nat) as [part0|]; [|done].
      destruct (_ !! 1%nat) as [part1|]; [|done].
      destruct (gabs.Path _ _ _) as [σ1 node].
      destruct (eachChild _ _ _ _ _) as [[tr σ2] [e|]]; [done|].
      rewrite IH.
      destruct (Rules f rules1 σ2 parsed) as [[[tr1 σ3] p3] [e|]]; [done|].
      destruct (Rules f rules2 σ3 p3) as [[[tr2 σ4] p4] e2].
      cbn [app]. by rewrite app_assoc.
    + destruct (setPathway _ _ _ _ _) as [[σ1 p1] [e|]]; [done|].
      rewrite IH.
      destruct (Rules f rules1 σ1 p1) as [[[tr1 σ3] p3] [e|]]; [done|].
      by destruct (Rules f rules2 σ3 p3) as [[[tr2 σ4] p4] e2].
Qed.

(** C9: a lookup that fails with anything but the missing-key error stops the
    pass at once: the wrapped error is returned with no document, and the
    calls made end with the lookup of the failing rule, so that no later rule
    is resolved or applied. *)
Theorem C9_lookup_fault_aborts_pass (f : ConfigurationFile) (data : string)
    (before after : list ConfigurationFileReplacement) (r : ConfigurationFileReplacement)
    (σ0 σ : gabs.store) (parsed0 parsed : gabs.value) (tr : list event)
    (pre : string) (m : regexp.Submatch)
    (bytes : string) (dt : jsonparser.ValueType) (off : Z) (e : error) :
  Replace f = before ++ r :: after ->
  ParseJSON Unmarshal data = inl (σ0, parsed0) ->
  Rules f before σ0 parsed0 = (tr, σ, parsed, None) ->
  regexp.find (Value r) = Some (pre, m) ->
  Get (configuration f) (map ToCamel (strings.Split (regexp.group1 m) "."))
    = (bytes, dt, off, Some e) ->
  e <> KeyPathNotFoundError ->
  Lookup f r = (bytes, dt, Some (WithStack e)) /\
  Iterate f data = (tr ++ [Resolved r], None, Some (WithStack e)).
Proof.
  intros HR HP HB Hf HG He.
  assert (HL : Lookup f r = (bytes, dt, Some (WithStack e))).
  { unfold LookupConfigurationValue.
    rewrite (Match_find _ _ _ Hf), (lookupPath_group1 _ _ _ _ _ Hf), HG. simpl.
    by rewrite bool_decide_eq_true_2. }
  split; [done|].
  unfold IterateOverJson. rewrite HP, HR, eachRule_app, HB.
  cbn [eachRule]. by rewrite HL.
Qed.

(** The writes of the loop over the children: one per child, in order, up
    to and including the first one that fails. *)
Lemma eachChild_trace (σ : gabs.store) (children : list gabs.value) (path value : string)
    (vt : jsonparser.ValueType) :
  exists n : nat,
    (n <= length children)%nat /\
    (eachChild σ children path value vt).1.1
      = map (fun c => Written c path value vt) (take n children) /\
    ((eachChild σ children path value vt).2 = None -> n = length children) /\
    (forall e, (eachChild σ children path value vt).2 = Some e ->
       exists σc c, children !! (n - 1)%nat = Some c /\ (0 < n)%nat /\
                    (setPathway σc c path value vt).2 = Some e).
Proof.
  revert σ. induction children as [|c children IH]; intros σ.
  - exists 0%nat. simpl. split; [lia|]. split; [done|]. split; [done|]. by intros e.
  - cbn [eachChild].
    destruct (setPathway σ c path value vt) as [[σ1 g1] [e|]] eqn:Hs.
    + exists 1%nat. simpl. split; [lia|]. split; [done|]. split; [done|].
      intros e' [= <-]. exists σ, c. rewrite Hs. split; [done|split; [lia|done]].
    + destruct (IH σ1) as (n & Hn & Htr & Hok & Herr).
      destruct (eachChild σ1 children path value vt) as [[tr σ2] err].
      simpl in *. exists (S n). split; [lia|]. split; [by rewrite Htr|].
      split; [intros He; by rewrite (Hok He)|].
      intros e He. destruct (Herr e He) as (σc & c' & Hc & Hpos & Hf).
      exists σc, c'. split; [|split; [lia|done]].
      destruct n; [lia|]. simpl in *. by rewrite Nat.sub_0_r in Hc.
Qed.


(** C5: a [Match] with two markers is split at the first one only: the
    first part holds no marker and the second part holds the rest with the
    later marker.  Every write of the rule goes to a direct child of the node
    at the prefix and carries the whole trimmed suffix as its path, the later
    marker included; there, [*] is a key like any other: written on a map,
    the path [*] sets the key [*] of that map.  On the nested document the
    rule [a.*.b.*.c] leaves the children of [b] alone and adds the key [*]. *)
Theorem C5_only_first_wildcard_is_expanded :
  (forall (f : ConfigurationFile) (v : ConfigurationFileReplacement) (σ : gabs.store)
          (parsed : gabs.value) (value : string) (dt : jsonparser.ValueType)
          (x y z : string),
     Match v = x +:+ ".*" +:+ y +:+ ".*" +:+ z ->
     Lookup f v = (value, dt, None) ->
     exists part0 part1 : string,
       strings.SplitN (Match v) ".*" 2 = [part0; part1] /\
       Match v = part0 +:+ ".*" +:+ part1 /\
       strings.Contains part0 ".*" = false /\
       strings.Contains part1 ".*" = true /\
       let node := gabs.Path σ parsed (strings.Trim part0 ".") in
       forall c path val vt,
         Written c path val vt ∈ (Rules f [v] σ parsed).1.1.1 ->
         path = strings.Trim part1 "." /\ c ∈ gabs.Children node.1 node.2) /\
  (forall (σ : gabs.store) (l : nat) (val : gabs.value),
     gabs.SetP σ (gabs.MapRef l) val "*"
     = (gabs.storeMap σ l (<["*" := val]> (gabs.maps σ !!! l)), gabs.MapRef l, None)) /\
  (forall data cfg : string,
     Unmarshal data = inl nestedDoc ->
     document (Iterate {| Replace := [nestedRule]; configuration := cfg |} data)
       = Some (gabs.TMap
                 {[ "a" :=
                      gabs.TMap
                        {[ "x" :=
                             gabs.TMap
                               {[ "b" :=
                                    gabs.TMap
                                      {[ "p" := gabs.TMap ∅; "q" := gabs.TMap ∅;
                                         "*" := gabs.TMap {[ "c" := gabs.TStr "v" ]} ]} ]} ]} ]}) /\
     (Iterate {| Replace := [nestedRule]; configuration := cfg |} data).2 = None).
Proof.
  split; [|split].
  - intros f v σ parsed value dt x y z HM HL.
    assert (Hc : strings.Contains (Match v) ".*" = true)
      by (apply Contains_true; eauto).
    destruct (SplitN_2 _ _ Hc ltac:(done)) as (part0 & part1 & HS & HC).
    pose proof (Cut_Some _ _ _ _ HC) as HE.
    exists part0, part1. split; [done|]. split; [done|]. split; [|split].
    + destruct (strings.Contains part0 ".*") eqn:H0; [|done].
      apply Contains_true in H0 as (a & b & ->).
      rewrite !append_assoc in HE.
      pose proof (Cut_first _ _ _ _ _ _ HC HE) as Hlen.
      rewrite !append_length in Hlen. simpl in Hlen. lia.
    + pose proof (Cut_first _ _ _ _ _ _ HC HM) as Hlen.
      rewrite HE in HM.
      assert (HM' : (part0 +:+ ".*") +:+ part1 = (x +:+ ".*" +:+ y) +:+ ".*" +:+ z)
        by (by rewrite !append_assoc).
      apply append_split in HM' as (e & _ & ->);
        [|rewrite !append_length; simpl; lia].
      apply Contains_true. eauto.
    + cbv zeta. intros c path val vt.
      cbn [eachRule]. rewrite HL, Hc, HS. cbn [lookup list_lookup].
      destruct (gabs.Path σ parsed (strings.Trim part0 ".")) as [σ1 node].
      cbn [fst snd].
      destruct (eachChild_trace σ1 (gabs.Children σ1 node) (strings.Trim part1 ".") value dt)
        as (n & _ & Htr & _).
      destruct (eachChild σ1 (gabs.Children σ1 node) (strings.Trim part1 ".") value dt)
        as [[tr σ2] err]. cbn [fst snd] in *.
      assert (Hin : Written c path val vt ∈ Resolved v :: tr ->
                    path = strings.Trim part1 "." /\ c ∈ gabs.Children σ1 node).
      { rewrite Htr. intros Hin. apply elem_of_cons in Hin as [Hin|Hin]; [done|].
        apply list_elem_of_fmap in Hin as (c' & [= -> -> -> ->] & Hin).
        split; [done|]. apply elem_of_take in Hin as (i & Hi & _).
        apply list_elem_of_lookup. eauto. }
      destruct err as [e|]; cbn [fst snd]; [done|].
      by rewrite app_nil_r.
  - intros σ l val. reflexivity.
  - intros data cfg HU.
    unfold document, IterateOverJson, ParseJSON. rewrite HU. by vm_compute.
Qed.





End PassFacts.



Lemma C5_witness :
  strings.SplitN "a.*.b.*.c" ".*" 2 = ["a"; ".b.*.c"] /\
  strings.Contains ".b.*.c" ".*" = true.
Proof.
  destruct (proj1 (C5_only_first_wildcard_is_expanded noLetters strcase.ToCamel (hostGet [])
                     (fun _ => inl nestedDoc))
              emptyFile nestedRule gabs.emptyStore gabs.Nil "v" jsonparser.String
              "a" ".b" ".c" eq_refl eq_refl)
    as (part0 & part1 & HS & _ & _ & HC & _).
  vm_compute in HS. injection HS as <- <-. split; [reflexivity | exact HC].
Defined.

Lemma C6_witness :
  document (IterateOverJson noLetters strcase.ToCamel
              (hostGet [(["Docker"; "Port"], ("25566", jsonparser.Number))])
              (fun _ => inl serverDoc)
              {| Replace := [portRule]; configuration := "" |} "")
  = Some (gabs.TMap {[ "server" := gabs.TMap {[ "port" := gabs.TInt 25566 ]} ]}).
Proof.
  exact (proj1 (proj2 (C6_port_from_host_configuration noLetters strcase.ToCamel
                         (hostGet [(["Docker"; "Port"], ("25566", jsonparser.Number))])
                         (fun _ => inl serverDoc) "" "" jsonparser.Number 0
                         eq_refl eq_refl eq_refl eq_refl))).
Defined.

Lemma C7_witness :
  document (IterateOverJson noLetters strcase.ToCamel (hostGet [])
              (fun _ => inl serverDoc)
              {| Replace := [portRule]; configuration := "" |} "")
  = Some (gabs.TMap {[ "server" := gabs.TMap {[ "port" := gabs.TInt 0 ]} ]}).
Proof.
  exact (proj1 (proj2 (proj2 (C7_missing_key_writes_zero noLetters strcase.ToCamel
                         (hostGet []) (fun _ => inl serverDoc) "" "" ""
                         jsonparser.NotExist (-1)
                         eq_refl eq_refl eq_refl eq_refl)))).
Defined.

Lemma C9_witness :
  IterateOverJson noLetters strcase.ToCamel (brokenGet MalformedJsonError)
    (fun _ => inl serverDoc)
    {| Replace := [ {| Match := "server.name"; Value := "wings";
                       ValueType := jsonparser.String |};
                    portRule; bindRule ];
       configuration := "" |} ""
  = ([Resolved {| Match := "server.name"; Value := "wings";
                  ValueType := jsonparser.String |};
      Written (gabs.MapRef 1) "server.name" "wings" jsonparser.String;
      Resolved portRule],
     None, Some (WithStack MalformedJsonError)).
Proof.
  pose proof (fun σ0 σ parsed0 parsed tr pre m bytes dt off e H1 H2 H3 H4 H5 H6 =>
    proj2 (C9_lookup_fault_aborts_pass noLetters strcase.ToCamel
             (brokenGet MalformedJsonError) (fun _ => inl serverDoc)
             {| Replace := [ {| Match := "server.name"; Value := "wings";
                                ValueType := jsonparser.String |};
                             portRule; bindRule ];
                configuration := "" |} ""
             [ {| Match := "server.name"; Value := "wings";
                  ValueType := jsonparser.String |} ]
             [bindRule] portRule
             σ0 σ parsed0 parsed tr pre m bytes dt off e H1 H2 H3 H4 H5 H6)) as W.
  eapply eq_trans; [eapply W|].
  - reflexivity.
  - reflexivity.
  - vm_compute. reflexivity.
  - vm_compute. reflexivity.
  - reflexivity.
  - discriminate.
  - reflexivity.
Defined.



Module FrameFacts.

Import StringsFacts StoreFacts.

Lemma extends_refl (σ : gabs.store) : extends σ σ.
Proof. split; [lia | done]. Qed.

Lemma extends_trans (σ1 σ2 σ3 : gabs.store) :
  extends σ1 σ2 -> extends σ2 σ3 -> extends σ1 σ3.
Proof.
  intros [Hn1 H1] [Hn2 H2]. split; [lia|].
  intros l Hl. destruct (H1 l Hl) as [Hm Hs].
  destruct (H2 l) as [Hm' Hs']; [lia|]. split; congruence.
Qed.

Lemma newMap_extends (σ : gabs.store) (m : gmap string gabs.value) :
  extends σ (gabs.newMap σ m).1.
Proof.
  split; simpl; [lia|]. intros l Hl. split; [|done].
  apply lookup_insert_ne. lia.
Qed.

Lemma newSlice_extends (σ : gabs.store) (a : list gabs.value) :
  extends σ (gabs.newSlice σ a).1.
Proof.
  split; simpl; [lia|]. intros l Hl. split; [done|].
  apply lookup_insert_ne. lia.
Qed.

(** A write into a cell above the next free location of [σ0] is not seen
    from [σ0]. *)
Lemma storeMap_extends (σ0 σ : gabs.store) (l : nat) (m : gmap string gabs.value) :
  extends σ0 σ -> (gabs.next σ0 <= l)%nat -> extends σ0 (gabs.storeMap σ l m).
Proof.
  intros [Hn H] Hl. split; simpl; [lia|].
  intros l' Hl'. destruct (H l' Hl') as [Hm Hs]. split; [|done].
  rewrite lookup_insert_ne by lia. done.
Qed.

(** What is read from a valid value does not change when the store is
    extended. *)
Lemma read_extends (d : nat) :
  forall (σ σ' : gabs.store) (v : gabs.value),
    wellFormed σ -> valid σ v -> extends σ σ' ->
    gabs.read d σ' v = gabs.read d σ v.
Proof.
  induction d as [|d IH]; intros σ σ' v Hwf Hv Hext; destruct v as [| | | | |l|l]; try done.
  - cbn [gabs.read]. f_equal.
    assert (Hl : (l < gabs.next σ)%nat) by by apply (maps_below _ Hwf).
    destruct (proj2 Hext l Hl) as [Hm _].
    rewrite !lookup_total_alt, Hm.
    apply map_fmap_ext. intros k x Hx. apply IH; [done| |done].
    eapply map_entry_valid; [done|]. by rewrite lookup_total_alt.
  - cbn [gabs.read]. f_equal.
    assert (Hl : (l < gabs.next σ)%nat) by by apply (slices_below _ Hwf).
    destruct (proj2 Hext l Hl) as [_ Hs].
    rewrite !lookup_total_alt, Hs.
    apply list_fmap_ext. intros i x Hx. apply IH; [done| |done].
    eapply slice_elem_valid; [done|]. rewrite lookup_total_alt.
    by eapply list_elem_of_lookup_2.
Qed.

(** Decoding extends the store, and what it builds reads back as the
    document of the JSON value. *)
Lemma load_reads (j : gabs.json) :
  forall σ, wellFormed σ ->
    extends σ (gabs.load j σ).1 /\
    forall d, (gabs.next (gabs.load j σ).1 - gabs.next σ < d)%nat ->
      gabs.read d (gabs.load j σ).1 (gabs.load j σ).2 = treeOf j.
Proof.
  induction j as [|b|lit|s|elems IH|fields IH] using json_induction; intros σ Hwf;
    try (split; [apply extends_refl | by intros [|d]]).
  - cbn [gabs.load treeOf].
    match goal with |- context [?F elems σ] =>
      pose (each := F); change (F elems σ) with (each elems σ) end.
    assert (Heach : forall σ, wellFormed σ ->
              wellFormed (each elems σ).1 /\ extends σ (each elems σ).1
              /\ (forall x, x ∈ (each elems σ).2 -> valid (each elems σ).1 x)
              /\ forall d, (gabs.next (each elems σ).1 - gabs.next σ < d)%nat ->
                   gabs.read d (each elems σ).1 <$> (each elems σ).2 = treeOf <$> elems).
    { clear σ Hwf. induction IH as [|x elems Hx _ IHl]; intros σ Hwf.
      - simpl. split; [done|]. split; [apply extends_refl|]. split; [|done].
        intros x Hx. by apply elem_of_nil in Hx.
      - unfold each. simpl. fold each.
        destruct (load_keeps x σ Hwf) as (Hwf1 & _ & Hv1).
        destruct (Hx σ Hwf) as (He1 & Hr1).
        destruct (gabs.load x σ) as [σ1 v1]. simpl in Hwf1, Hv1, He1, Hr1.
        destruct (IHl σ1 Hwf1) as (Hwf2 & He2 & Hv2 & Hr2).
        destruct (each elems σ1) as [σ2 vs]. simpl in *.
        split; [done|]. split; [by eapply extends_trans|]. split.
        + intros y Hy. apply elem_of_cons in Hy as [->|Hy]; [|by auto].
          destruct He2 as [_ He2]. clear -Hwf1 Hv1 He2.
          destruct v1 as [| | | | |l|l]; try done; simpl in *.
          * destruct (He2 l) as [-> _]; [by apply (maps_below _ Hwf1)|done].
          * destruct (He2 l) as [_ ->]; [by apply (slices_below _ Hwf1)|done].
        + intros d Hd. f_equal.
          * rewrite (read_extends d σ1 σ2 v1) by done. apply Hr1.
            destruct He1, He2. lia.
          * apply Hr2. destruct He1, He2. lia. }
    destruct (Heach σ Hwf) as (Hwf1 & He1 & Hv1 & Hr1).
    destruct (each elems σ) as [σ1 vs]. simpl in Hwf1, He1, Hv1, Hr1.
    split; [eapply extends_trans; [exact He1 | apply newSlice_extends]|].
    intros [|d] Hd; [simpl in Hd; lia|].
    cbn [gabs.newSlice gabs.read fst snd gabs.slices]. f_equal.
    rewrite lookup_total_insert_eq. rewrite <- (Hr1 d) by (simpl in Hd; destruct He1; lia).
    apply list_fmap_ext. intros i x Hx.
    apply (read_extends d σ1 (gabs.newSlice σ1 vs).1); [done| |apply newSlice_extends].
    apply Hv1. by eapply list_elem_of_lookup_2.
  - cbn [gabs.load treeOf].
    match goal with |- context [?F fields σ ∅] =>
      pose (each := F); change (F fields σ ∅) with (each fields σ ∅) end.
    assert (Heach : forall σ m, wellFormed σ ->
              (forall k v, m !! k = Some v -> valid σ v) ->
              wellFormed (each fields σ m).1 /\ extends σ (each fields σ m).1
              /\ (forall k v, (each fields σ m).2 !! k = Some v -> valid (each fields σ m).1 v)
              /\ forall d, (gabs.next (each fields σ m).1 - gabs.next σ < d)%nat ->
                   gabs.read d (each fields σ m).1 <$> (each fields σ m).2
                   = foldl (fun t kv => <[kv.1 := treeOf kv.2]> t)
                       (gabs.read d (each fields σ m).1 <$> m) fields).
    { clear σ Hwf. induction IH as [|[k x] fields Hx _ IHl]; intros σ m Hwf Hm.
      - simpl. split; [done|]. split; [apply extends_refl | done].
      - unfold each. simpl. fold each. simpl in Hx.
        destruct (load_keeps x σ Hwf) as (Hwf1 & Hg1 & Hv1).
        destruct (Hx σ Hwf) as (He1 & Hr1).
        destruct (gabs.load x σ) as [σ1 v1]. simpl in Hwf1, Hg1, Hv1, He1, Hr1.
        destruct (IHl σ1 (<[k := v1]> m) Hwf1) as (Hwf2 & He2 & Hv2 & Hr2).
        { intros k' v' Hk. destruct (decide (k = k')) as [<-|Hne].
          - rewrite lookup_insert_eq in Hk. by injection Hk as <-.
          - rewrite lookup_insert_ne in Hk by done. eauto. }
        split; [done|]. split; [by eapply extends_trans|]. split; [done|].
        intros d Hd. rewrite Hr2 by (destruct He1, He2; lia).
        rewrite fmap_insert. do 2 f_equal.
        rewrite (read_extends d σ1 _ v1) by done. apply Hr1.
        destruct He1, He2. lia. }
    destruct (Heach σ ∅ Hwf) as (Hwf1 & He1 & Hv1 & Hr1).
    { intros k v H. by rewrite lookup_empty in H. }
    destruct (each fields σ ∅) as [σ1 m]. simpl in Hwf1, He1, Hv1, Hr1.
    split; [eapply extends_trans; [exact He1 | apply newMap_extends]|].
    intros [|d] Hd; [simpl in Hd; lia|].
    cbn [gabs.newMap gabs.read fst snd gabs.maps]. f_equal.
    rewrite lookup_total_insert_eq.
    specialize (Hr1 d). rewrite fmap_empty in Hr1.
    rewrite <- Hr1 by (simpl in Hd; destruct He1; lia).
    apply map_fmap_ext. intros k x Hx.
    apply (read_extends d σ1 (gabs.newMap σ1 m).1); [done| |apply newMap_extends].
    by eapply Hv1.
Qed.

Lemma Split_nonempty (s sep : string) : sep <> "" -> strings.Split s sep <> [].
Proof. intros Hsep. rewrite Split_unfold by done. by destruct (strings.Cut s sep) as [[]|]. Qed.

(** A path always has a first segment: the empty path is the path of the
    one segment that is empty. *)
Lemma DotPathToSlice_nonempty (path : string) : gabs.DotPathToSlice path <> [].
Proof.
  unfold gabs.DotPathToSlice. pose proof (Split_nonempty path "." ltac:(done)) as H.
  by destruct (strings.Split path ".").
Qed.

(** The loop of [Set] that starts in an empty map above the cells of [σ0]
    stays above them and does not fail. *)
Lemma setLoop_fresh
    (rec : gabs.store -> gabs.value -> gabs.value -> list string
           -> gabs.store * gabs.value * option error)
    (hierarchy : list string) (v : gabs.value) (σ0 : gabs.store) :
  forall (rest : list string) (target : nat) (σ : gabs.store) (g : gabs.value) (l : nat),
    extends σ0 σ -> (gabs.next σ0 <= l)%nat -> (l < gabs.next σ)%nat ->
    gabs.maps σ !! l = Some ∅ ->
    (gabs.setLoop rec hierarchy v target rest σ g (gabs.MapRef l)).2 = None /\
    (gabs.setLoop rec hierarchy v target rest σ g (gabs.MapRef l)).1.2 = g /\
    extends σ0 (gabs.setLoop rec hierarchy v target rest σ g (gabs.MapRef l)).1.1.
Proof.
  induction rest as [|pathSeg rest IH]; intros target σ g l Hext Hl0 Hl Hempty; [done|].
  cbn [gabs.setLoop]. cbv zeta.
  assert (Hm : gabs.maps σ !!! l = (∅ : gmap string gabs.value)).
  { by rewrite lookup_total_alt, Hempty. }
  rewrite Hm.
  destruct rest as [|seg rest].
  - cbn [gabs.setLoop]. split; [done|]. split; [done|]. by apply storeMap_extends.
  - rewrite lookup_empty. cbn [gabs.newMap].
    apply IH.
    + apply storeMap_extends; [|done].
      eapply extends_trans; [exact Hext | apply newMap_extends].
    + destruct Hext. lia.
    + simpl. lia.
    + simpl. rewrite lookup_insert_ne by lia. by rewrite lookup_insert_eq.
Qed.

Lemma Set'_nil (fuel : nat) (σ : gabs.store) (v : gabs.value) (seg : string)
    (hierarchy : list string) :
  (gabs.Set' (S fuel) σ gabs.Nil v (seg :: hierarchy)).2 = None /\
  (gabs.Set' (S fuel) σ gabs.Nil v (seg :: hierarchy)).1.2 = gabs.MapRef (gabs.next σ) /\
  extends σ (gabs.Set' (S fuel) σ gabs.Nil v (seg :: hierarchy)).1.1.
Proof.
  cbn [gabs.Set' gabs.newMap]. apply setLoop_fresh.
  - apply (newMap_extends σ ∅).
  - done.
  - simpl. lia.
  - simpl. by rewrite lookup_insert_eq.
Qed.

Lemma Set'_scalar (fuel : nat) (σ : gabs.store) (c v : gabs.value) (seg : string)
    (hierarchy : list string) :
  scalar c = true ->
  gabs.Set' (S fuel) σ c v (seg :: hierarchy) = (σ, c, Some ErrPathCollision).
Proof. by destruct c. Qed.

End FrameFacts.

(** X3: a write through a container that holds a scalar fails with
    [ErrPathCollision] whatever the path and the value are, and leaves the
    store as it was; in the loop over the children of a wildcard rule such a
    child ends the loop, and the children after it are not written. *)
Theorem X3_scalar_target_collides (σ : gabs.store) (c : gabs.value)
    (children : list gabs.value) (path value : string) (vt : jsonparser.ValueType) :
  scalar c = true ->
  setPathway σ c path value vt = (σ, c, Some ErrPathCollision) /\
  eachChild σ (c :: children) path value vt
    = ([Written c path value vt], σ, Some ErrPathCollision).
Proof.
  intros Hc.
  assert (H : setPathway σ c path value vt = (σ, c, Some ErrPathCollision)).
  { unfold setPathway, gabs.SetP.
    pose proof (FrameFacts.DotPathToSlice_nonempty path) as Hne.
    destruct (gabs.DotPathToSlice path) as [|seg hierarchy]; [done|].
    by apply FrameFacts.Set'_scalar. }
  split; [done|]. cbn [eachChild]. by rewrite H.
Qed.

(** X4: a write through a container that holds [nil] succeeds for every
    path and value: the container gets a map of its own, and no cell that
    existed before is changed, so every document in the store reads as
    before. *)
Theorem X4_nil_child_write_is_detached (σ : gabs.store) (path value : string)
    (vt : jsonparser.ValueType) :
  (setPathway σ gabs.Nil path value vt).2 = None /\
  (setPathway σ gabs.Nil path value vt).1.2 = gabs.MapRef (gabs.next σ) /\
  extends σ (setPathway σ gabs.Nil path value vt).1.1 /\
  (forall (d : nat) (doc : gabs.value), wellFormed σ -> valid σ doc ->
     gabs.read d (setPathway σ gabs.Nil path value vt).1.1 doc = gabs.read d σ doc).
Proof.
  unfold setPathway, gabs.SetP.
  pose proof (FrameFacts.DotPathToSlice_nonempty path) as Hne.
  destruct (gabs.DotPathToSlice path) as [|seg hierarchy]; [done|].
  cbn [length].
  destruct (FrameFacts.Set'_nil (length hierarchy) σ (getKeyValue value vt) seg hierarchy)
    as (He & Hg & Hext).
  split; [done|]. split; [done|]. split; [done|].
  intros d doc Hwf Hdoc. by apply FrameFacts.read_extends.
Qed.

Module SplitFacts.

Import StringsFacts.

(** The text before the first instance of the separator does not hold
    the separator. *)
Lemma Cut_before (s sep before after : string) :
  sep <> "" -> strings.Cut s sep = Some (before, after) ->
  strings.Contains before sep = false.
Proof.
  intros Hsep HC. destruct (strings.Contains before sep) eqn:Hb; [|done].
  apply Contains_true in Hb as (x & y & ->).
  pose proof (Cut_Some _ _ _ _ HC) as Hs.
  rewrite !append_assoc in Hs.
  pose proof (Cut_first _ _ _ _ _ _ HC Hs) as Hlen.
  rewrite !append_length in Hlen.
  destruct sep; [done|]. simpl in Hlen. lia.
Qed.

Lemma Split_join_parts (n : nat) :
  forall s sep, (String.length s < n)%nat -> sep <> "" ->
    join sep (strings.Split s sep) = s /\
    Forall (fun p => strings.Contains p sep = false) (strings.Split s sep).
Proof.
  induction n as [|n IH]; intros s sep Hn Hsep; [lia|].
  rewrite Split_unfold by done.
  destruct (strings.Cut s sep) as [[before after]|] eqn:HC.
  - pose proof (Cut_after_shorter _ _ _ _ Hsep HC) as Hlt.
    destruct (IH after sep ltac:(lia) Hsep) as [Hj Hp].
    pose proof (FrameFacts.Split_nonempty after sep Hsep) as Hne.
    split.
    + destruct (strings.Split after sep) as [|p ps]; [done|].
      change (join sep (before :: p :: ps)) with (before +:+ sep +:+ join sep (p :: ps)).
      rewrite Hj. symmetry. by apply Cut_Some.
    + constructor; [by eapply Cut_before | done].
  - split; [done|]. constructor; [|done].
    unfold strings.Contains. by rewrite HC.
Qed.

End SplitFacts.

Section PassOrder.

Import StringsFacts StoreFacts.

Variable isLetterOrDigit : Z -> bool.
Variable ToCamel : string -> string.
Variable Get : string -> list string -> string * jsonparser.ValueType * Z * option error.
Variable Unmarshal : string -> gabs.json + error.

Local Abbreviation Lookup := (LookupConfigurationValue isLetterOrDigit ToCamel Get).
Local Abbreviation Rules := (eachRule isLetterOrDigit ToCamel Get).
Local Abbreviation Iterate := (IterateOverJson isLetterOrDigit ToCamel Get Unmarshal).





(** X6: before any rule is applied the container holds the decoded
    document, and a pass without rules returns it as it is. *)
Theorem X6_document_before_rules (f : ConfigurationFile) (data : string) (j : gabs.json) :
  Replace f = [] -> Unmarshal data = inl j ->
  Iterate f data = ([], Some (gabs.load j gabs.emptyStore), None) /\
  document (Iterate f data) = Some (treeOf j).
Proof.
  intros Hf Hj.
  assert (H : Iterate f data = ([], Some (gabs.load j gabs.emptyStore), None)).
  { unfold IterateOverJson, ParseJSON. rewrite Hj, Hf.
    by destruct (gabs.load j gabs.emptyStore). }
  split; [done|]. unfold document. rewrite H. cbn [fst snd].
  destruct (FrameFacts.load_reads j gabs.emptyStore emptyStore_wf) as [_ Hr].
  specialize (Hr (S (gabs.next (gabs.load j gabs.emptyStore).1))).
  destruct (gabs.load j gabs.emptyStore) as [σ parsed]. simpl in Hr.
  f_equal. apply Hr. lia.
Qed.

(** X7: the keys handed to [jsonparser.Get] are the segments of the path of
    the leftmost placeholder between its dots, each one put in camel case:
    there is at least one key, no segment holds a dot, and the segments
    joined by dots give the path back, so an empty segment is a key too. *)
Theorem X7_lookup_keys_are_the_segments (v pre : string) (m : regexp.Submatch) :
  regexp.find v = Some (pre, m) ->
  exists segs : list string,
    lookupPath isLetterOrDigit ToCamel v = map ToCamel segs /\
    segs <> [] /\
    join "." segs = regexp.group1 m /\
    Forall (fun p => strings.Contains p "." = false) segs.
Proof.
  intros Hfind. exists (strings.Split (regexp.group1 m) ".").
  split; [by eapply lookupPath_group1|].
  split; [by apply FrameFacts.Split_nonempty|].
  by apply (SplitFacts.Split_join_parts (S (String.length (regexp.group1 m)))); [lia|].
Qed.

End PassOrder.

Module RoundTrip.

Import StringsFacts StoreFacts FrameFacts.

Lemma valid_not_fresh (σ : gabs.store) (c : gabs.value) :
  wellFormed σ -> valid σ c ->
  c <> gabs.MapRef (gabs.next σ) /\ c <> gabs.SliceRef (gabs.next σ).
Proof.
  intros Hwf Hc. split; intros ->; simpl in Hc.
  - apply (maps_below _ Hwf) in Hc. lia.
  - apply (slices_below _ Hwf) in Hc. lia.
Qed.

Lemma sameCell_refl (σ : gabs.store) (c : gabs.value) : sameCell σ σ c.
Proof. by destruct c. Qed.

Lemma sameCell_trans (σ1 σ2 σ3 : gabs.store) (c : gabs.value) :
  sameCell σ1 σ2 c -> sameCell σ2 σ3 c -> sameCell σ1 σ3 c.
Proof. destruct c; simpl; congruence. Qed.

Lemma sameCell_storeMap (σ : gabs.store) (l : nat) (m : gmap string gabs.value)
    (c : gabs.value) :
  c <> gabs.MapRef l -> sameCell σ (gabs.storeMap σ l m) c.
Proof.
  destruct c as [| | | | |l'|l']; simpl; try done.
  intros Hne. apply lookup_insert_ne. congruence.
Qed.

Lemma sameCell_storeSlice (σ : gabs.store) (l : nat) (a : list gabs.value)
    (c : gabs.value) :
  c <> gabs.SliceRef l -> sameCell σ (gabs.storeSlice σ l a) c.
Proof.
  destruct c as [| | | | |l'|l']; simpl; try done.
  intros Hne. apply lookup_insert_ne. congruence.
Qed.

Lemma sameCell_newMap (σ : gabs.store) (m : gmap string gabs.value) (c : gabs.value) :
  wellFormed σ -> valid σ c -> sameCell σ (gabs.newMap σ m).1 c.
Proof.
  intros Hwf Hc. destruct (valid_not_fresh σ c Hwf Hc) as [Hm _].
  destruct c as [| | | | |l'|l']; simpl; try done.
  apply lookup_insert_ne. congruence.
Qed.

Lemma sameCell_newSlice (σ : gabs.store) (a : list gabs.value) (c : gabs.value) :
  wellFormed σ -> valid σ c -> sameCell σ (gabs.newSlice σ a).1 c.
Proof.
  intros Hwf Hc. destruct (valid_not_fresh σ c Hwf Hc) as [_ Hs].
  destruct c as [| | | | |l'|l']; simpl; try done.
  apply lookup_insert_ne. congruence.
Qed.

(** A map that is new and empty can be hung below an existing map: the
    ranks are kept, and the new map lies just above the map it hangs
    from. *)
Lemma ranked_new_child (rank : gabs.value -> Z) (σ : gabs.store) (l : nat)
    (seg : string) :
  wellFormed σ -> ranked rank σ -> valid σ (gabs.MapRef l) ->
  ranked (fun c => if decide (c = gabs.MapRef (gabs.next σ))
                   then rank (gabs.MapRef l) + 1 else rank c)
         (gabs.storeMap (gabs.newMap σ ∅).1 l
            (<[seg := gabs.MapRef (gabs.next σ)]> (gabs.maps σ !!! l))).
Proof.
  intros Hwf [Hrm Hrs] Hl.
  assert (Hln : l <> gabs.next σ).
  { apply (maps_below _ Hwf) in Hl. lia. }
  assert (Hfresh : forall w, valid σ w -> w <> gabs.MapRef (gabs.next σ)).
  { intros w Hw. by apply valid_not_fresh. }
  split; simpl.
  - intros l' m' k w Hm' Hk Hw.
    destruct (decide (l = l')) as [<-|Hne].
    + rewrite lookup_insert_eq in Hm'. injection Hm' as <-.
      rewrite decide_False by congruence.
      destruct (decide (seg = k)) as [<-|Hk'].
      * rewrite lookup_insert_eq in Hk. injection Hk as <-.
        rewrite decide_True by done. lia.
      * rewrite lookup_insert_ne in Hk by done.
        assert (Hvw : valid σ w) by by eapply map_entry_valid.
        rewrite decide_False by by apply Hfresh.
        destruct Hl as [m Hm]. eapply Hrm; [exact Hm| |done].
        by rewrite lookup_total_alt, Hm in Hk.
    + rewrite lookup_insert_ne in Hm' by done.
      destruct (decide (gabs.next σ = l')) as [<-|Hne'].
      * rewrite lookup_insert_eq in Hm'. injection Hm' as <-.
        by rewrite lookup_empty in Hk.
      * rewrite lookup_insert_ne in Hm' by done.
        rewrite decide_False by congruence.
        rewrite decide_False by (apply Hfresh; by eapply (maps_valid _ Hwf)).
        by eapply Hrm.
  - intros l' a w Ha Hin Hw.
    rewrite decide_False by (apply Hfresh; by eapply (slices_valid _ Hwf)).
    by eapply Hrs.
Qed.

(** Writing a value that is no reference into a cell keeps the ranks. *)
Lemma ranked_storeMap (rank : gabs.value -> Z) (σ : gabs.store) (l : nat)
    (seg : string) (v : gabs.value) :
  ranked rank σ -> isRef v = false ->
  ranked rank (gabs.storeMap σ l (<[seg := v]> (gabs.maps σ !!! l))).
Proof.
  intros [Hrm Hrs] Hv. split; simpl; [|done].
  intros l' m' k w Hm' Hk Hw.
  destruct (decide (l = l')) as [<-|Hne].
  - rewrite lookup_insert_eq in Hm'. injection Hm' as <-.
    destruct (decide (seg = k)) as [<-|Hk'].
    + rewrite lookup_insert_eq in Hk. injection Hk as <-. congruence.
    + rewrite lookup_insert_ne in Hk by done.
      rewrite lookup_total_alt in Hk.
      destruct (gabs.maps σ !! l) as [m|] eqn:Hm; simpl in Hk;
        [|by rewrite lookup_empty in Hk].
      by eapply Hrm.
  - rewrite lookup_insert_ne in Hm' by done. by eapply Hrm.
Qed.

Lemma ranked_storeSlice (rank : gabs.value -> Z) (σ : gabs.store) (l i : nat)
    (v : gabs.value) :
  ranked rank σ -> isRef v = false ->
  ranked rank (gabs.storeSlice σ l (<[i := v]> (gabs.slices σ !!! l))).
Proof.
  intros [Hrm Hrs] Hv. split; simpl; [done|].
  intros l' a w Ha Hin Hw.
  destruct (decide (l = l')) as [<-|Hne].
  - rewrite lookup_insert_eq in Ha. injection Ha as <-.
    apply list_elem_of_lookup in Hin as [j Hj].
    destruct (decide (j = i)) as [->|Hji].
    + apply list_lookup_insert_Some in Hj as [(_ & <- & _)|[? _]]; [congruence|done].
    + rewrite list_lookup_insert_ne in Hj by done.
      rewrite lookup_total_alt in Hj.
      destruct (gabs.slices σ !! l) as [a|] eqn:Hs; simpl in Hj; [|done].
      eapply Hrs; [exact Hs| |done]. by eapply list_elem_of_lookup_2.
  - rewrite lookup_insert_ne in Ha by done. by eapply Hrs.
Qed.

Lemma Atoi_star : (strconv.Atoi "*").2 <> None.
Proof. by vm_compute. Qed.

(** The loop of [Set] on a path without an append segment, when it
    succeeds: the container keeps its object, the cells below the one the
    loop starts from are not touched, the path read from there yields the
    value written, and writing a value that is no reference leaves the
    store without cycles. *)
Lemma setLoop_round_trip
    (rec : gabs.store -> gabs.value -> gabs.value -> list string
           -> gabs.store * gabs.value * option error)
    (hierarchy : list string) (v : gabs.value) :
  forall (rest : list string) (rank : gabs.value -> Z) (target : nat)
         (σ : gabs.store) (g object : gabs.value) (σ' : gabs.store) (g' : gabs.value),
    wellFormed σ -> ranked rank σ -> valid σ g -> valid σ v -> valid σ object ->
    "-" ∉ rest ->
    gabs.setLoop rec hierarchy v target rest σ g object = (σ', g', None) ->
    g' = g /\
    (forall c, valid σ c -> isRef c = true -> rank c < rank object -> sameCell σ σ' c) /\
    (rest <> [] -> gabs.Search σ' object rest = (σ', Some v)) /\
    (isRef v = false -> acyclic σ').
Proof.
  induction rest as [|pathSeg rest IH];
    intros rank target σ g object σ' g' Hwf Hrk Hg Hv Ho Hdash Hr.
  { simpl in Hr. injection Hr as <- <-. split; [done|].
    split; [intros; apply sameCell_refl|]. split; [done|]. intros _. by exists rank. }
  assert (Hdash' : "-" ∉ rest) by (intros H; apply Hdash; by right).
  assert (Hseg : pathSeg <> "-") by (intros ->; apply Hdash; by left).
  cbn [gabs.setLoop] in Hr. cbv zeta in Hr.
  destruct object as [| | | | |l|l]; try discriminate.
  - (* a map *)
    pose proof Ho as [m Hm].
    assert (Hmm : gabs.maps σ !!! l = m) by by rewrite lookup_total_alt, Hm.
    destruct rest as [|seg rest].
    + cbn [gabs.setLoop] in Hr. injection Hr as <- <-.
      split; [done|]. split.
      { intros c Hc Href Hlt. apply sameCell_storeMap. intros ->. lia. }
      split.
      { intros _. cbn [gabs.Search gabs.storeMap gabs.maps].
        by rewrite lookup_total_insert_eq, lookup_insert_eq. }
      intros Hv'. exists rank. by apply ranked_storeMap.
    + assert (Hnew :
        gabs.setLoop rec hierarchy v (S target) (seg :: rest)
          (gabs.storeMap (gabs.newMap σ ∅).1 l
             (<[pathSeg := gabs.MapRef (gabs.next σ)]> (gabs.maps σ !!! l))) g
          (gabs.MapRef (gabs.next σ)) = (σ', g', None) ->
        g' = g /\
        (forall c, valid σ c -> isRef c = true -> rank c < rank (gabs.MapRef l) ->
           sameCell σ σ' c) /\
        (pathSeg :: seg :: rest <> [] ->
         gabs.Search σ' (gabs.MapRef l) (pathSeg :: seg :: rest) = (σ', Some v)) /\
        (isRef v = false -> acyclic σ')).
      { clear Hr. intros Hr.
        destruct (newMap_empty_keeps σ Hwf) as (Hwf1 & Hg1 & Hv1).
        set (σ1 := (gabs.newMap σ ∅).1) in *.
        set (n := gabs.next σ) in *.
        set (σ2 := gabs.storeMap σ1 l (<[pathSeg := gabs.MapRef n]> (gabs.maps σ !!! l))) in *.
        assert (Hwf2 : wellFormed σ2).
        { apply storeMap_wf; [done | by apply Hg1 |].
          intros k x Hk. destruct (decide (pathSeg = k)) as [<-|Hne].
          - rewrite lookup_insert_eq in Hk. by injection Hk as <-.
          - rewrite lookup_insert_ne in Hk by done. apply Hg1. by eapply map_entry_valid. }
        assert (Hg2 : grows σ σ2).
        { eapply grows_trans; [exact Hg1 | apply storeMap_grows]. }
        pose proof (ranked_new_child rank σ l pathSeg Hwf Hrk Ho) as Hrk2.
        set (rank' := fun c => if decide (c = gabs.MapRef (gabs.next σ))
                               then rank (gabs.MapRef l) + 1 else rank c) in Hrk2.
        assert (Hnew : rank' (gabs.MapRef n) = rank (gabs.MapRef l) + 1).
        { unfold rank'. by rewrite decide_True. }
        assert (Hkept : forall c, valid σ c -> rank' c = rank c).
        { intros c Hc. unfold rank'. rewrite decide_False; [done|]. by apply valid_not_fresh. }
        destruct (IH rank' (S target) σ2 g (gabs.MapRef n) σ' g' Hwf2 Hrk2)
          as (Hg' & Hsame & Hsearch & Hacyc);
          [by apply Hg2 | by apply Hg2 | by apply storeMap_grows | done | done |].
        assert (Hl2 : sameCell σ2 σ' (gabs.MapRef l)).
        { apply Hsame; [by apply Hg2 | done |]. rewrite Hnew, Hkept by done. lia. }
        split; [done|]. split; [|split; [|done]].
        - intros c Hc Href Hlt.
          eapply sameCell_trans; [by apply sameCell_newMap|].
          eapply (sameCell_trans _ σ2);
            [apply (sameCell_storeMap σ1 l _ c); intros Hc'; rewrite Hc' in Hlt; lia|].
          apply Hsame; [by apply Hg2 | done |]. rewrite Hnew, Hkept by done. lia.
        - intros _. cbn [gabs.Search]. simpl in Hl2.
          rewrite lookup_total_alt, Hl2. unfold σ2. cbn [gabs.storeMap gabs.maps].
          rewrite lookup_insert_eq. cbn [default from_option id].
          rewrite lookup_insert_eq. by apply Hsearch. }
      destruct ((gabs.maps σ !!! l) !! pathSeg) as [o|] eqn:Hlook; [|by apply Hnew].
      assert (Hvo : valid σ o) by by eapply map_entry_valid.
      assert (Hold :
        isRef o = true ->
        gabs.setLoop rec hierarchy v (S target) (seg :: rest) σ g o = (σ', g', None) ->
        g' = g /\
        (forall c, valid σ c -> isRef c = true -> rank c < rank (gabs.MapRef l) ->
           sameCell σ σ' c) /\
        (pathSeg :: seg :: rest <> [] ->
         gabs.Search σ' (gabs.MapRef l) (pathSeg :: seg :: rest) = (σ', Some v)) /\
        (isRef v = false -> acyclic σ')).
      { clear Hr. intros Href Hr.
        assert (Hlt : rank (gabs.MapRef l) < rank o).
        { destruct Hrk as [Hrm _]. eapply Hrm; [exact Hm| |done]. by rewrite <- Hmm. }
        destruct (IH rank (S target) σ g o σ' g' Hwf Hrk Hg Hv Hvo Hdash' Hr)
          as (Hg' & Hsame & Hsearch & Hacyc).
        assert (Hl2 : sameCell σ σ' (gabs.MapRef l)) by by apply Hsame.
        split; [done|]. split; [|split; [|done]].
        - intros c Hc Hrefc Hltc. apply Hsame; [done..|lia].
        - intros _. cbn [gabs.Search]. simpl in Hl2.
          rewrite lookup_total_alt, Hl2, <- lookup_total_alt, Hlook. by apply Hsearch. }
      destruct o; try (by apply Hnew); try (by apply Hold); by cbn in Hr.
  - (* a slice *)
    pose proof Ho as [a Ha].
    assert (Haa : gabs.slices σ !!! l = a) by by rewrite lookup_total_alt, Ha.
    rewrite bool_decide_eq_false_2 in Hr by done.
    destruct (strconv.Atoi pathSeg) as [index [e|]] eqn:HA; [discriminate|].
    destruct (index <? 0) eqn:Hneg; [discriminate|].
    destruct (Z.of_nat (length (gabs.slices σ !!! l : list gabs.value)) <=? index) eqn:Hlen;
      [discriminate|].
    assert (Hstar : pathSeg <> "*").
    { intros ->. apply Atoi_star. by rewrite HA. }
    assert (Hi : (Z.to_nat index < length a)%nat) by (rewrite Haa in Hlen; lia).
    destruct rest as [|seg rest].
    + cbn [gabs.setLoop] in Hr. injection Hr as <- <-.
      split; [done|]. split.
      { intros c Hc Href Hlt. apply sameCell_storeSlice. intros ->. lia. }
      split.
      { intros _. cbn [gabs.Search gabs.storeSlice gabs.slices].
        rewrite bool_decide_eq_false_2 by done. rewrite HA, Hneg.
        rewrite lookup_total_insert_eq, Haa, list_lookup_insert_eq by done. done. }
      intros Hv'. exists rank. by apply ranked_storeSlice.
    + destruct ((gabs.slices σ !!! l : list gabs.value) !! Z.to_nat index) as [o|] eqn:Hlook;
        [|discriminate].
      assert (Hin : o ∈ a) by (rewrite <- Haa; by eapply list_elem_of_lookup_2).
      assert (Hvo : valid σ o) by by eapply (slices_valid _ Hwf).
      assert (Hold :
        isRef o = true ->
        gabs.setLoop rec hierarchy v (S target) (seg :: rest) σ g o = (σ', g', None) ->
        g' = g /\
        (forall c, valid σ c -> isRef c = true -> rank c < rank (gabs.SliceRef l) ->
           sameCell σ σ' c) /\
        (pathSeg :: seg :: rest <> [] ->
         gabs.Search σ' (gabs.SliceRef l) (pathSeg :: seg :: rest) = (σ', Some v)) /\
        (isRef v = false -> acyclic σ')).
      { clear Hr. intros Href Hr.
        assert (Hlt : rank (gabs.SliceRef l) < rank o).
        { destruct Hrk as [_ Hrs]. by eapply Hrs. }
        destruct (IH rank (S target) σ g o σ' g' Hwf Hrk Hg Hv Hvo Hdash' Hr)
          as (Hg' & Hsame & Hsearch & Hacyc).
        assert (Hl2 : sameCell σ σ' (gabs.SliceRef l)) by by apply Hsame.
        split; [done|]. split; [|split; [|done]].
        - intros c Hc Hrefc Hltc. apply Hsame; [done..|lia].
        - intros _. cbn [gabs.Search]. simpl in Hl2.
          rewrite bool_decide_eq_false_2 by done. rewrite HA, Hneg.
          rewrite lookup_total_alt, Hl2, <- lookup_total_alt, Hlook. by apply Hsearch. }
      destruct o; try (by apply Hold); try discriminate; by cbn in Hr.
Qed.

Lemma ranked_newMap_empty (rank : gabs.value -> Z) (σ : gabs.store) :
  ranked rank σ -> ranked rank (gabs.newMap σ ∅).1.
Proof.
  intros [Hrm Hrs]. split; simpl; [|done].
  intros l m k w Hm Hk Hw.
  destruct (decide (gabs.next σ = l)) as [<-|Hne].
  - rewrite lookup_insert_eq in Hm. injection Hm as <-. by rewrite lookup_empty in Hk.
  - rewrite lookup_insert_ne in Hm by done. by eapply Hrm.
Qed.

(** [Set] on a path without an append segment, when it succeeds: the path
    read from the container yields the value written. *)
Lemma Set'_round_trip (fuel : nat) (σ : gabs.store) (g v : gabs.value)
    (hierarchy : list string) (σ' : gabs.store) (g' : gabs.value) :
  wellFormed σ -> acyclic σ -> valid σ g -> valid σ v -> "-" ∉ hierarchy ->
  gabs.Set' fuel σ g v hierarchy = (σ', g', None) ->
  gabs.Search σ' g' hierarchy = (σ', Some v) /\
  (g <> gabs.Nil -> hierarchy <> [] -> g' = g) /\
  (isRef v = false -> acyclic σ').
Proof.
  intros Hwf [rank Hrk] Hg Hv Hdash Hr.
  destruct hierarchy as [|seg hierarchy].
  { destruct fuel; simpl in Hr; injection Hr as <- <-;
      (split; [done|]); (split; [done|]); intros _; by exists rank. }
  destruct fuel as [|fuel]; [discriminate|].
  cbn [gabs.Set'] in Hr.
  destruct (decide (g = gabs.Nil)) as [->|Hnil].
  - cbn [gabs.newMap] in Hr.
    destruct (newMap_empty_keeps σ Hwf) as (Hwf1 & Hg1 & Hv1).
    destruct (setLoop_round_trip _ _ _ _ rank _ _ _ _ _ _ Hwf1
                (ranked_newMap_empty rank σ Hrk) Hv1 (Hg1 _ Hv) Hv1 Hdash Hr)
      as (-> & _ & Hsearch & Hacyc).
    split; [by apply Hsearch|]. split; [done|]. exact Hacyc.
  - assert (Heq : match g with gabs.Nil => gabs.newMap σ ∅ | _ => (σ, g) end = (σ, g))
      by by destruct g.
    rewrite Heq in Hr.
    destruct (setLoop_round_trip _ _ _ _ rank _ _ _ _ _ _ Hwf Hrk Hg Hv Hg Hdash Hr)
      as (-> & _ & Hsearch & Hacyc).
    split; [by apply Hsearch|]. split; [done|]. exact Hacyc.
Qed.

End RoundTrip.

(** X9: a value written at a path is read back at that path.  When
    [setPathway] succeeds on a container of a store that is well formed and
    has no cycle of references, and no segment of the path is the append
    marker [-], then [Path] on the container the write leaves finds the
    value the write coerced. *)
Theorem X9_write_then_read (σ : gabs.store) (c : gabs.value) (path value : string)
    (vt : jsonparser.ValueType) (σ' : gabs.store) (c' : gabs.value) :
  wellFormed σ -> acyclic σ -> valid σ c ->
  "-" ∉ gabs.DotPathToSlice path ->
  setPathway σ c path value vt = (σ', c', None) ->
  gabs.Path σ' c' path = (σ', Some (getKeyValue value vt)).
Proof.
  intros Hwf Hac Hc Hdash Hr. unfold gabs.Path.
  unfold setPathway, gabs.SetP in Hr.
  eapply RoundTrip.Set'_round_trip; [exact Hwf | exact Hac | exact Hc | | exact Hdash | exact Hr].
  by destruct vt.
Qed.

Module AcyclicFacts.

Import StringsFacts StoreFacts FrameFacts RoundTrip.

Lemma rank_bound_list (rank : gabs.value -> Z) (a : list gabs.value) :
  exists b, forall x, x ∈ a -> b < rank x.
Proof.
  induction a as [|y a [b Hb]].
  - exists 0. intros x Hx. by apply elem_of_nil in Hx.
  - exists (Z.min b (rank y) - 1). intros x Hx.
    apply elem_of_cons in Hx as [->|Hx]; [lia|]. specialize (Hb x Hx). lia.
Qed.

Lemma rank_bound_map (rank : gabs.value -> Z) (m : gmap string gabs.value) :
  exists b, forall k x, m !! k = Some x -> b < rank x.
Proof.
  destruct (rank_bound_list rank (map_to_list m).*2) as [b Hb].
  exists b. intros k x Hx. apply Hb.
  apply list_elem_of_fmap. exists (k, x). split; [done|]. by apply elem_of_map_to_list.
Qed.

Lemma emptyStore_acyclic : acyclic gabs.emptyStore.
Proof.
  exists (fun _ => 0). split; simpl.
  - intros l m k v H. by rewrite lookup_empty in H.
  - intros l a v H. by rewrite lookup_empty in H.
Qed.

(** A new cell that holds values of the store keeps the store free of
    cycles: nothing refers to it yet. *)
Lemma acyclic_newSlice (σ : gabs.store) (a : list gabs.value) :
  wellFormed σ -> acyclic σ -> (forall x, x ∈ a -> valid σ x) ->
  acyclic (gabs.newSlice σ a).1.
Proof.
  intros Hwf [rank [Hrm Hrs]] Ha.
  destruct (rank_bound_list rank a) as [b Hb].
  assert (Hfresh : forall w, valid σ w -> w <> gabs.SliceRef (gabs.next σ)).
  { intros w Hw. by apply valid_not_fresh. }
  exists (fun c => if decide (c = gabs.SliceRef (gabs.next σ)) then b else rank c).
  split; simpl.
  - intros l m k w Hm Hk Hw.
    rewrite decide_False by (apply Hfresh; by eapply (maps_valid _ Hwf)).
    by eapply Hrm.
  - intros l a' w Ha' Hin Hw.
    destruct (decide (gabs.next σ = l)) as [<-|Hne].
    + rewrite lookup_insert_eq in Ha'. injection Ha' as <-.
      rewrite decide_True by done. rewrite decide_False by (apply Hfresh; auto). auto.
    + rewrite lookup_insert_ne in Ha' by done.
      rewrite decide_False by congruence.
      rewrite decide_False by (apply Hfresh; by eapply (slices_valid _ Hwf)).
      by eapply Hrs.
Qed.

Lemma acyclic_newMap (σ : gabs.store) (m : gmap string gabs.value) :
  wellFormed σ -> acyclic σ -> (forall k x, m !! k = Some x -> valid σ x) ->
  acyclic (gabs.newMap σ m).1.
Proof.
  intros Hwf [rank [Hrm Hrs]] Hm.
  destruct (rank_bound_map rank m) as [b Hb].
  assert (Hfresh : forall w, valid σ w -> w <> gabs.MapRef (gabs.next σ)).
  { intros w Hw. by apply valid_not_fresh. }
  exists (fun c => if decide (c = gabs.MapRef (gabs.next σ)) then b else rank c).
  split; simpl.
  - intros l m' k w Hm' Hk Hw.
    destruct (decide (gabs.next σ = l)) as [<-|Hne].
    + rewrite lookup_insert_eq in Hm'. injection Hm' as <-.
      rewrite decide_True by done. rewrite decide_False by (apply Hfresh; eauto). eauto.
    + rewrite lookup_insert_ne in Hm' by done.
      rewrite decide_False by congruence.
      rewrite decide_False by (apply Hfresh; by eapply (maps_valid _ Hwf)).
      by eapply Hrm.
  - intros l a w Ha Hin Hw.
    rewrite decide_False by (apply Hfresh; by eapply (slices_valid _ Hwf)).
    by eapply Hrs.
Qed.

Section Allocation.

(** A property of stores that every allocation of a cell holding values of
    the store keeps. *)
Variable I : gabs.store -> Prop.

Hypothesis I_newMap : forall σ m,
  wellFormed σ -> I σ -> (forall k x, m !! k = Some x -> valid σ x) -> I (gabs.newMap σ m).1.

Hypothesis I_newSlice : forall σ a,
  wellFormed σ -> I σ -> (forall x, x ∈ a -> valid σ x) -> I (gabs.newSlice σ a).1.

(** Decoding allocates only. *)
Lemma load_allocates (j : gabs.json) :
  forall σ, wellFormed σ -> I σ -> I (gabs.load j σ).1.
Proof.
  induction j as [|b|lit|s|elems IH|fields IH] using json_induction; intros σ Hwf HI;
    try done.
  - cbn [gabs.load].
    match goal with |- context [?F elems σ] =>
      pose (each := F); change (F elems σ) with (each elems σ) end.
    assert (Heach : forall σ, wellFormed σ -> I σ ->
              wellFormed (each elems σ).1 /\ grows σ (each elems σ).1
              /\ I (each elems σ).1
              /\ forall x, x ∈ (each elems σ).2 -> valid (each elems σ).1 x).
    { clear σ Hwf HI. induction IH as [|x elems Hx _ IHl]; intros σ Hwf HI.
      - simpl. split; [done|]. split; [apply grows_refl|]. split; [done|].
        intros x Hx. by apply elem_of_nil in Hx.
      - unfold each. simpl. fold each.
        destruct (load_keeps x σ Hwf) as (Hwf1 & Hg1 & Hv1).
        specialize (Hx σ Hwf HI).
        destruct (gabs.load x σ) as [σ1 v1]. simpl in Hwf1, Hg1, Hv1, Hx.
        destruct (IHl σ1 Hwf1 Hx) as (Hwf2 & Hg2 & HI2 & Hv2).
        destruct (each elems σ1) as [σ2 vs]. simpl in *.
        split; [done|]. split; [by eapply grows_trans|]. split; [done|].
        intros y Hy. apply elem_of_cons in Hy as [->|Hy]; auto. }
    destruct (Heach σ Hwf HI) as (Hwf1 & Hg1 & HI1 & Hv1).
    destruct (each elems σ) as [σ1 vs]. simpl in Hwf1, Hg1, HI1, Hv1.
    by apply I_newSlice.
  - cbn [gabs.load].
    match goal with |- context [?F fields σ ∅] =>
      pose (each := F); change (F fields σ ∅) with (each fields σ ∅) end.
    assert (Heach : forall σ m, wellFormed σ -> I σ ->
              (forall k v, m !! k = Some v -> valid σ v) ->
              wellFormed (each fields σ m).1 /\ grows σ (each fields σ m).1
              /\ I (each fields σ m).1
              /\ forall k v, (each fields σ m).2 !! k = Some v -> valid (each fields σ m).1 v).
    { clear σ Hwf HI. induction IH as [|[k x] fields Hx _ IHl]; intros σ m Hwf HI Hm.
      - simpl. split; [done|]. split; [apply grows_refl | done].
      - unfold each. simpl. fold each. simpl in Hx.
        destruct (load_keeps x σ Hwf) as (Hwf1 & Hg1 & Hv1).
        specialize (Hx σ Hwf HI).
        destruct (gabs.load x σ) as [σ1 v1]. simpl in Hwf1, Hg1, Hv1, Hx.
        destruct (IHl σ1 (<[k := v1]> m) Hwf1 Hx) as (Hwf2 & Hg2 & HI2 & Hv2).
        { intros k' v' Hk. destruct (decide (k = k')) as [<-|Hne].
          - rewrite lookup_insert_eq in Hk. by injection Hk as <-.
          - rewrite lookup_insert_ne in Hk by done. eauto. }
        split; [done|]. split; [by eapply grows_trans | done]. }
    destruct (Heach σ ∅ Hwf HI) as (Hwf1 & Hg1 & HI1 & Hv1).
    { intros k v H. by rewrite lookup_empty in H. }
    destruct (each fields σ ∅) as [σ1 m]. simpl in Hwf1, Hg1, HI1, Hv1.
    by apply I_newMap.
Qed.

(** [Search] allocates only: the slices a wildcard segment collects. *)
Lemma Search_allocates (hierarchy : list string) :
  forall (σ : gabs.store) (object : gabs.value),
    wellFormed σ -> I σ -> valid σ object -> I (gabs.Search σ object hierarchy).1.
Proof.
  induction hierarchy as [|pathSeg rest IH]; intros σ object Hwf HI Ho; [done|].
  cbn [gabs.Search].
  destruct object as [| | | | |l|l]; try done.
  - destruct ((gabs.maps σ !!! l) !! pathSeg) as [o|] eqn:Hlook; [|done].
    apply IH; [done..|]. by eapply map_entry_valid.
  - cbv zeta.
    assert (Helems : forall x, x ∈ (gabs.slices σ !!! l : list gabs.value) -> valid σ x).
    { intros x Hx. by eapply slice_elem_valid. }
    destruct (bool_decide (pathSeg = "*")).
    + match goal with |- context [?F (gabs.slices σ !!! l) σ []] =>
        pose (each := F);
        change (F (gabs.slices σ !!! l) σ []) with (each (gabs.slices σ !!! l) σ [])
      end.
      assert (Heach : forall vals σ tmp, wellFormed σ -> I σ ->
                (forall x, x ∈ vals -> valid σ x) -> (forall x, x ∈ tmp -> valid σ x) ->
                wellFormed (each vals σ tmp).1 /\ grows σ (each vals σ tmp).1
                /\ I (each vals σ tmp).1
                /\ forall x, x ∈ (each vals σ tmp).2 -> valid (each vals σ tmp).1 x).
      { clear σ Hwf HI Ho Helems.
        induction vals as [|val vals IHl]; intros σ tmp Hwf HI Hvals Htmp.
        - simpl. split; [done|]. split; [apply grows_refl | done].
        - assert (Hval : valid σ val) by (apply Hvals; left).
          assert (Hvals' : forall x, x ∈ vals -> valid σ x) by (intros x Hx; apply Hvals; by right).
          unfold each. simpl. fold each.
          destruct rest as [|seg rest].
          + apply IHl; [done..|].
            intros x Hx. apply elem_of_app in Hx as [Hx|Hx]; [auto|].
            by apply list_elem_of_singleton in Hx as ->.
          + destruct (Search_keeps (seg :: rest) σ val Hwf Hval) as (Hwf1 & Hg1 & Hv1).
            specialize (IH σ val Hwf HI Hval).
            destruct (gabs.Search σ val (seg :: rest)) as [σ1 [d|]]; simpl in Hwf1, Hg1, Hv1, IH.
            * destruct (IHl σ1 (tmp ++ [d]) Hwf1 IH) as (Hwf2 & Hg2 & HI2 & Hv2); [by auto| |].
              { intros x Hx. apply elem_of_app in Hx as [Hx|Hx]; [auto|].
                by apply list_elem_of_singleton in Hx as ->. }
              split; [done|]. split; [by eapply grows_trans | done].
            * destruct (IHl σ1 tmp Hwf1 IH) as (Hwf2 & Hg2 & HI2 & Hv2); [by auto..|].
              split; [done|]. split; [by eapply grows_trans | done]. }
      destruct (Heach (gabs.slices σ !!! l) σ [] Hwf HI Helems) as (Hwf1 & Hg1 & HI1 & Hv1).
      { intros x Hx. by apply elem_of_nil in Hx. }
      destruct (each (gabs.slices σ !!! l) σ []) as [σ1 tmpArray]. simpl in Hwf1, Hg1, HI1, Hv1.
      destruct tmpArray as [|d tmpArray]; [done|].
      by apply I_newSlice.
    + destruct (strconv.Atoi pathSeg) as [index [e|]]; [done|].
      destruct (index <? 0); [done|].
      destruct ((gabs.slices σ !!! l : list gabs.value) !! Z.to_nat index) as [o|] eqn:Hlook;
        [|done].
      apply IH; [done..|]. apply Helems. by eapply list_elem_of_lookup_2.
Qed.

End Allocation.

Lemma load_acyclic (j : gabs.json) (σ : gabs.store) :
  wellFormed σ -> acyclic σ -> acyclic (gabs.load j σ).1.
Proof. apply (load_allocates acyclic); [apply acyclic_newMap | apply acyclic_newSlice]. Qed.

Lemma Search_acyclic (hierarchy : list string) (σ : gabs.store) (object : gabs.value) :
  wellFormed σ -> acyclic σ -> valid σ object ->
  acyclic (gabs.Search σ object hierarchy).1.
Proof. apply (Search_allocates acyclic). apply acyclic_newSlice. Qed.

(** The loop over the children keeps a store that has no cycle so, when
    the path has no append segment and every write succeeds. *)
Lemma eachChild_acyclic (children : list gabs.value) (path value : string)
    (vt : jsonparser.ValueType) :
  appendFree path ->
  forall σ, wellFormed σ -> acyclic σ -> (forall x, x ∈ children -> valid σ x) ->
    (eachChild σ children path value vt).2 = None ->
    acyclic (eachChild σ children path value vt).1.2.
Proof.
  intros Hfree. induction children as [|child children IH]; intros σ Hwf Hac Hch Hok; [done|].
  cbn [eachChild] in *.
  assert (Hchild : valid σ child) by (apply Hch; left).
  destruct (SetP_keeps σ child (getKeyValue value vt) path Hwf Hchild) as (Hwf1 & Hg1 & _).
  { by destruct vt. }
  fold (setPathway σ child path value vt) in Hwf1, Hg1.
  destruct (setPathway σ child path value vt) as [[σ1 c1] [e|]] eqn:Hset; [done|].
  simpl in Hwf1, Hg1.
  assert (Hac1 : acyclic σ1).
  { unfold setPathway, gabs.SetP in Hset.
    eapply (Set'_round_trip _ σ child); [exact Hwf | exact Hac | exact Hchild | | exact Hfree
                                         | exact Hset |]; by destruct vt. }
  specialize (IH σ1 Hwf1 Hac1).
  destruct (eachChild σ1 children path value vt) as [[tr σ2] err]. simpl in *.
  apply IH; [|done]. intros x Hx. apply Hg1, Hch. by right.
Qed.

End AcyclicFacts.

Section PassReadsBack.

Import StringsFacts StoreFacts FrameFacts RoundTrip AcyclicFacts.

Variable isLetterOrDigit : Z -> bool.
Variable ToCamel : string -> string.
Variable Get : string -> list string -> string * jsonparser.ValueType * Z * option error.
Variable Unmarshal : string -> gabs.json + error.

Local Abbreviation Lookup := (LookupConfigurationValue isLetterOrDigit ToCamel Get).
Local Abbreviation Rules := (eachRule isLetterOrDigit ToCamel Get).
Local Abbreviation Iterate := (IterateOverJson isLetterOrDigit ToCamel Get Unmarshal).

(** The rules keep a store that has no cycle so, when no rule writes at a
    path with an append segment and every rule succeeds. *)
Lemma eachRule_acyclic (f : ConfigurationFile) (rules : list ConfigurationFileReplacement) :
  Forall (fun v => appendFree (writePath v)) rules ->
  forall σ parsed, wellFormed σ -> acyclic σ -> valid σ parsed ->
    (Rules f rules σ parsed).2 = None ->
    acyclic (Rules f rules σ parsed).1.1.2.
Proof.
  induction 1 as [|v rules Hv _ IH]; intros σ parsed Hwf Hac Hp Hok; [done|].
  cbn [eachRule] in *. unfold writePath in Hv.
  destruct (Lookup f v) as [[value dt] [e|]]; [done|].
  destruct (strings.Contains (Match v) ".*").
  - destruct (_ !! 0%nat) as [part0|]; [|done].
    destruct (_ !! 1%nat) as [part1|]; [|done].
    unfold gabs.Path in *.
    destruct (Search_keeps (gabs.DotPathToSlice (strings.Trim part0 ".")) σ parsed Hwf Hp)
      as (Hwf1 & Hg1 & Hv1).
    pose proof (Search_acyclic (gabs.DotPathToSlice (strings.Trim part0 ".")) σ parsed
                  Hwf Hac Hp) as Hac1.
    destruct (gabs.Search σ parsed _) as [σ1 node]. simpl in Hwf1, Hg1, Hv1, Hac1.
    assert (Hch : forall x, x ∈ gabs.Children σ1 node -> valid σ1 x) by by apply Children_valid.
    destruct (eachChild_keeps (gabs.Children σ1 node) (strings.Trim part1 ".") value dt
                σ1 Hwf1 Hch) as [Hwf2 Hg2].
    pose proof (eachChild_acyclic (gabs.Children σ1 node) (strings.Trim part1 ".") value dt
                  Hv σ1 Hwf1 Hac1 Hch) as Hac2.
    destruct (eachChild σ1 _ _ value dt) as [[tr σ2] [e|]]; [done|].
    simpl in Hwf2, Hg2, Hac2.
    specialize (IH σ2 parsed Hwf2 (Hac2 eq_refl) (Hg2 _ (Hg1 _ Hp))).
    destruct (Rules f rules σ2 parsed) as [[[tr' σ3] p3] err']. simpl in *. by apply IH.
  - destruct (setPathway_keeps σ parsed (Match v) value dt Hwf Hp) as (Hwf1 & Hg1 & Hv1).
    destruct (setPathway σ parsed (Match v) value dt) as [[σ1 p1] [e|]] eqn:Hset; [done|].
    simpl in Hwf1, Hg1, Hv1.
    assert (Hac1 : acyclic σ1).
    { unfold setPathway, gabs.SetP in Hset.
      eapply (Set'_round_trip _ σ parsed); [exact Hwf | exact Hac | exact Hp | | exact Hv
                                            | exact Hset |]; by destruct dt. }
    specialize (IH σ1 p1 Hwf1 Hac1 Hv1).
    destruct (Rules f rules σ1 p1) as [[[tr' σ3] p3] err']. simpl in *. by apply IH.
Qed.

(** X10: the last rule of a pass has the last word.  When the pass
    succeeds, its last rule has no wildcard marker and no rule writes at a
    path with an append segment, then the path [Match] of the last rule, read
    from the container the pass returns, yields the value the rule resolved
    to, coerced by the type of the rule. *)
Theorem X10_last_rule_reads_back (f : ConfigurationFile) (data : string) (j : gabs.json)
    (before : list ConfigurationFileReplacement) (r : ConfigurationFileReplacement)
    (tr : list event) (σ : gabs.store) (parsed : gabs.value) :
  Unmarshal data = inl j ->
  Replace f = before ++ [r] ->
  Forall (fun v => appendFree (writePath v)) (Replace f) ->
  strings.Contains (Match r) ".*" = false ->
  Iterate f data = (tr, Some (σ, parsed), None) ->
  exists (value : string) (dt : jsonparser.ValueType),
    Lookup f r = (value, dt, None) /\
    gabs.Path σ parsed (Match r) = (σ, Some (getKeyValue value dt)).
Proof.
  intros Hj Hf Hfree Hplain Hrun.
  unfold IterateOverJson, ParseJSON in Hrun. rewrite Hj, Hf in Hrun.
  rewrite Hf in Hfree. apply Forall_app in Hfree as [Hbefore Hr].
  rewrite Forall_singleton in Hr. unfold writePath in Hr. rewrite Hplain in Hr.
  destruct (load_keeps j gabs.emptyStore emptyStore_wf) as (Hwf0 & _ & Hv0).
  pose proof (load_acyclic j gabs.emptyStore emptyStore_wf emptyStore_acyclic) as Hac0.
  destruct (gabs.load j gabs.emptyStore) as [σ0 p0]. simpl in Hwf0, Hv0, Hac0.
  rewrite eachRule_app in Hrun.
  destruct (eachRule_keeps isLetterOrDigit ToCamel Get f before σ0 p0 Hwf0 Hv0)
    as (Hwf1 & _ & Hv1).
  pose proof (eachRule_acyclic f before Hbefore σ0 p0 Hwf0 Hac0 Hv0) as Hac1.
  destruct (Rules f before σ0 p0) as [[[tr1 σ1] p1] [e|]]; [done|].
  simpl in Hwf1, Hv1, Hac1. specialize (Hac1 eq_refl).
  cbn [eachRule] in Hrun. rewrite Hplain in Hrun.
  destruct (Lookup f r) as [[value dt] [e|]]; [done|].
  exists value, dt. split; [done|].
  destruct (setPathway σ1 p1 (Match r) value dt) as [[σ2 p2] [e|]] eqn:Hset; [done|].
  injection Hrun as _ <- <-.
  unfold setPathway, gabs.SetP in Hset. unfold gabs.Path.
  eapply (Set'_round_trip _ σ1 p1); [exact Hwf1 | exact Hac1 | exact Hv1 | | exact Hr
                                     | exact Hset]; by destruct dt.
Qed.

End PassReadsBack.

Module XmlFacts.

Import StringsFacts RegexpFacts.

Lemma wordSpan_spec (s w r : string) :
  xmlregexp.wordSpan s = (w, r) ->
  s = w +:+ r /\ allBytes regexp.isWord w = true /\ startsWith regexp.isWord r = false.
Proof.
  revert w r. induction s as [|c s IH]; intros w r H; simpl in H.
  - by injection H as <- <-.
  - destruct (regexp.isWord c) eqn:Hc.
    + destruct (xmlregexp.wordSpan s) as [w' r']. injection H as <- <-.
      destruct (IH w' r' eq_refl) as (-> & Hw & Hr).
      rewrite append_cons. simpl. by rewrite Hc.
    + injection H as <- <-. by rewrite append_nil_l.
Qed.

Lemma wordSpan_app (w r : string) :
  allBytes regexp.isWord w = true -> startsWith regexp.isWord r = false ->
  xmlregexp.wordSpan (w +:+ r) = (w, r).
Proof.
  intros Hw Hr. induction w as [|c w IH].
  - rewrite append_nil_l. destruct r as [|c r]; [done|]. simpl in *. by rewrite Hr.
  - simpl in Hw. apply andb_true_iff in Hw as [Hc Hw].
    rewrite append_cons. simpl. by rewrite Hc, (IH Hw).
Qed.

Lemma closing_iff (s : string) : xmlregexp.closing s = true <-> s = "']".
Proof. apply String.eqb_eq. Qed.

Lemma dotStar_sound (s g : string) :
  xmlregexp.dotStar s = Some g -> s = g +:+ "']" /\ allBytes notNewline g = true.
Proof.
  revert g. induction s as [|c s IH]; intros g H; [done|].
  cbn [xmlregexp.dotStar] in H. cbv zeta in H.
  assert (Hhere : (if xmlregexp.closing (String c s) then Some "" else None) = Some g ->
                  String c s = g +:+ "']" /\ allBytes notNewline g = true).
  { destruct (xmlregexp.closing (String c s)) eqn:Hcl; [|done].
    intros [= <-]. apply closing_iff in Hcl. by rewrite Hcl. }
  destruct (eqb_byte c "010") eqn:Hnl; [by apply Hhere|].
  destruct (xmlregexp.dotStar s) as [g'|]; [|by apply Hhere].
  injection H as <-. destruct (IH g' eq_refl) as (-> & Hg).
  rewrite append_cons. split; [done|]. simpl. unfold notNewline at 1. by rewrite Hnl.
Qed.

Lemma dotStar_complete (g : string) :
  allBytes notNewline g = true -> xmlregexp.dotStar (g +:+ "']") = Some g.
Proof.
  induction g as [|c g IH]; intros Hg; [done|].
  simpl in Hg. apply andb_true_iff in Hg as [Hc Hg].
  rewrite append_cons. cbn [xmlregexp.dotStar]. cbv zeta.
  unfold notNewline in Hc. apply negb_true_iff in Hc. by rewrite Hc, (IH Hg).
Qed.

End XmlFacts.

(** X8: [xmlValueMatchRegex] matches exactly the texts [[name='value']]
    with a name of one or more word characters and a value without a
    newline, and its groups are the name and the value; the value may hold
    quotes and brackets of its own. *)
Theorem X8_xml_value_pattern (s name value : string) :
  xmlregexp.FindStringSubmatch s = Some (name, value) <->
  s = "[" +:+ name +:+ "='" +:+ value +:+ "']" /\
  name <> "" /\
  allBytes regexp.isWord name = true /\
  allBytes notNewline value = true.
Proof.
  unfold xmlregexp.FindStringSubmatch. split.
  - intros H.
    destruct (regexp.literal "[" s) as [s1|] eqn:H1; [|done].
    apply RegexpFacts.literal_Some in H1 as ->.
    destruct (xmlregexp.wordSpan s1) as [w s2] eqn:H2.
    apply XmlFacts.wordSpan_spec in H2 as (-> & Hw & _).
    destruct w as [|c w]; [done|].
    destruct (regexp.literal "='" s2) as [s3|] eqn:H3; [|done].
    apply RegexpFacts.literal_Some in H3 as ->.
    destruct (xmlregexp.dotStar s3) as [g|] eqn:H4; [|done].
    apply XmlFacts.dotStar_sound in H4 as (-> & Hg).
    by injection H as <- <-.
  - intros (-> & Hne & Hw & Hg).
    rewrite RegexpFacts.literal_app.
    rewrite XmlFacts.wordSpan_app by done.
    destruct name as [|c name]; [done|].
    rewrite RegexpFacts.literal_app.
    by rewrite XmlFacts.dotStar_complete.
Qed.

Module WriteFacts.

Import StringsFacts StoreFacts FrameFacts.



(** [Set] leaves the container its object, unless the object was [nil]. *)
Lemma setLoop_same_root
    (rec : gabs.store -> gabs.value -> gabs.value -> list string
           -> gabs.store * gabs.value * option error)
    (hierarchy : list string) (v : gabs.value) :
  (forall σ g w t, g <> gabs.Nil -> (0 < t)%nat ->
     (rec σ g w (take t hierarchy)).1.2 = g) ->
  forall (rest : list string) (target : nat) (σ : gabs.store) (g object : gabs.value),
    g <> gabs.Nil ->
    (gabs.setLoop rec hierarchy v target rest σ g object).1.2 = g.
Proof.
  intros Hrec. induction rest as [|pathSeg rest IH]; intros target σ g object Hg; [done|].
  cbn [gabs.setLoop]. cbv zeta.
  destruct object as [| | | | |l|l]; try done.
  - destruct rest; [by apply IH|].
    destruct (_ !! pathSeg) as [[]|]; try by apply IH.
    all: destruct (gabs.newMap σ ∅); by apply IH.
  - destruct (bool_decide (pathSeg = "-")).
    + destruct (target <? 1)%nat eqn:Ht; [done|].
      destruct (if match rest with [] => true | _ => false end
                then (σ, v) else gabs.newMap σ ∅) as [σ1 object].
      destruct (gabs.newSlice σ1 _) as [σ2 marray'].
      pose proof (Hrec σ2 g marray' target Hg) as Hr.
      destruct (rec σ2 g marray' (take target hierarchy)) as [[σ3 g3] [e'|]];
        simpl in Hr; rewrite Hr by (apply Nat.ltb_ge in Ht; lia); [done|].
      by apply IH.
    + destruct (strconv.Atoi pathSeg) as [index [e'|]]; [done|].
      destruct (index <? 0); [done|]. destruct (_ <=? index); [done|].
      destruct rest; [by apply IH|].
      destruct (_ !! Z.to_nat index) as [[]|]; try done; by apply IH.
Qed.

Lemma Set'_same_root (fuel : nat) :
  forall (σ : gabs.store) (g v : gabs.value) (hierarchy : list string),
    g <> gabs.Nil -> hierarchy <> [] ->
    (gabs.Set' fuel σ g v hierarchy).1.2 = g.
Proof.
  induction fuel as [|fuel IH]; intros σ g v hierarchy Hg Hh.
  - by destruct hierarchy.
  - destruct hierarchy as [|seg hierarchy]; [done|].
    cbn [gabs.Set'].
    assert (Heq : match g with gabs.Nil => gabs.newMap σ ∅ | _ => (σ, g) end = (σ, g))
      by by destruct g.
    rewrite Heq. apply setLoop_same_root; [|done].
    intros σ2 g2 w t Hg2 Ht. apply IH; [done|].
    destruct t; [lia|]. done.
Qed.

Section Writes.

(** A property of stores that every step of a write keeps: the allocation
    of a cell, the assignment to a key of a map, and the assignment to an
    index within the bounds of an array. *)
Variable I : gabs.store -> Prop.

Hypothesis I_newMap : forall σ m,
  wellFormed σ -> I σ -> (forall k x, m !! k = Some x -> valid σ x) -> I (gabs.newMap σ m).1.

Hypothesis I_newSlice : forall σ a,
  wellFormed σ -> I σ -> (forall x, x ∈ a -> valid σ x) -> I (gabs.newSlice σ a).1.

Hypothesis I_storeMap : forall σ l k v,
  wellFormed σ -> I σ -> valid σ (gabs.MapRef l) -> valid σ v ->
  I (gabs.storeMap σ l (<[k := v]> (gabs.maps σ !!! l))).

Hypothesis I_storeSlice : forall σ l (i : nat) v,
  wellFormed σ -> I σ -> valid σ (gabs.SliceRef l) -> valid σ v ->
  (i < length (gabs.slices σ !!! l : list gabs.value))%nat ->
  I (gabs.storeSlice σ l (<[i := v]> (gabs.slices σ !!! l))).

Lemma setLoop_preserves
    (rec : gabs.store -> gabs.value -> gabs.value -> list string
           -> gabs.store * gabs.value * option error)
    (hierarchy : list string) (v : gabs.value) :
  (forall σ g w h, wellFormed σ -> valid σ g -> valid σ w ->
     keeps σ (rec σ g w h).1.1 (rec σ g w h).1.2) ->
  (forall σ g w h, wellFormed σ -> I σ -> valid σ g -> valid σ w -> I (rec σ g w h).1.1) ->
  forall (rest : list string) (target : nat) (σ : gabs.store) (g object : gabs.value),
    wellFormed σ -> I σ -> valid σ g -> valid σ v -> valid σ object ->
    I (gabs.setLoop rec hierarchy v target rest σ g object).1.1.
Proof.
  intros Hrec HrecI.
  induction rest as [|pathSeg rest IH]; intros target σ g object Hwf HI Hg Hv Ho; [done|].
  cbn [gabs.setLoop]. cbv zeta.
  destruct object as [| | | | |l|l]; try done.
  - (* a map *)
    assert (Hput : forall w, valid σ w ->
              wellFormed (gabs.storeMap σ l (<[pathSeg := w]> (gabs.maps σ !!! l)))).
    { intros w Hw. apply storeMap_wf; [done..|].
      intros k x Hk. destruct (decide (pathSeg = k)) as [<-|Hne].
      - rewrite lookup_insert_eq in Hk. by injection Hk as <-.
      - rewrite lookup_insert_ne in Hk by done. by eapply map_entry_valid. }
    destruct rest as [|seg rest].
    + apply IH; [by apply Hput | by apply I_storeMap | by apply storeMap_grows..].
    + assert (Hfresh : I
        (gabs.setLoop rec hierarchy v (S target) (seg :: rest)
           (gabs.storeMap (gabs.newMap σ ∅).1 l
              (<[pathSeg := (gabs.newMap σ ∅).2]> (gabs.maps σ !!! l))) g
           (gabs.newMap σ ∅).2).1.1).
      { destruct (newMap_empty_keeps σ Hwf) as (Hwf1 & Hg1 & Hv1).
        assert (HI1 : I (gabs.newMap σ ∅).1).
        { apply I_newMap; [done..|]. intros k x Hk. by rewrite lookup_empty in Hk. }
        assert (Hl : l <> gabs.next σ).
        { apply (maps_below _ Hwf) in Ho. lia. }
        assert (Hsame : gabs.maps σ !!! l
                        = (gabs.maps (gabs.newMap σ ∅).1 !!! l : gmap string gabs.value)).
        { simpl. by rewrite lookup_total_insert_ne. }
        rewrite Hsame.
        apply IH.
        - apply storeMap_wf; [done | by apply Hg1 |].
          intros k x Hk. destruct (decide (pathSeg = k)) as [<-|Hne].
          + rewrite lookup_insert_eq in Hk. by injection Hk as <-.
          + rewrite lookup_insert_ne in Hk by done. rewrite <- Hsame in Hk.
            apply Hg1. by eapply map_entry_valid.
        - apply I_storeMap; [done | done | by apply Hg1 | done].
        - by apply storeMap_grows, Hg1.
        - by apply storeMap_grows, Hg1.
        - by apply storeMap_grows. }
      destruct ((gabs.maps σ !!! l) !! pathSeg) as [o|] eqn:Hlook; [|exact Hfresh].
      assert (Hval : valid σ o) by by eapply map_entry_valid.
      destruct o; try exact Hfresh; by apply IH.
  - (* a slice *)
    destruct (bool_decide (pathSeg = "-")).
    + destruct (target <? 1)%nat; [done|].
      assert (Hobj : exists σ1 object,
                (if match rest with [] => true | _ => false end
                 then (σ, v) else gabs.newMap σ ∅) = (σ1, object)
                /\ keeps σ σ1 object /\ I σ1).
      { destruct rest.
        - exists σ, v. split; [done|]. split; [by apply keeps_refl | done].
        - eexists _, _. split; [reflexivity|]. split; [by apply newMap_empty_keeps|].
          apply I_newMap; [done..|]. intros k x Hk. by rewrite lookup_empty in Hk. }
      destruct Hobj as (σ1 & object & -> & (Hwf1 & Hg1 & Ho1) & HI1).
      assert (Helems : forall x, x ∈ (gabs.slices σ !!! l ++ [object] : list gabs.value) ->
                valid σ1 x).
      { intros x Hx. apply elem_of_app in Hx as [Hx|Hx].
        - apply Hg1. by eapply slice_elem_valid.
        - apply list_elem_of_singleton in Hx as ->. done. }
      destruct (newSlice_wf σ1 (gabs.slices σ !!! l ++ [object]) Hwf1 Helems) as [Hwf2 Hv2].
      pose proof (newSlice_grows σ1 (gabs.slices σ !!! l ++ [object])) as Hg2.
      pose proof (I_newSlice σ1 (gabs.slices σ !!! l ++ [object]) Hwf1 HI1 Helems) as HI2.
      destruct (gabs.newSlice σ1 _) as [σ2 marray'] eqn:Hnew. simpl in Hwf2, Hv2, Hg2, HI2.
      pose proof (Hrec σ2 g marray' (take target hierarchy) Hwf2 (Hg2 _ (Hg1 _ Hg)) Hv2) as Hk.
      pose proof (HrecI σ2 g marray' (take target hierarchy) Hwf2 HI2 (Hg2 _ (Hg1 _ Hg)) Hv2)
        as HI3.
      destruct (rec σ2 g marray' (take target hierarchy)) as [[σ3 g3] err].
      simpl in Hk, HI3. destruct Hk as (Hwf3 & Hg3 & Hv3).
      destruct err as [e|]; [done|].
      apply IH; [done | done | done | by apply Hg3, Hg2, Hg1 | by apply Hg3, Hg2].
    + destruct (strconv.Atoi pathSeg) as [index [e|]]; [done|].
      destruct (index <? 0) eqn:Hneg; [done|].
      destruct (_ <=? index) eqn:Hlen; [done|].
      destruct rest as [|seg rest].
      * apply IH; [| | by apply storeSlice_grows..].
        -- apply storeSlice_wf; [done..|].
           intros x Hx. apply list_elem_of_lookup in Hx as [i Hi].
           destruct (decide (i = Z.to_nat index)) as [->|Hne].
           ++ apply list_lookup_insert_Some in Hi as [(_ & <- & _)|[? _]]; done.
           ++ rewrite list_lookup_insert_ne in Hi by done.
              eapply slice_elem_valid; [done|]. by eapply list_elem_of_lookup_2.
        -- apply I_storeSlice; [done..|]. lia.
      * destruct ((gabs.slices σ !!! l : list gabs.value) !! Z.to_nat index) as [o|] eqn:Hlook;
          [|done].
        assert (Hval : valid σ o).
        { eapply slice_elem_valid; [done|]. by eapply list_elem_of_lookup_2. }
        destruct o; try done; by apply IH.
Qed.

Lemma Set'_preserves (fuel : nat) :
  forall (σ : gabs.store) (g v : gabs.value) (hierarchy : list string),
    wellFormed σ -> I σ -> valid σ g -> valid σ v ->
    I (gabs.Set' fuel σ g v hierarchy).1.1.
Proof.
  induction fuel as [|fuel IH]; intros σ g v hierarchy Hwf HI Hg Hv.
  - by destruct hierarchy.
  - destruct hierarchy as [|seg hierarchy]; [done|].
    cbn [gabs.Set'].
    assert (Hroot : exists σ1 g1,
              match g with gabs.Nil => gabs.newMap σ ∅ | _ => (σ, g) end = (σ1, g1)
              /\ keeps σ σ1 g1 /\ I σ1).
    { destruct g; try (eexists _, _; split; [reflexivity|]; split; [by apply keeps_refl|done]).
      eexists _, _. split; [reflexivity|]. split; [by apply newMap_empty_keeps|].
      apply I_newMap; [done..|]. intros k x Hk. by rewrite lookup_empty in Hk. }
    destruct Hroot as (σ1 & g1 & -> & (Hwf1 & Hg1 & Hv1) & HI1).
    apply setLoop_preserves; auto.
    intros σ2 g2 w h Hwf2 Hg2 Hw. by apply Set'_keeps.
Qed.

Lemma eachChild_preserves (children : list gabs.value) (path value : string)
    (vt : jsonparser.ValueType) :
  forall σ, wellFormed σ -> I σ -> (forall x, x ∈ children -> valid σ x) ->
    I (eachChild σ children path value vt).1.2.
Proof.
  induction children as [|child children IH]; intros σ Hwf HI Hch; [done|].
  cbn [eachChild].
  assert (Hchild : valid σ child) by (apply Hch; left).
  assert (Hv : valid σ (getKeyValue value vt)) by by destruct vt.
  destruct (SetP_keeps σ child (getKeyValue value vt) path Hwf Hchild Hv) as (Hwf1 & Hg1 & _).
  pose proof (Set'_preserves (length (gabs.DotPathToSlice path)) σ child
                (getKeyValue value vt) (gabs.DotPathToSlice path) Hwf HI Hchild Hv) as HI1.
  fold (gabs.SetP σ child (getKeyValue value vt) path) in HI1.
  fold (setPathway σ child path value vt) in Hwf1, Hg1, HI1.
  destruct (setPathway σ child path value vt) as [[σ1 c1] [e|]]; [done|].
  simpl in Hwf1, Hg1, HI1.
  specialize (IH σ1 Hwf1 HI1).
  destruct (eachChild σ1 children path value vt) as [[tr σ2] err]. simpl in *.
  apply IH. intros x Hx. apply Hg1, Hch. by right.
Qed.

End Writes.

Lemma keepsKeys_refl (σ : gabs.store) : keepsKeys σ σ.
Proof. split; intros l x Hx; exists x; by split. Qed.

Lemma keepsKeys_newMap (σ0 σ : gabs.store) (m : gmap string gabs.value) :
  wellFormed σ -> keepsKeys σ0 σ -> keepsKeys σ0 (gabs.newMap σ m).1.
Proof.
  intros Hwf [Hm Hs]. split; simpl; [|done].
  intros l m0 Hm0. destruct (Hm l m0 Hm0) as (m' & Hm' & Hk).
  exists m'. split; [|done]. rewrite lookup_insert_ne; [done|].
  assert (l < gabs.next σ)%nat by (apply (maps_below _ Hwf); eauto). lia.
Qed.

Lemma keepsKeys_newSlice (σ0 σ : gabs.store) (a : list gabs.value) :
  wellFormed σ -> keepsKeys σ0 σ -> keepsKeys σ0 (gabs.newSlice σ a).1.
Proof.
  intros Hwf [Hm Hs]. split; simpl; [done|].
  intros l a0 Ha0. destruct (Hs l a0 Ha0) as (a' & Ha' & Hk).
  exists a'. split; [|done]. rewrite lookup_insert_ne; [done|].
  assert (l < gabs.next σ)%nat by (apply (slices_below _ Hwf); eauto). lia.
Qed.

Lemma keepsKeys_storeMap (σ0 σ : gabs.store) (l : nat) (k : string) (v : gabs.value) :
  keepsKeys σ0 σ ->
  keepsKeys σ0 (gabs.storeMap σ l (<[k := v]> (gabs.maps σ !!! l))).
Proof.
  intros [Hm Hs]. split; simpl; [|done].
  intros l0 m0 Hm0. destruct (Hm l0 m0 Hm0) as (m' & Hm' & Hk).
  destruct (decide (l = l0)) as [<-|Hne].
  - eexists. split; [by rewrite lookup_insert_eq|].
    intros k' Hk'. rewrite lookup_total_alt, Hm'. simpl.
    apply lookup_insert_is_Some. destruct (decide (k = k')); auto.
  - exists m'. split; [|done]. by rewrite lookup_insert_ne.
Qed.

Lemma keepsKeys_storeSlice (σ0 σ : gabs.store) (l i : nat) (v : gabs.value) :
  keepsKeys σ0 σ ->
  keepsKeys σ0 (gabs.storeSlice σ l (<[i := v]> (gabs.slices σ !!! l))).
Proof.
  intros [Hm Hs]. split; simpl; [done|].
  intros l0 a0 Ha0. destruct (Hs l0 a0 Ha0) as (a' & Ha' & Hk).
  destruct (decide (l = l0)) as [<-|Hne].
  - eexists. split; [by rewrite lookup_insert_eq|].
    rewrite length_insert, lookup_total_alt, Ha'. done.
  - exists a'. split; [|done]. by rewrite lookup_insert_ne.
Qed.

End WriteFacts.

Section PassKeeps.

Import StringsFacts StoreFacts FrameFacts AcyclicFacts WriteFacts.

Variable isLetterOrDigit : Z -> bool.
Variable ToCamel : string -> string.
Variable Get : string -> list string -> string * jsonparser.ValueType * Z * option error.
Variable Unmarshal : string -> gabs.json + error.

Local Abbreviation Lookup := (LookupConfigurationValue isLetterOrDigit ToCamel Get).
Local Abbreviation Rules := (eachRule isLetterOrDigit ToCamel Get).
Local Abbreviation Iterate := (IterateOverJson isLetterOrDigit ToCamel Get Unmarshal).






Lemma setPathway_same_root (σ : gabs.store) (c : gabs.value) (path value : string)
    (vt : jsonparser.ValueType) :
  c <> gabs.Nil -> (setPathway σ c path value vt).1.2 = c.
Proof.
  intros Hc. apply Set'_same_root; [done|]. apply DotPathToSlice_nonempty.
Qed.

Lemma eachRule_same_root (f : ConfigurationFile) (rules : list ConfigurationFileReplacement) :
  forall σ parsed, parsed <> gabs.Nil -> (Rules f rules σ parsed).1.2 = parsed.
Proof.
  induction rules as [|v rules IH]; intros σ parsed Hp; [done|].
  cbn [eachRule].
  destruct (Lookup f v) as [[value dt] [e'|]]; [done|].
  destruct (strings.Contains (Match v) ".*").
  - destruct (_ !! 0%nat) as [part0|]; [|done].
    destruct (_ !! 1%nat) as [part1|]; [|done].
    destruct (gabs.Path _ _ _) as [σ1 node].
    destruct (eachChild _ _ _ _ _) as [[tr σ2] [e'|]]; [done|].
    specialize (IH σ2 parsed Hp).
    by destruct (Rules f rules σ2 parsed) as [[[tr' σ'] p'] err'].
  - pose proof (setPathway_same_root σ parsed (Match v) value dt Hp) as Hs.
    destruct (setPathway _ _ _ _ _) as [[σ1 p1] [e'|]]; simpl in Hs; subst p1; [done|].
    specialize (IH σ1 parsed Hp).
    by destruct (Rules f rules σ1 parsed) as [[[tr' σ'] p'] err'].
Qed.

Section Invariant.

Variable I : gabs.store -> Prop.

Hypothesis I_newMap : forall σ m,
  wellFormed σ -> I σ -> (forall k x, m !! k = Some x -> valid σ x) -> I (gabs.newMap σ m).1.

Hypothesis I_newSlice : forall σ a,
  wellFormed σ -> I σ -> (forall x, x ∈ a -> valid σ x) -> I (gabs.newSlice σ a).1.

Hypothesis I_storeMap : forall σ l k v,
  wellFormed σ -> I σ -> valid σ (gabs.MapRef l) -> valid σ v ->
  I (gabs.storeMap σ l (<[k := v]> (gabs.maps σ !!! l))).

Hypothesis I_storeSlice : forall σ l (i : nat) v,
  wellFormed σ -> I σ -> valid σ (gabs.SliceRef l) -> valid σ v ->
  (i < length (gabs.slices σ !!! l : list gabs.value))%nat ->
  I (gabs.storeSlice σ l (<[i := v]> (gabs.slices σ !!! l))).

(** What every step of a write keeps, the rules keep. *)
Lemma eachRule_preserves (f : ConfigurationFile) (rules : list ConfigurationFileReplacement) :
  forall σ parsed, wellFormed σ -> I σ -> valid σ parsed ->
    I (Rules f rules σ parsed).1.1.2.
Proof.
  induction rules as [|v rules IH]; intros σ parsed Hwf HI Hp; [done|].
  cbn [eachRule].
  destruct (Lookup f v) as [[value dt] [e|]]; [done|].
  destruct (strings.Contains (Match v) ".*").
  - destruct (_ !! 0%nat) as [part0|]; [|done].
    destruct (_ !! 1%nat) as [part1|]; [|done].
    unfold gabs.Path.
    destruct (Search_keeps (gabs.DotPathToSlice (strings.Trim part0 ".")) σ parsed Hwf Hp)
      as (Hwf1 & Hg1 & Hv1).
    pose proof (Search_allocates I I_newSlice (gabs.DotPathToSlice (strings.Trim part0 "."))
                  σ parsed Hwf HI Hp) as HI1.
    destruct (gabs.Search σ parsed _) as [σ1 node]. simpl in Hwf1, Hg1, Hv1, HI1.
    assert (Hch : forall x, x ∈ gabs.Children σ1 node -> valid σ1 x) by by apply Children_valid.
    destruct (eachChild_keeps (gabs.Children σ1 node) (strings.Trim part1 ".") value dt
                σ1 Hwf1 Hch) as [Hwf2 Hg2].
    pose proof (eachChild_preserves I I_newMap I_newSlice I_storeMap I_storeSlice
                  (gabs.Children σ1 node) (strings.Trim part1 ".") value dt
                  σ1 Hwf1 HI1 Hch) as HI2.
    destruct (eachChild σ1 _ _ value dt) as [[tr σ2] [e|]]; [done|].
    simpl in Hwf2, Hg2, HI2.
    specialize (IH σ2 parsed Hwf2 HI2 (Hg2 _ (Hg1 _ Hp))).
    by destruct (Rules f rules σ2 parsed) as [[[tr' σ3] p3] err'].
  - destruct (setPathway_keeps σ parsed (Match v) value dt Hwf Hp) as (Hwf1 & Hg1 & Hv1).
    assert (Hv : valid σ (getKeyValue value dt)) by by destruct dt.
    pose proof (Set'_preserves I I_newMap I_newSlice I_storeMap I_storeSlice
                  (length (gabs.DotPathToSlice (Match v))) σ parsed
                  (getKeyValue value dt) (gabs.DotPathToSlice (Match v)) Hwf HI Hp Hv) as HI1.
    fold (gabs.SetP σ parsed (getKeyValue value dt) (Match v)) in HI1.
    fold (setPathway σ parsed (Match v) value dt) in HI1.
    destruct (setPathway σ parsed (Match v) value dt) as [[σ1 p1] [e|]]; [done|].
    simpl in Hwf1, Hg1, Hv1, HI1.
    specialize (IH σ1 p1 Hwf1 HI1 Hv1).
    by destruct (Rules f rules σ1 p1) as [[[tr' σ3] p3] err'].
Qed.

End Invariant.

Lemma foldl_insert_keys (fields : list (string * gabs.json)) :
  forall (t : gmap string gabs.tree) (k : string),
    is_Some (t !! k) \/ k ∈ fields.*1 ->
    is_Some (foldl (fun t kv => <[kv.1 := treeOf kv.2]> t) t fields !! k).
Proof.
  induction fields as [|[k0 x] fields IH]; intros t k [H|H]; simpl.
  - done.
  - by apply elem_of_nil in H.
  - apply IH. left. apply lookup_insert_is_Some. destruct (decide (k0 = k)); auto.
  - apply IH. simpl in H. apply elem_of_cons in H as [->|H]; [|by right].
    left. rewrite lookup_insert_eq. eauto.
Qed.

(** X11: a pass removes no field of the document.  When the document is an
    object and the pass succeeds, the container it returns holds an object
    that has every top-level field of the input; what a field holds may have
    changed. *)
Theorem X11_top_level_fields_are_kept (f : ConfigurationFile) (data : string)
    (fields : list (string * gabs.json)) :
  Unmarshal data = inl (gabs.JObject fields) ->
  (Iterate f data).2 = None ->
  exists tm : gmap string gabs.tree,
    document (Iterate f data) = Some (gabs.TMap tm) /\
    forall k, k ∈ fields.*1 -> is_Some (tm !! k).
Proof.
  intros Hj Hok. unfold document. unfold IterateOverJson, ParseJSON in *. rewrite Hj in *.
  destruct (load_keeps (gabs.JObject fields) gabs.emptyStore emptyStore_wf) as (Hwf0 & _ & Hv0).
  destruct (load_reads (gabs.JObject fields) gabs.emptyStore emptyStore_wf) as [_ Hread].
  specialize (Hread (S (S (gabs.next (gabs.load (gabs.JObject fields) gabs.emptyStore).1)))
                ltac:(lia)).
  assert (Hroot : exists l, (gabs.load (gabs.JObject fields) gabs.emptyStore).2 = gabs.MapRef l).
  { cbn [gabs.load]. match goal with |- context [?F fields gabs.emptyStore ∅] =>
      destruct (F fields gabs.emptyStore ∅) as [σ1 m] end. simpl. eauto. }
  destruct Hroot as [l Hl].
  destruct (gabs.load (gabs.JObject fields) gabs.emptyStore) as [σ0 p0].
  simpl in Hwf0, Hv0, Hread, Hl. subst p0.
  change (gabs.TMap (gabs.read (S (gabs.next σ0)) σ0
                       <$> (gabs.maps σ0 !!! l : gmap string gabs.value))
          = gabs.TMap (foldl (fun t kv => <[kv.1 := treeOf kv.2]> t) ∅ fields)) in Hread.
  injection Hread as Hread.
  pose proof (eachRule_preserves (keepsKeys σ0)
                (fun σ m Hwf HI _ => keepsKeys_newMap σ0 σ m Hwf HI)
                (fun σ a Hwf HI _ => keepsKeys_newSlice σ0 σ a Hwf HI)
                (fun σ l k v _ HI _ _ => keepsKeys_storeMap σ0 σ l k v HI)
                (fun σ l i v _ HI _ _ _ => keepsKeys_storeSlice σ0 σ l i v HI)
                f (Replace f) σ0 (gabs.MapRef l) Hwf0 (keepsKeys_refl σ0) Hv0) as [Hkeys _].
  pose proof (eachRule_same_root f (Replace f) σ0 (gabs.MapRef l) ltac:(done)) as Hsame.
  destruct (Rules f (Replace f) σ0 (gabs.MapRef l)) as [[[tr σ1] p1] [e|]]; [done|].
  simpl in Hkeys, Hsame. subst p1. cbn [fst snd].
  destruct Hv0 as [m0 Hm0].
  destruct (Hkeys l m0 Hm0) as (m1 & Hm1 & Hsub).
  eexists. split; [reflexivity|].
  intros k Hk. rewrite lookup_fmap, lookup_total_alt, Hm1. simpl.
  apply fmap_is_Some, Hsub.
  pose proof (foldl_insert_keys fields ∅ k (or_intror Hk)) as Hk0.
  rewrite <- Hread in Hk0.
  rewrite lookup_fmap, lookup_total_alt, Hm0 in Hk0. simpl in Hk0.
  by apply fmap_is_Some in Hk0.
Qed.

End PassKeeps.

Module AtomicFacts.

Import StringsFacts StoreFacts FrameFacts.

(** The loop of [Set] that starts in an empty map does not fail. *)
Lemma setLoop_fresh_ok
    (rec : gabs.store -> gabs.value -> gabs.value -> list string
           -> gabs.store * gabs.value * option error)
    (hierarchy : list string) (v : gabs.value) :
  forall (rest : list string) (target : nat) (σ : gabs.store) (g : gabs.value) (l : nat),
    (l < gabs.next σ)%nat -> gabs.maps σ !! l = Some ∅ ->
    (gabs.setLoop rec hierarchy v target rest σ g (gabs.MapRef l)).2 = None.
Proof.
  induction rest as [|pathSeg rest IH]; intros target σ g l Hl Hempty; [done|].
  cbn [gabs.setLoop]. cbv zeta.
  assert (Hm : gabs.maps σ !!! l = (∅ : gmap string gabs.value)).
  { by rewrite lookup_total_alt, Hempty. }
  rewrite Hm.
  destruct rest as [|seg rest]; [done|].
  rewrite lookup_empty. cbn [gabs.newMap].
  apply IH; simpl; [lia|].
  rewrite lookup_insert_ne by lia. by rewrite lookup_insert_eq.
Qed.

(** The loop of [Set] on a path without an append segment, when it fails,
    has changed nothing. *)
Lemma setLoop_atomic
    (rec : gabs.store -> gabs.value -> gabs.value -> list string
           -> gabs.store * gabs.value * option error)
    (hierarchy : list string) (v : gabs.value) :
  forall (rest : list string) (target : nat) (σ : gabs.store) (g object : gabs.value)
         (e : error),
    wellFormed σ -> valid σ object -> "-" ∉ rest ->
    (gabs.setLoop rec hierarchy v target rest σ g object).2 = Some e ->
    (gabs.setLoop rec hierarchy v target rest σ g object).1 = (σ, g).
Proof.
  induction rest as [|pathSeg rest IH]; intros target σ g object e Hwf Ho Hdash He; [done|].
  assert (Hdash' : "-" ∉ rest) by (intros H; apply Hdash; by right).
  assert (Hseg : pathSeg <> "-") by (intros ->; apply Hdash; by left).
  revert He. cbn [gabs.setLoop]. cbv zeta.
  destruct object as [| | | | |l|l]; try done.
  - destruct rest as [|seg rest]; [done|].
    assert (Hnew : forall e,
      (gabs.setLoop rec hierarchy v (S target) (seg :: rest)
         (gabs.storeMap (gabs.newMap σ ∅).1 l
            (<[pathSeg := gabs.MapRef (gabs.next σ)]> (gabs.maps σ !!! l))) g
         (gabs.MapRef (gabs.next σ))).2 <> Some e).
    { intros e'. rewrite setLoop_fresh_ok; [done| |].
      - simpl. lia.
      - simpl. apply (maps_below _ Hwf) in Ho.
        rewrite lookup_insert_ne by lia. by rewrite lookup_insert_eq. }
    destruct ((gabs.maps σ !!! l) !! pathSeg) as [o|] eqn:Hlook.
    + assert (Hvo : valid σ o) by by eapply map_entry_valid.
      destruct o; try (intros He; by apply Hnew in He); intros He; by eapply IH.
    + intros He. by apply Hnew in He.
  - rewrite bool_decide_eq_false_2 by done.
    destruct (strconv.Atoi pathSeg) as [index [e'|]]; [done|].
    destruct (index <? 0); [done|]. destruct (_ <=? index); [done|].
    destruct rest as [|seg rest]; [done|].
    destruct ((gabs.slices σ !!! l : list gabs.value) !! Z.to_nat index) as [o|] eqn:Hlook;
      [|done].
    assert (Hvo : valid σ o).
    { eapply slice_elem_valid; [done|]. by eapply list_elem_of_lookup_2. }
    destruct o; try done; intros He; by eapply IH.
Qed.

End AtomicFacts.

(** X13: a write that fails changes nothing.  When [setPathway] fails on a
    container of a well-formed store, at a path no segment of which is the
    append marker [-], the store and the container are what they were: no
    object has been created on the way to the error. *)
Theorem X13_failed_write_changes_nothing (σ : gabs.store) (c : gabs.value)
    (path value : string) (vt : jsonparser.ValueType) (e : error) :
  wellFormed σ -> valid σ c -> appendFree path ->
  (setPathway σ c path value vt).2 = Some e ->
  (setPathway σ c path value vt).1 = (σ, c).
Proof.
  unfold setPathway, gabs.SetP, appendFree. intros Hwf Hc Hfree.
  pose proof (FrameFacts.DotPathToSlice_nonempty path) as Hne.
  destruct (gabs.DotPathToSlice path) as [|seg hierarchy]; [done|].
  cbn [length gabs.Set'].
  destruct (decide (c = gabs.Nil)) as [->|Hnil].
  - cbn [gabs.newMap]. intros He. exfalso. revert He.
    rewrite AtomicFacts.setLoop_fresh_ok; [done| |]; simpl; [lia|].
    by rewrite lookup_insert_eq.
  - assert (Heq : match c with gabs.Nil => gabs.newMap σ ∅ | _ => (σ, c) end = (σ, c))
      by by destruct c.
    rewrite Heq. by apply AtomicFacts.setLoop_atomic.
Qed.

Module TreeFacts.

Import StringsFacts StoreFacts FrameFacts RoundTrip AcyclicFacts WriteFacts.

Lemma below_refl (A : list pos) (addr : gabs.value -> option (list pos)) (c : gabs.value) :
  addr c = Some A -> below A addr c.
Proof. intros H. exists []. by rewrite app_nil_r. Qed.

Lemma below_step (A : list pos) (s : pos) (addr : gabs.value -> option (list pos))
    (c : gabs.value) :
  below (A ++ [s]) addr c -> below A addr c.
Proof. intros [q Hq]. exists (s :: q). by rewrite Hq, <- app_assoc. Qed.

Lemma apart_below (A B : list pos) (addr : gabs.value -> option (list pos)) (c : gabs.value) :
  apart A B -> below A addr c -> ~ below B addr c.
Proof. intros Hap [q Hq] [q' Hq']. apply (Hap q q'). congruence. Qed.

Lemma apart_sym (A B : list pos) : apart A B -> apart B A.
Proof. intros H q q' Heq. by apply (H q' q). Qed.

Lemma apart_siblings (p : list pos) (s t : pos) : s <> t -> apart (p ++ [s]) (p ++ [t]).
Proof.
  intros Hst q q' Heq. rewrite <- !app_assoc in Heq.
  apply app_inv_head in Heq. simpl in Heq. congruence.
Qed.

Lemma place_new (addr : gabs.value -> option (list pos)) (n : gabs.value)
    (P : option (list pos)) :
  place addr n P n = P.
Proof. unfold place. by rewrite decide_True. Qed.

Lemma place_old (addr : gabs.value -> option (list pos)) (n c : gabs.value)
    (P : option (list pos)) :
  c <> n -> place addr n P c = addr c.
Proof. intros H. unfold place. by rewrite decide_False. Qed.

(** A cell that is allocated has no place yet. *)
Lemma fresh_unplaced (addr : gabs.value -> option (list pos)) (σ : gabs.store) :
  wellFormed σ -> addressed addr σ ->
  addr (gabs.MapRef (gabs.next σ)) = None /\ addr (gabs.SliceRef (gabs.next σ)) = None.
Proof.
  intros Hwf Had. split.
  - destruct (addr (gabs.MapRef (gabs.next σ))) eqn:H; [|done].
    destruct (addr_valid _ _ Had (gabs.MapRef (gabs.next σ))) as [_ Hv]; [by rewrite H|].
    by destruct (valid_not_fresh σ _ Hwf Hv).
  - destruct (addr (gabs.SliceRef (gabs.next σ))) eqn:H; [|done].
    destruct (addr_valid _ _ Had (gabs.SliceRef (gabs.next σ))) as [_ Hv]; [by rewrite H|].
    by destruct (valid_not_fresh σ _ Hwf Hv).
Qed.

(** A new map with a place of its own, holding placed values. *)
Lemma addressed_newMap (addr : gabs.value -> option (list pos)) (σ : gabs.store)
    (m : gmap string gabs.value) (P : option (list pos)) :
  wellFormed σ -> addressed addr σ ->
  (forall k w, m !! k = Some w -> valid σ w) ->
  (forall k w p, m !! k = Some w -> isRef w = true -> P = Some p ->
     addr w = Some (p ++ [Key k])) ->
  addressed (place addr (gabs.MapRef (gabs.next σ)) P) (gabs.newMap σ m).1.
Proof.
  intros Hwf Had Hm HP.
  assert (Hfresh : forall w, valid σ w -> w <> gabs.MapRef (gabs.next σ)).
  { intros w Hw. by apply valid_not_fresh. }
  split.
  - intros c Hc. destruct (decide (c = gabs.MapRef (gabs.next σ))) as [->|Hne].
    + split; [done|]. simpl. rewrite lookup_insert_eq. eauto.
    + rewrite place_old in Hc by done.
      destruct (addr_valid _ _ Had c Hc) as [Hr Hv]. split; [done|]. by apply newMap_grows.
  - simpl. intros l m' k w p Hm' Hk Hw Hp.
    destruct (decide (gabs.next σ = l)) as [<-|Hne].
    + rewrite lookup_insert_eq in Hm'. injection Hm' as <-.
      rewrite place_new in Hp.
      rewrite place_old by (apply Hfresh; eauto). eauto.
    + rewrite lookup_insert_ne in Hm' by done.
      rewrite place_old in Hp by congruence.
      rewrite place_old by (apply Hfresh; by eapply (maps_valid _ Hwf)).
      by eapply (addr_key _ _ Had).
  - simpl. intros l a i w p Ha Hi Hw Hp.
    rewrite place_old in Hp by done.
    rewrite place_old
      by (apply Hfresh; eapply (slices_valid _ Hwf); [done|]; by eapply list_elem_of_lookup_2).
    by eapply (addr_index _ _ Had).
Qed.

Lemma addressed_newSlice (addr : gabs.value -> option (list pos)) (σ : gabs.store)
    (a : list gabs.value) (P : option (list pos)) :
  wellFormed σ -> addressed addr σ ->
  (forall w, w ∈ a -> valid σ w) ->
  (forall i w p, a !! i = Some w -> isRef w = true -> P = Some p ->
     addr w = Some (p ++ [Index i])) ->
  addressed (place addr (gabs.SliceRef (gabs.next σ)) P) (gabs.newSlice σ a).1.
Proof.
  intros Hwf Had Ha HP.
  assert (Hfresh : forall w, valid σ w -> w <> gabs.SliceRef (gabs.next σ)).
  { intros w Hw. by apply valid_not_fresh. }
  split.
  - intros c Hc. destruct (decide (c = gabs.SliceRef (gabs.next σ))) as [->|Hne].
    + split; [done|]. simpl. rewrite lookup_insert_eq. eauto.
    + rewrite place_old in Hc by done.
      destruct (addr_valid _ _ Had c Hc) as [Hr Hv]. split; [done|]. by apply newSlice_grows.
  - simpl. intros l m k w p Hm Hk Hw Hp.
    rewrite place_old in Hp by done.
    rewrite place_old by (apply Hfresh; by eapply (maps_valid _ Hwf)).
    by eapply (addr_key _ _ Had).
  - simpl. intros l a' i w p Ha' Hi Hw Hp.
    destruct (decide (gabs.next σ = l)) as [<-|Hne].
    + rewrite lookup_insert_eq in Ha'. injection Ha' as <-.
      rewrite place_new in Hp.
      rewrite place_old by (apply Hfresh, Ha; by eapply list_elem_of_lookup_2). eauto.
    + rewrite lookup_insert_ne in Ha' by done.
      rewrite place_old in Hp by congruence.
      rewrite place_old
        by (apply Hfresh; eapply (slices_valid _ Hwf); [done|]; by eapply list_elem_of_lookup_2).
      by eapply (addr_index _ _ Had).
Qed.

(** A cell allocated without a place leaves the places as they are. *)
Lemma place_none (addr : gabs.value -> option (list pos)) (n c : gabs.value) :
  addr n = None -> place addr n None c = addr c.
Proof. intros H. unfold place. destruct (decide (c = n)) as [->|]; done. Qed.

Lemma addressed_ext (addr addr' : gabs.value -> option (list pos)) (σ : gabs.store) :
  (forall c, addr' c = addr c) -> addressed addr σ -> addressed addr' σ.
Proof.
  intros He [H1 H2 H3]. split.
  - intros c. rewrite He. apply H1.
  - intros l m k w p. rewrite !He. apply H2.
  - intros l a i w p. rewrite !He. apply H3.
Qed.

Lemma addressed_alloc_slice (addr : gabs.value -> option (list pos)) (σ : gabs.store)
    (a : list gabs.value) :
  wellFormed σ -> addressed addr σ -> (forall w, w ∈ a -> valid σ w) ->
  addressed addr (gabs.newSlice σ a).1.
Proof.
  intros Hwf Had Ha. destruct (fresh_unplaced addr σ Hwf Had) as [_ Hs].
  eapply addressed_ext; [|by apply (addressed_newSlice addr σ a None)].
  intros c. symmetry. by apply place_none.
Qed.

Lemma addressed_alloc_map (addr : gabs.value -> option (list pos)) (σ : gabs.store)
    (m : gmap string gabs.value) :
  wellFormed σ -> addressed addr σ -> (forall k w, m !! k = Some w -> valid σ w) ->
  addressed addr (gabs.newMap σ m).1.
Proof.
  intros Hwf Had Hm. destruct (fresh_unplaced addr σ Hwf Had) as [Hmm _].
  eapply addressed_ext; [|by apply (addressed_newMap addr σ m None)].
  intros c. symmetry. by apply place_none.
Qed.

(** Assigning to a key or an index keeps the places, when the value is
    no reference or has the place of that key or index. *)
Lemma addressed_storeMap (addr : gabs.value -> option (list pos)) (σ : gabs.store)
    (l : nat) (k : string) (v : gabs.value) :
  addressed addr σ ->
  (isRef v = true -> valid σ v /\
     forall p, addr (gabs.MapRef l) = Some p -> addr v = Some (p ++ [Key k])) ->
  addressed addr (gabs.storeMap σ l (<[k := v]> (gabs.maps σ !!! l))).
Proof.
  intros Had Hv. split.
  - intros c Hc. destruct (addr_valid _ _ Had c Hc) as [Hr Hvc]. split; [done|].
    by apply storeMap_grows.
  - simpl. intros l' m' k' w p Hm' Hk Hw Hp.
    destruct (decide (l = l')) as [<-|Hne].
    + rewrite lookup_insert_eq in Hm'. injection Hm' as <-.
      destruct (decide (k = k')) as [<-|Hk'].
      * rewrite lookup_insert_eq in Hk. injection Hk as <-. by apply Hv.
      * rewrite lookup_insert_ne in Hk by done.
        rewrite lookup_total_alt in Hk.
        destruct (gabs.maps σ !! l) as [m|] eqn:Hm; simpl in Hk;
          [|by rewrite lookup_empty in Hk].
        by eapply (addr_key _ _ Had).
    + rewrite lookup_insert_ne in Hm' by done. by eapply (addr_key _ _ Had).
  - simpl. apply (addr_index _ _ Had).
Qed.

Lemma addressed_storeSlice (addr : gabs.value -> option (list pos)) (σ : gabs.store)
    (l i : nat) (v : gabs.value) :
  addressed addr σ -> isRef v = false ->
  addressed addr (gabs.storeSlice σ l (<[i := v]> (gabs.slices σ !!! l))).
Proof.
  intros Had Hv. split.
  - intros c Hc. destruct (addr_valid _ _ Had c Hc) as [Hr Hvc]. split; [done|].
    by apply storeSlice_grows.
  - simpl. apply (addr_key _ _ Had).
  - simpl. intros l' a j w p Ha Hj Hw Hp.
    destruct (decide (l = l')) as [<-|Hne].
    + rewrite lookup_insert_eq in Ha. injection Ha as <-.
      destruct (decide (i = j)) as [<-|Hij].
      * apply list_lookup_insert_Some in Hj as [(_ & <- & _)|[? _]]; [congruence|done].
      * rewrite list_lookup_insert_ne in Hj by done.
        rewrite lookup_total_alt in Hj.
        destruct (gabs.slices σ !! l) as [a|] eqn:Hs; simpl in Hj; [|done].
        by eapply (addr_index _ _ Had).
    + rewrite lookup_insert_ne in Ha by done. by eapply (addr_index _ _ Had).
Qed.

(** A new and empty map hung below a map takes the place of the key it
    hangs from. *)
Lemma addressed_new_child (addr : gabs.value -> option (list pos)) (σ : gabs.store)
    (l : nat) (k : string) :
  wellFormed σ -> addressed addr σ -> valid σ (gabs.MapRef l) ->
  addressed (place addr (gabs.MapRef (gabs.next σ))
               ((fun p => p ++ [Key k]) <$> addr (gabs.MapRef l)))
            (gabs.storeMap (gabs.newMap σ ∅).1 l
               (<[k := gabs.MapRef (gabs.next σ)]> (gabs.maps σ !!! l))).
Proof.
  intros Hwf Had Hl.
  set (P := (fun p => p ++ [Key k]) <$> addr (gabs.MapRef l)).
  assert (Had1 : addressed (place addr (gabs.MapRef (gabs.next σ)) P) (gabs.newMap σ ∅).1).
  { apply addressed_newMap; [done..| |].
    - intros k' w Hk. by rewrite lookup_empty in Hk.
    - intros k' w p Hk. by rewrite lookup_empty in Hk. }
  assert (Hln : l <> gabs.next σ).
  { apply (maps_below _ Hwf) in Hl. lia. }
  assert (Hsame : gabs.maps σ !!! l
                  = (gabs.maps (gabs.newMap σ ∅).1 !!! l : gmap string gabs.value)).
  { simpl. by rewrite lookup_total_insert_ne. }
  rewrite Hsame. apply addressed_storeMap; [done|].
  intros _. split.
  - simpl. rewrite lookup_insert_eq. eauto.
  - intros p Hp. rewrite place_old in Hp by congruence.
    rewrite place_new. unfold P. by rewrite Hp.
Qed.

(** The loop of [Set] on a path without an append segment, writing a value
    that is no reference, when it succeeds: the cells keep their places, the
    cells it creates get theirs, and no cell is touched but those at or below
    the place the loop starts from. *)
Lemma setLoop_tree
    (rec : gabs.store -> gabs.value -> gabs.value -> list string
           -> gabs.store * gabs.value * option error)
    (hierarchy : list string) (v : gabs.value) :
  isRef v = false ->
  forall (rest : list string) (addr : gabs.value -> option (list pos)) (target : nat)
         (σ : gabs.store) (g object : gabs.value) (σ' : gabs.store) (g' : gabs.value),
    wellFormed σ -> addressed addr σ -> valid σ g -> valid σ v -> valid σ object ->
    "-" ∉ rest ->
    gabs.setLoop rec hierarchy v target rest σ g object = (σ', g', None) ->
    exists addr' : gabs.value -> option (list pos),
      addressed addr' σ' /\
      (forall c, valid σ c -> addr' c = addr c) /\
      (forall A, addr object = Some A ->
         forall c, valid σ c -> isRef c = true -> ~ below A addr c -> sameCell σ σ' c).
Proof.
  intros Hscalar.
  induction rest as [|pathSeg rest IH];
    intros addr target σ g object σ' g' Hwf Had Hg Hv Ho Hdash Hr.
  { simpl in Hr. injection Hr as <- <-. exists addr. split; [done|]. split; [done|].
    intros; apply sameCell_refl. }
  assert (Hdash' : "-" ∉ rest) by (intros H; apply Hdash; by right).
  assert (Hseg : pathSeg <> "-") by (intros ->; apply Hdash; by left).
  cbn [gabs.setLoop] in Hr. cbv zeta in Hr.
  destruct object as [| | | | |l|l]; try discriminate.
  - (* a map *)
    pose proof Ho as [m Hm].
    assert (Hmm : gabs.maps σ !!! l = m) by by rewrite lookup_total_alt, Hm.
    destruct rest as [|seg rest].
    + cbn [gabs.setLoop] in Hr. injection Hr as <- <-.
      exists addr. split; [apply addressed_storeMap; [done|congruence]|]. split; [done|].
      intros A HA c Hc Href Hnb. apply sameCell_storeMap. intros ->.
      apply Hnb. by apply below_refl.
    + assert (Hnew :
        gabs.setLoop rec hierarchy v (S target) (seg :: rest)
          (gabs.storeMap (gabs.newMap σ ∅).1 l
             (<[pathSeg := gabs.MapRef (gabs.next σ)]> (gabs.maps σ !!! l))) g
          (gabs.MapRef (gabs.next σ)) = (σ', g', None) ->
        exists addr' : gabs.value -> option (list pos),
          addressed addr' σ' /\
          (forall c, valid σ c -> addr' c = addr c) /\
          (forall A, addr (gabs.MapRef l) = Some A ->
             forall c, valid σ c -> isRef c = true -> ~ below A addr c -> sameCell σ σ' c)).
      { clear Hr. intros Hr.
        destruct (newMap_empty_keeps σ Hwf) as (Hwf1 & Hg1 & Hv1).
        set (σ1 := (gabs.newMap σ ∅).1) in *.
        set (n := gabs.next σ) in *.
        set (σ2 := gabs.storeMap σ1 l (<[pathSeg := gabs.MapRef n]> (gabs.maps σ !!! l))) in *.
        assert (Hwf2 : wellFormed σ2).
        { apply storeMap_wf; [done | by apply Hg1 |].
          intros k x Hk. destruct (decide (pathSeg = k)) as [<-|Hne].
          - rewrite lookup_insert_eq in Hk. by injection Hk as <-.
          - rewrite lookup_insert_ne in Hk by done. apply Hg1. by eapply map_entry_valid. }
        assert (Hg2 : grows σ σ2).
        { eapply grows_trans; [exact Hg1 | apply storeMap_grows]. }
        pose proof (addressed_new_child addr σ l pathSeg Hwf Had Ho) as Had2.
        set (addr1 := place addr (gabs.MapRef (gabs.next σ))
                        ((fun p => p ++ [Key pathSeg]) <$> addr (gabs.MapRef l))) in Had2.
        assert (Hkept : forall c, valid σ c -> addr1 c = addr c).
        { intros c Hc. unfold addr1. apply place_old. by apply valid_not_fresh. }
        destruct (IH addr1 (S target) σ2 g (gabs.MapRef n) σ' g' Hwf2 Had2)
          as (addr' & Had' & Hagree & Hframe);
          [by apply Hg2 | by apply Hg2 | by apply storeMap_grows | done | done |].
        exists addr'. split; [done|]. split.
        { intros c Hc. rewrite Hagree by by apply Hg2. by apply Hkept. }
        intros A HA c Hc Href Hnb.
        eapply sameCell_trans; [by apply sameCell_newMap|].
        eapply (sameCell_trans _ σ2).
        { apply (sameCell_storeMap σ1 l _ c). intros ->. apply Hnb. by apply below_refl. }
        apply (Hframe (A ++ [Key pathSeg])); [|by apply Hg2|done|].
        - unfold addr1. rewrite place_new, HA. done.
        - intros Hb. apply below_step in Hb. destruct Hb as [q Hq].
          rewrite Hkept in Hq by done. apply Hnb. by exists q. }
      destruct ((gabs.maps σ !!! l) !! pathSeg) as [o|] eqn:Hlook; [|by apply Hnew].
      assert (Hvo : valid σ o) by by eapply map_entry_valid.
      assert (Hold :
        isRef o = true ->
        gabs.setLoop rec hierarchy v (S target) (seg :: rest) σ g o = (σ', g', None) ->
        exists addr' : gabs.value -> option (list pos),
          addressed addr' σ' /\
          (forall c, valid σ c -> addr' c = addr c) /\
          (forall A, addr (gabs.MapRef l) = Some A ->
             forall c, valid σ c -> isRef c = true -> ~ below A addr c -> sameCell σ σ' c)).
      { clear Hr. intros Href Hr.
        destruct (IH addr (S target) σ g o σ' g' Hwf Had Hg Hv Hvo Hdash' Hr)
          as (addr' & Had' & Hagree & Hframe).
        exists addr'. split; [done|]. split; [done|].
        intros A HA c Hc Hrefc Hnb.
        apply (Hframe (A ++ [Key pathSeg])); [|done..|].
        - eapply (addr_key _ _ Had); [exact Hm| |done|done]. by rewrite <- Hmm.
        - intros Hb. apply Hnb. by eapply below_step. }
      destruct o; try (by apply Hnew); try (by apply Hold); by cbn in Hr.
  - (* a slice *)
    pose proof Ho as [a Ha].
    assert (Haa : gabs.slices σ !!! l = a) by by rewrite lookup_total_alt, Ha.
    rewrite bool_decide_eq_false_2 in Hr by done.
    destruct (strconv.Atoi pathSeg) as [index [e|]] eqn:HA; [discriminate|].
    destruct (index <? 0) eqn:Hneg; [discriminate|].
    destruct (Z.of_nat (length (gabs.slices σ !!! l : list gabs.value)) <=? index) eqn:Hlen;
      [discriminate|].
    destruct rest as [|seg rest].
    + cbn [gabs.setLoop] in Hr. injection Hr as <- <-.
      exists addr. split; [by apply addressed_storeSlice|]. split; [done|].
      intros A HA' c Hc Href Hnb. apply sameCell_storeSlice. intros ->.
      apply Hnb. by apply below_refl.
    + destruct ((gabs.slices σ !!! l : list gabs.value) !! Z.to_nat index) as [o|] eqn:Hlook;
        [|discriminate].
      assert (Hin : o ∈ a) by (rewrite <- Haa; by eapply list_elem_of_lookup_2).
      assert (Hvo : valid σ o) by by eapply (slices_valid _ Hwf).
      assert (Hold :
        isRef o = true ->
        gabs.setLoop rec hierarchy v (S target) (seg :: rest) σ g o = (σ', g', None) ->
        exists addr' : gabs.value -> option (list pos),
          addressed addr' σ' /\
          (forall c, valid σ c -> addr' c = addr c) /\
          (forall A, addr (gabs.SliceRef l) = Some A ->
             forall c, valid σ c -> isRef c = true -> ~ below A addr c -> sameCell σ σ' c)).
      { clear Hr. intros Href Hr.
        destruct (IH addr (S target) σ g o σ' g' Hwf Had Hg Hv Hvo Hdash' Hr)
          as (addr' & Had' & Hagree & Hframe).
        exists addr'. split; [done|]. split; [done|].
        intros A HA' c Hc Hrefc Hnb.
        apply (Hframe (A ++ [Index (Z.to_nat index)])); [|done..|].
        - eapply (addr_index _ _ Had); [exact Ha| |done|done]. by rewrite <- Haa.
        - intros Hb. apply Hnb. by eapply below_step. }
      destruct o; try (by apply Hold); try discriminate; by cbn in Hr.
Qed.

Lemma valid_same (σ σ' : gabs.store) (c : gabs.value) :
  wellFormed σ -> extends σ σ' -> valid σ c -> sameCell σ σ' c.
Proof.
  intros Hwf [_ Hext] Hc. destruct c as [| | | | |l|l]; try done; simpl.
  - apply Hext. by apply (maps_below _ Hwf).
  - apply Hext. by apply (slices_below _ Hwf).
Qed.

(** [Set] on a path without an append segment, writing a value that is no
    reference, when it succeeds.  A container that held [nil] gets a map at
    the place [P], and no cell that existed is touched. *)
Lemma Set'_tree (fuel : nat) (σ : gabs.store) (g v : gabs.value) (hierarchy : list string)
    (σ' : gabs.store) (g' : gabs.value) (addr : gabs.value -> option (list pos))
    (P : option (list pos)) :
  isRef v = false ->
  wellFormed σ -> addressed addr σ -> valid σ g -> valid σ v ->
  "-" ∉ hierarchy -> hierarchy <> [] ->
  gabs.Set' fuel σ g v hierarchy = (σ', g', None) ->
  exists addr' : gabs.value -> option (list pos),
    addressed addr' σ' /\
    (forall c, valid σ c -> addr' c = addr c) /\
    (g = gabs.Nil -> isRef g' = true /\ addr' g' = P /\
                     forall c, valid σ c -> sameCell σ σ' c) /\
    (g <> gabs.Nil -> g' = g) /\
    (forall A, addr g = Some A ->
       forall c, valid σ c -> isRef c = true -> ~ below A addr c -> sameCell σ σ' c).
Proof.
  intros Hscalar Hwf Had Hg Hv Hdash Hne Hr.
  destruct hierarchy as [|seg hierarchy]; [done|].
  destruct fuel as [|fuel]; [discriminate|].
  destruct (decide (g = gabs.Nil)) as [->|Hnil].
  - destruct (Set'_nil fuel σ v seg hierarchy) as (_ & Hg' & Hext).
    rewrite Hr in Hg', Hext. simpl in Hg', Hext. subst g'.
    cbn [gabs.Set' gabs.newMap] in Hr.
    destruct (newMap_empty_keeps σ Hwf) as (Hwf1 & Hg1 & Hv1).
    assert (Had1 : addressed (place addr (gabs.MapRef (gabs.next σ)) P) (gabs.newMap σ ∅).1).
    { apply addressed_newMap; [done..| |].
      - intros k' w Hk. by rewrite lookup_empty in Hk.
      - intros k' w p Hk. by rewrite lookup_empty in Hk. }
    destruct (setLoop_tree _ _ v Hscalar _ _ _ _ _ _ _ _ Hwf1 Had1 Hv1 (Hg1 _ Hv) Hv1 Hdash Hr)
      as (addr' & Had' & Hagree & _).
    exists addr'. split; [done|]. split.
    { intros c Hc. rewrite Hagree by by apply Hg1.
      apply place_old. by apply valid_not_fresh. }
    split.
    { intros _. split; [done|]. split.
      - rewrite Hagree by done. apply place_new.
      - intros c Hc. by apply valid_same. }
    split; [done|]. intros A HA. destruct (addr_valid _ _ Had gabs.Nil) as [? _]; [|done].
    by rewrite HA.
  - pose proof (Set'_same_root (S fuel) σ g v (seg :: hierarchy) Hnil ltac:(done)) as Hroot.
    rewrite Hr in Hroot. simpl in Hroot. subst g'.
    cbn [gabs.Set'] in Hr.
    assert (Heq : match g with gabs.Nil => gabs.newMap σ ∅ | _ => (σ, g) end = (σ, g))
      by by destruct g.
    rewrite Heq in Hr.
    destruct (setLoop_tree _ _ v Hscalar _ _ _ _ _ _ _ _ Hwf Had Hg Hv Hg Hdash Hr)
      as (addr' & Had' & Hagree & Hframe).
    exists addr'. split; [done|]. split; [done|]. split; [done|]. split; done.
Qed.

(** [Search] along a path without a wildcard segment leaves the store as
    it is, and from a placed cell it finds placed cells only. *)
Lemma Search_plain (hierarchy : list string) :
  "*" ∉ hierarchy ->
  forall (σ : gabs.store) (object : gabs.value) (addr : gabs.value -> option (list pos)),
    wellFormed σ -> addressed addr σ -> valid σ object ->
    (gabs.Search σ object hierarchy).1 = σ /\
    forall w, (gabs.Search σ object hierarchy).2 = Some w ->
      valid σ w /\
      ((isRef object = true -> is_Some (addr object)) -> isRef w = true -> is_Some (addr w)).
Proof.
  induction hierarchy as [|pathSeg rest IH]; intros Hstar σ object addr Hwf Had Ho.
  { split; [done|]. intros w [= <-]. split; [done|]. auto. }
  assert (Hstar' : "*" ∉ rest) by (intros H; apply Hstar; by right).
  assert (Hseg : pathSeg <> "*") by (intros ->; apply Hstar; by left).
  cbn [gabs.Search].
  destruct object as [| | | | |l|l]; try by split.
  - pose proof Ho as [m Hm].
    assert (Hmm : gabs.maps σ !!! l = m) by by rewrite lookup_total_alt, Hm.
    destruct ((gabs.maps σ !!! l) !! pathSeg) as [o|] eqn:Hlook; [|by split].
    assert (Hvo : valid σ o) by by eapply map_entry_valid.
    destruct (IH Hstar' σ o addr Hwf Had Hvo) as [Hs Hw]. split; [done|].
    intros w Hfound. destruct (Hw w Hfound) as [Hvw Hplaced]. split; [done|].
    intros Hobj Href. apply Hplaced; [|done].
    intros Hro. destruct (Hobj eq_refl) as [p Hp].
    erewrite (addr_key _ _ Had); [eauto|exact Hm| |done|exact Hp]. by rewrite <- Hmm.
  - pose proof Ho as [a Ha].
    assert (Haa : gabs.slices σ !!! l = a) by by rewrite lookup_total_alt, Ha.
    cbv zeta. rewrite bool_decide_eq_false_2 by done.
    destruct (strconv.Atoi pathSeg) as [index [e|]]; [by split|].
    destruct (index <? 0); [by split|].
    destruct ((gabs.slices σ !!! l : list gabs.value) !! Z.to_nat index) as [o|] eqn:Hlook;
      [|by split].
    assert (Hvo : valid σ o).
    { eapply slice_elem_valid; [done|]. by eapply list_elem_of_lookup_2. }
    destruct (IH Hstar' σ o addr Hwf Had Hvo) as [Hs Hw]. split; [done|].
    intros w Hfound. destruct (Hw w Hfound) as [Hvw Hplaced]. split; [done|].
    intros Hobj Href. apply Hplaced; [|done].
    intros Hro. destruct (Hobj eq_refl) as [p Hp].
    erewrite (addr_index _ _ Had); [eauto|exact Ha| |done|exact Hp]. by rewrite <- Haa.
Qed.

(** What [Search] finds along a path without a wildcard segment depends
    only on the cells at or below the place it starts from. *)
Lemma Search_frame (hierarchy : list string) :
  "*" ∉ hierarchy ->
  forall (σ σ' : gabs.store) (object r : gabs.value) (A : list pos)
         (addr : gabs.value -> option (list pos)),
    wellFormed σ -> addressed addr σ -> valid σ object ->
    (isRef object = true -> below A addr object) ->
    (forall c, valid σ c -> isRef c = true -> below A addr c -> sameCell σ σ' c) ->
    gabs.Search σ object hierarchy = (σ, Some r) ->
    gabs.Search σ' object hierarchy = (σ', Some r).
Proof.
  induction hierarchy as [|pathSeg rest IH];
    intros Hstar σ σ' object r A addr Hwf Had Ho Hbelow Hsame Hfound.
  { simpl in *. congruence. }
  assert (Hstar' : "*" ∉ rest) by (intros H; apply Hstar; by right).
  assert (Hseg : pathSeg <> "*") by (intros ->; apply Hstar; by left).
  cbn [gabs.Search] in *.
  destruct object as [| | | | |l|l]; try discriminate.
  - pose proof Ho as [m Hm].
    assert (Hmm : gabs.maps σ !!! l = m) by by rewrite lookup_total_alt, Hm.
    pose proof (Hsame (gabs.MapRef l) Ho eq_refl (Hbelow eq_refl)) as Hcell. simpl in Hcell.
    rewrite lookup_total_alt, Hcell, <- lookup_total_alt.
    destruct ((gabs.maps σ !!! l) !! pathSeg) as [o|] eqn:Hlook; [|discriminate].
    assert (Hvo : valid σ o) by by eapply map_entry_valid.
    eapply (IH Hstar' σ σ' o r A addr); try done.
    intros Hro. destruct (Hbelow eq_refl) as [q Hq].
    exists (q ++ [Key pathSeg]). rewrite app_assoc.
    eapply (addr_key _ _ Had); [exact Hm| |done|exact Hq]. by rewrite <- Hmm.
  - pose proof Ho as [a Ha].
    assert (Haa : gabs.slices σ !!! l = a) by by rewrite lookup_total_alt, Ha.
    pose proof (Hsame (gabs.SliceRef l) Ho eq_refl (Hbelow eq_refl)) as Hcell. simpl in Hcell.
    cbv zeta in *. rewrite bool_decide_eq_false_2 in * by done.
    rewrite lookup_total_alt, Hcell, <- lookup_total_alt.
    destruct (strconv.Atoi pathSeg) as [index [e|]]; [discriminate|].
    destruct (index <? 0); [discriminate|].
    destruct ((gabs.slices σ !!! l : list gabs.value) !! Z.to_nat index) as [o|] eqn:Hlook;
      [|discriminate].
    assert (Hvo : valid σ o).
    { eapply slice_elem_valid; [done|]. by eapply list_elem_of_lookup_2. }
    eapply (IH Hstar' σ σ' o r A addr); try done.
    intros Hro. destruct (Hbelow eq_refl) as [q Hq].
    exists (q ++ [Index (Z.to_nat index)]). rewrite app_assoc.
    eapply (addr_index _ _ Had); [exact Ha| |done|exact Hq]. by rewrite <- Haa.
Qed.

(** The children of a placed node have places that lie apart. *)
Lemma Children_placedApart (σ : gabs.store) (addr : gabs.value -> option (list pos))
    (node : gabs.value) :
  wellFormed σ -> addressed addr σ -> is_Some (addr node) ->
  placedApart addr (gabs.Children σ (Some node)).
Proof.
  intros Hwf Had [p Hp].
  destruct (addr_valid _ _ Had node) as [Href Hnode]; [by rewrite Hp|].
  destruct node as [| | | | |l|l]; try done; simpl.
  - destruct Hnode as [m Hm].
    assert (Hmm : gabs.maps σ !!! l = m) by by rewrite lookup_total_alt, Hm.
    rewrite Hmm.
    assert (Hentry : forall i c, (map_to_list m).*2 !! i = Some c ->
              exists k, (map_to_list m).*1 !! i = Some k /\ m !! k = Some c).
    { intros i c Hi. rewrite list_lookup_fmap in Hi.
      destruct (map_to_list m !! i) as [[k c']|] eqn:Hl; [|done].
      simpl in Hi. injection Hi as ->. exists k. split.
      - by rewrite list_lookup_fmap, Hl.
      - apply elem_of_map_to_list. by eapply list_elem_of_lookup_2. }
    split.
    + intros c Hc Hrc. apply list_elem_of_lookup in Hc as [i Hi].
      destruct (Hentry i c Hi) as (k & _ & Hk).
      erewrite (addr_key _ _ Had); eauto.
    + intros i j ci cj Ai Aj Hij Hi Hj HAi HAj.
      destruct (Hentry i ci Hi) as (ki & Hki & Hci).
      destruct (Hentry j cj Hj) as (kj & Hkj & Hcj).
      assert (Hri : isRef ci = true) by (apply (addr_valid _ _ Had); by rewrite HAi).
      assert (Hrj : isRef cj = true) by (apply (addr_valid _ _ Had); by rewrite HAj).
      rewrite (addr_key _ _ Had l m ki ci p Hm Hci Hri Hp) in HAi.
      rewrite (addr_key _ _ Had l m kj cj p Hm Hcj Hrj Hp) in HAj.
      injection HAi as <-. injection HAj as <-.
      apply apart_siblings. intros [= Heq]. subst kj.
      apply Hij. eapply NoDup_lookup; [apply (NoDup_fst_map_to_list m)|done..].
  - destruct Hnode as [a Ha].
    assert (Haa : gabs.slices σ !!! l = a) by by rewrite lookup_total_alt, Ha.
    rewrite Haa. split.
    + intros c Hc Hrc. apply list_elem_of_lookup in Hc as [i Hi].
      erewrite (addr_index _ _ Had); eauto.
    + intros i j ci cj Ai Aj Hij Hi Hj HAi HAj.
      assert (Hri : isRef ci = true) by (apply (addr_valid _ _ Had); by rewrite HAi).
      assert (Hrj : isRef cj = true) by (apply (addr_valid _ _ Had); by rewrite HAj).
      rewrite (addr_index _ _ Had l a i ci p Ha Hi Hri Hp) in HAi.
      rewrite (addr_index _ _ Had l a j cj p Ha Hj Hrj Hp) in HAj.
      injection HAi as <-. injection HAj as <-.
      apply apart_siblings. congruence.
Qed.

Lemma placedApart_cons (addr : gabs.value -> option (list pos)) (c : gabs.value)
    (cs : list gabs.value) :
  placedApart addr (c :: cs) ->
  placedApart addr cs /\
  (forall c' A A', c' ∈ cs -> addr c = Some A -> addr c' = Some A' -> apart A A').
Proof.
  intros [Hp Ha]. split; [split|].
  - intros c' Hc'. apply Hp. by right.
  - intros i j ci cj Ai Aj Hij Hi Hj. apply (Ha (S i) (S j)); [lia|done..].
  - intros c' A A' Hc' HA HA'. apply list_elem_of_lookup in Hc' as [j Hj].
    by apply (Ha 0%nat (S j) c c').
Qed.

Lemma placedApart_agree (addr addr' : gabs.value -> option (list pos)) (σ : gabs.store)
    (cs : list gabs.value) :
  (forall c, valid σ c -> addr' c = addr c) -> (forall c, c ∈ cs -> valid σ c) ->
  placedApart addr cs -> placedApart addr' cs.
Proof.
  intros Hagree Hcs [Hp Ha]. split.
  - intros c Hc Hr. rewrite Hagree by auto. auto.
  - intros i j ci cj Ai Aj Hij Hi Hj HAi HAj.
    rewrite Hagree in HAi by (apply Hcs; by eapply list_elem_of_lookup_2).
    rewrite Hagree in HAj by (apply Hcs; by eapply list_elem_of_lookup_2).
    by eapply Ha.
Qed.

(** The loop over children whose documents lie apart, on a path without an
    append or a wildcard segment, when every write succeeds: the path read
    from every child that is a map or an array yields the value written, and
    no cell is touched but at or below the place of a child. *)
Lemma eachChild_reads (path value : string) (vt : jsonparser.ValueType) :
  appendFree path -> starFree path ->
  forall (children : list gabs.value) (σ : gabs.store)
         (addr : gabs.value -> option (list pos)) (tr : list event) (σ' : gabs.store),
    wellFormed σ -> acyclic σ -> addressed addr σ ->
    (forall c, c ∈ children -> valid σ c) -> placedApart addr children ->
    eachChild σ children path value vt = (tr, σ', None) ->
    wellFormed σ' /\ acyclic σ' /\
    (exists addr', addressed addr' σ' /\ forall c, valid σ c -> addr' c = addr c) /\
    (forall c, c ∈ children -> isRef c = true ->
       gabs.Search σ' c (gabs.DotPathToSlice path) = (σ', Some (getKeyValue value vt))) /\
    (forall x, valid σ x -> isRef x = true ->
       (forall c A, c ∈ children -> addr c = Some A -> ~ below A addr x) ->
       sameCell σ σ' x).
Proof.
  intros Hfree Hstar.
  assert (Hv : isRef (getKeyValue value vt) = false) by by destruct vt.
  induction children as [|c children IH]; intros σ addr tr σ' Hwf Hac Had Hcs Hpa Hr.
  { simpl in Hr. injection Hr as _ <-. split; [done|]. split; [done|].
    split; [by exists addr|]. split.
    - intros c Hc. by apply elem_of_nil in Hc.
    - intros. apply sameCell_refl. }
  cbn [eachChild] in Hr.
  assert (Hc : valid σ c) by (apply Hcs; left).
  assert (Hvv : valid σ (getKeyValue value vt)) by by destruct vt.
  destruct (SetP_keeps σ c (getKeyValue value vt) path Hwf Hc Hvv) as (Hwf1 & Hg1 & _).
  fold (setPathway σ c path value vt) in Hwf1, Hg1.
  destruct (setPathway σ c path value vt) as [[σ1 c1] [e|]] eqn:Hset; [done|].
  simpl in Hwf1, Hg1.
  destruct (eachChild σ1 children path value vt) as [[tr' σ2] err] eqn:Hrest.
  injection Hr as _ <- ->.
  unfold setPathway, gabs.SetP in Hset.
  destruct (Set'_round_trip _ _ _ _ _ _ _ Hwf Hac Hc Hvv Hfree Hset) as (Hread1 & _ & Hac1).
  specialize (Hac1 Hv).
  destruct (Set'_tree _ _ _ _ _ _ _ addr None Hv Hwf Had Hc Hvv Hfree
              (DotPathToSlice_nonempty path) Hset)
    as (addr1 & Had1 & Hagree1 & Hnil & Hsame & Hframe1).
  destruct (placedApart_cons _ _ _ Hpa) as [Hpa' Hhead].
  assert (Hcs1 : forall c', c' ∈ children -> valid σ1 c').
  { intros c' Hc'. apply Hg1, Hcs. by right. }
  assert (Hpa1 : placedApart addr1 children).
  { eapply placedApart_agree; [exact Hagree1| |exact Hpa']. intros c' Hc'. apply Hcs. by right. }
  destruct (IH σ1 addr1 tr' σ2 Hwf1 Hac1 Had1 Hcs1 Hpa1 Hrest)
    as (Hwf2 & Hac2 & (addr2 & Had2 & Hagree2) & Hreads & Hframe2).
  split; [done|]. split; [done|]. split.
  { exists addr2. split; [done|]. intros x Hx. rewrite Hagree2 by by apply Hg1. auto. }
  split.
  - intros c' Hc' Href. apply elem_of_cons in Hc' as [->|Hc']; [|by apply Hreads].
    assert (Hroot : c1 = c) by (apply Hsame; by destruct c). subst c1.
    destruct (proj1 Hpa c ltac:(left) Href) as [A HA].
    eapply (Search_frame _ Hstar σ1 σ2 c _ A addr1); try done.
    + by apply Hg1.
    + intros _. apply below_refl. by rewrite Hagree1.
    + intros x Hx Hrx Hbx. apply Hframe2; [done..|].
      intros c' A' Hc' HA'. rewrite Hagree1 in HA' by (apply Hcs; by right).
      eapply apart_below; [|exact Hbx]. by eapply Hhead.
  - intros x Hx Hrx Hnb.
    eapply (sameCell_trans _ σ1).
    + destruct (decide (c = gabs.Nil)) as [->|Hnn].
      * by apply Hnil.
      * destruct (addr c) as [A|] eqn:HA.
        -- apply (Hframe1 A); [done..|]. apply (Hnb c); [left|done].
        -- (* a scalar: the write cannot have succeeded *)
           exfalso. destruct c as [| | | | |l|l]; try done;
             try (pose proof (DotPathToSlice_nonempty path) as Hne;
                  destruct (gabs.DotPathToSlice path); [done|]; discriminate).
           ++ destruct (proj1 Hpa (gabs.MapRef l) ltac:(left) eq_refl) as [? ?]. congruence.
           ++ destruct (proj1 Hpa (gabs.SliceRef l) ltac:(left) eq_refl) as [? ?]. congruence.
    + apply Hframe2; [by apply Hg1|done|].
      intros c' A' Hc' HA'. rewrite Hagree1 in HA' by (apply Hcs; by right).
      intros Hb. apply (Hnb c' A'); [by right|done|].
      destruct Hb as [q Hq]. exists q. by rewrite <- Hagree1.
Qed.

Lemma emptyStore_addressed : addressed (fun _ => None) gabs.emptyStore.
Proof.
  split.
  - intros c [p Hp]. done.
  - intros l m k w p H. simpl in H. by rewrite lookup_empty in H.
  - intros l a i w p H. simpl in H. by rewrite lookup_empty in H.
Qed.

(** Decoding builds a tree: what it allocates can be placed below any
    place [P], the value it returns at [P] itself. *)
Lemma load_tree (j : gabs.json) :
  forall (σ : gabs.store) (addr : gabs.value -> option (list pos)) (P : list pos),
    wellFormed σ -> addressed addr σ ->
    exists addr' : gabs.value -> option (list pos),
      addressed addr' (gabs.load j σ).1 /\
      (forall c, valid σ c -> addr' c = addr c) /\
      (isRef (gabs.load j σ).2 = true -> addr' (gabs.load j σ).2 = Some P).
Proof.
  induction j as [|b|lit|s|elems IH|fields IH] using json_induction; intros σ addr P Hwf Had;
    try (exists addr; split; [done|]; split; done).
  - cbn [gabs.load].
    match goal with |- context [?F elems σ] =>
      pose (each := F); change (F elems σ) with (each elems σ) end.
    assert (Heach : forall σ addr (n0 : nat), wellFormed σ -> addressed addr σ ->
              exists addr' : gabs.value -> option (list pos),
                wellFormed (each elems σ).1 /\ grows σ (each elems σ).1 /\
                addressed addr' (each elems σ).1 /\
                (forall c, valid σ c -> addr' c = addr c) /\
                (forall x, x ∈ (each elems σ).2 -> valid (each elems σ).1 x) /\
                (forall i w, (each elems σ).2 !! i = Some w -> isRef w = true ->
                   addr' w = Some (P ++ [Index (n0 + i)]))).
    { clear σ addr Hwf Had. induction IH as [|x elems Hx _ IHl]; intros σ addr n0 Hwf Had.
      - simpl. exists addr. split; [done|]. split; [apply grows_refl|]. split; [done|].
        split; [done|]. split; [|done]. intros x Hx. by apply elem_of_nil in Hx.
      - unfold each. simpl. fold each.
        destruct (load_keeps x σ Hwf) as (Hwf1 & Hg1 & Hv1).
        destruct (Hx σ addr (P ++ [Index n0]) Hwf Had) as (addr1 & Had1 & Hag1 & Hroot1).
        destruct (gabs.load x σ) as [σ1 v1]. simpl in Hwf1, Hg1, Hv1, Had1, Hroot1.
        destruct (IHl σ1 addr1 (S n0) Hwf1 Had1) as (addr2 & Hwf2 & Hg2 & Had2 & Hag2 & Hv2 & Hi2).
        destruct (each elems σ1) as [σ2 vs]. simpl in *.
        exists addr2. split; [done|]. split; [by eapply grows_trans|]. split; [done|].
        split; [intros c Hc; rewrite Hag2 by auto; auto|]. split.
        + intros y Hy. apply elem_of_cons in Hy as [->|Hy]; auto.
        + intros [|i] w Hi Hw; simpl in Hi.
          * injection Hi as <-. rewrite Hag2 by done. rewrite Nat.add_0_r. auto.
          * rewrite (Hi2 i w Hi Hw). do 4 f_equal. lia. }
    destruct (Heach σ addr 0%nat Hwf Had) as (addr1 & Hwf1 & Hg1 & Had1 & Hag1 & Hv1 & Hi1).
    destruct (each elems σ) as [σ1 vs]. simpl in Hwf1, Hg1, Had1, Hv1, Hi1.
    exists (place addr1 (gabs.SliceRef (gabs.next σ1)) (Some P)).
    split; [|split].
    + apply addressed_newSlice; [done..|]. intros i w p Hi Hw [= <-]. by apply Hi1.
    + intros c Hc. rewrite place_old; [auto|]. apply valid_not_fresh; auto.
    + intros _. apply place_new.
  - cbn [gabs.load].
    match goal with |- context [?F fields σ ∅] =>
      pose (each := F); change (F fields σ ∅) with (each fields σ ∅) end.
    assert (Heach : forall σ addr m, wellFormed σ -> addressed addr σ ->
              (forall k v, m !! k = Some v -> valid σ v) ->
              (forall k w, m !! k = Some w -> isRef w = true -> addr w = Some (P ++ [Key k])) ->
              exists addr' : gabs.value -> option (list pos),
                wellFormed (each fields σ m).1 /\ grows σ (each fields σ m).1 /\
                addressed addr' (each fields σ m).1 /\
                (forall c, valid σ c -> addr' c = addr c) /\
                (forall k v, (each fields σ m).2 !! k = Some v -> valid (each fields σ m).1 v) /\
                (forall k w, (each fields σ m).2 !! k = Some w -> isRef w = true ->
                   addr' w = Some (P ++ [Key k]))).
    { clear σ addr Hwf Had.
      induction IH as [|[k x] fields Hx _ IHl]; intros σ addr m Hwf Had Hm Hpl.
      - simpl. exists addr. split; [done|]. split; [apply grows_refl|]. done.
      - unfold each. simpl. fold each. simpl in Hx.
        destruct (load_keeps x σ Hwf) as (Hwf1 & Hg1 & Hv1).
        destruct (Hx σ addr (P ++ [Key k]) Hwf Had) as (addr1 & Had1 & Hag1 & Hroot1).
        destruct (gabs.load x σ) as [σ1 v1]. simpl in Hwf1, Hg1, Hv1, Had1, Hroot1.
        destruct (IHl σ1 addr1 (<[k := v1]> m) Hwf1 Had1)
          as (addr2 & Hwf2 & Hg2 & Had2 & Hag2 & Hv2 & Hk2).
        { intros k' v' Hk. destruct (decide (k = k')) as [<-|Hne].
          - rewrite lookup_insert_eq in Hk. by injection Hk as <-.
          - rewrite lookup_insert_ne in Hk by done. eauto. }
        { intros k' w Hk Hw. destruct (decide (k = k')) as [<-|Hne].
          - rewrite lookup_insert_eq in Hk. injection Hk as <-. auto.
          - rewrite lookup_insert_ne in Hk by done. rewrite Hag1 by eauto. eauto. }
        exists addr2. split; [done|]. split; [by eapply grows_trans|]. split; [done|].
        split; [intros c Hc; rewrite Hag2 by auto; auto|]. done. }
    destruct (Heach σ addr ∅ Hwf Had) as (addr1 & Hwf1 & Hg1 & Had1 & Hag1 & Hv1 & Hk1).
    { intros k v H. by rewrite lookup_empty in H. }
    { intros k v H. by rewrite lookup_empty in H. }
    destruct (each fields σ ∅) as [σ1 m]. simpl in Hwf1, Hg1, Had1, Hv1, Hk1.
    exists (place addr1 (gabs.MapRef (gabs.next σ1)) (Some P)).
    split; [|split].
    + apply addressed_newMap; [done..|]. intros k w p Hk Hw [= <-]. by apply Hk1.
    + intros c Hc. rewrite place_old; [auto|]. apply valid_not_fresh; auto.
    + intros _. apply place_new.
Qed.

(** The loop over any children keeps the places, when the path has no
    append segment and every write succeeds. *)
Lemma eachChild_placed (path value : string) (vt : jsonparser.ValueType) :
  appendFree path ->
  forall (children : list gabs.value) (σ : gabs.store)
         (addr : gabs.value -> option (list pos)),
    wellFormed σ -> addressed addr σ -> (forall c, c ∈ children -> valid σ c) ->
    (eachChild σ children path value vt).2 = None ->
    exists addr' : gabs.value -> option (list pos),
      addressed addr' (eachChild σ children path value vt).1.2 /\
      forall c, valid σ c -> addr' c = addr c.
Proof.
  intros Hfree.
  assert (Hv : isRef (getKeyValue value vt) = false) by by destruct vt.
  induction children as [|c children IH]; intros σ addr Hwf Had Hcs Hok.
  { by exists addr. }
  cbn [eachChild] in *.
  assert (Hc : valid σ c) by (apply Hcs; left).
  assert (Hvv : valid σ (getKeyValue value vt)) by by destruct vt.
  destruct (SetP_keeps σ c (getKeyValue value vt) path Hwf Hc Hvv) as (Hwf1 & Hg1 & _).
  fold (setPathway σ c path value vt) in Hwf1, Hg1.
  destruct (setPathway σ c path value vt) as [[σ1 c1] [e|]] eqn:Hset; [done|].
  simpl in Hwf1, Hg1.
  unfold setPathway, gabs.SetP in Hset.
  destruct (Set'_tree _ _ _ _ _ _ _ addr None Hv Hwf Had Hc Hvv Hfree
              (DotPathToSlice_nonempty path) Hset)
    as (addr1 & Had1 & Hagree1 & _).
  specialize (IH σ1 addr1 Hwf1 Had1).
  destruct (eachChild σ1 children path value vt) as [[tr' σ2] err]. simpl in *.
  destruct IH as (addr2 & Had2 & Hagree2); [|done|].
  { intros c' Hc'. apply Hg1, Hcs. by right. }
  exists addr2. split; [done|]. intros x Hx. rewrite Hagree2 by by apply Hg1. auto.
Qed.

(** From a placed cell [Search] finds cells at or below its place. *)
Lemma Search_below (hierarchy : list string) :
  "*" ∉ hierarchy ->
  forall (σ : gabs.store) (object w : gabs.value) (A : list pos)
         (addr : gabs.value -> option (list pos)),
    wellFormed σ -> addressed addr σ -> valid σ object ->
    (isRef object = true -> addr object = Some A) ->
    (gabs.Search σ object hierarchy).2 = Some w -> isRef w = true ->
    below A addr w.
Proof.
  induction hierarchy as [|pathSeg rest IH];
    intros Hstar σ object w A addr Hwf Had Ho Hplaced Hfound Hw.
  { simpl in Hfound. injection Hfound as <-. apply below_refl. auto. }
  assert (Hstar' : "*" ∉ rest) by (intros H; apply Hstar; by right).
  assert (Hseg : pathSeg <> "*") by (intros ->; apply Hstar; by left).
  cbn [gabs.Search] in Hfound.
  destruct object as [| | | | |l|l]; try discriminate.
  - pose proof Ho as [m Hm].
    assert (Hmm : gabs.maps σ !!! l = m) by by rewrite lookup_total_alt, Hm.
    destruct ((gabs.maps σ !!! l) !! pathSeg) as [o|] eqn:Hlook; [|discriminate].
    assert (Hvo : valid σ o) by by eapply map_entry_valid.
    apply (below_step A (Key pathSeg)).
    eapply (IH Hstar' σ o w _ addr); try done.
    intros Hro. eapply (addr_key _ _ Had); [exact Hm| |done|by apply Hplaced].
    by rewrite <- Hmm.
  - pose proof Ho as [a Ha].
    assert (Haa : gabs.slices σ !!! l = a) by by rewrite lookup_total_alt, Ha.
    cbv zeta in Hfound. rewrite bool_decide_eq_false_2 in Hfound by done.
    destruct (strconv.Atoi pathSeg) as [index [e|]]; [discriminate|].
    destruct (index <? 0); [discriminate|].
    destruct ((gabs.slices σ !!! l : list gabs.value) !! Z.to_nat index) as [o|] eqn:Hlook;
      [|discriminate].
    assert (Hvo : valid σ o).
    { eapply slice_elem_valid; [done|]. by eapply list_elem_of_lookup_2. }
    apply (below_step A (Index (Z.to_nat index))).
    eapply (IH Hstar' σ o w _ addr); try done.
    intros Hro. eapply (addr_index _ _ Had); [exact Ha| |done|by apply Hplaced].
    by rewrite <- Haa.
Qed.

(** What [Search] finds on the way to a placed cell depends only on the
    cells whose place is on the way to the place of that cell. *)
Lemma Search_frame_to (hierarchy : list string) :
  "*" ∉ hierarchy ->
  forall (σ σ' : gabs.store) (object w : gabs.value) (pn : list pos)
         (addr : gabs.value -> option (list pos)),
    wellFormed σ -> addressed addr σ -> valid σ object ->
    (isRef object = true -> is_Some (addr object)) ->
    gabs.Search σ object hierarchy = (σ, Some w) -> isRef w = true -> addr w = Some pn ->
    (forall c, valid σ c -> isRef c = true ->
       (exists A q, addr c = Some A /\ A ++ q = pn) -> sameCell σ σ' c) ->
    gabs.Search σ' object hierarchy = (σ', Some w).
Proof.
  induction hierarchy as [|pathSeg rest IH];
    intros Hstar σ σ' object w pn addr Hwf Had Ho Hplaced Hfound Hw Hpn Hsame.
  { simpl in *. congruence. }
  assert (Hstar' : "*" ∉ rest) by (intros H; apply Hstar; by right).
  assert (Hseg : pathSeg <> "*") by (intros ->; apply Hstar; by left).
  assert (Hon : isRef object = true -> sameCell σ σ' object).
  { intros Hro. destruct (Hplaced Hro) as [A HA]. apply Hsame; [done..|].
    destruct (Search_below _ Hstar σ object w A addr Hwf Had Ho) as [q Hq]; try done.
    - by rewrite Hfound.
    - exists A, q. split; [done|]. congruence. }
  cbn [gabs.Search] in *.
  destruct object as [| | | | |l|l]; try discriminate.
  - pose proof Ho as [m Hm].
    assert (Hmm : gabs.maps σ !!! l = m) by by rewrite lookup_total_alt, Hm.
    specialize (Hon eq_refl). simpl in Hon.
    rewrite lookup_total_alt, Hon, <- lookup_total_alt.
    destruct ((gabs.maps σ !!! l) !! pathSeg) as [o|] eqn:Hlook; [|discriminate].
    assert (Hvo : valid σ o) by by eapply map_entry_valid.
    eapply (IH Hstar' σ σ' o w pn addr); try done.
    intros Hro. destruct (Hplaced eq_refl) as [A HA].
    erewrite (addr_key _ _ Had); [eauto|exact Hm| |done|exact HA]. by rewrite <- Hmm.
  - pose proof Ho as [a Ha].
    assert (Haa : gabs.slices σ !!! l = a) by by rewrite lookup_total_alt, Ha.
    specialize (Hon eq_refl). simpl in Hon.
    cbv zeta in *. rewrite bool_decide_eq_false_2 in * by done.
    rewrite lookup_total_alt, Hon, <- lookup_total_alt.
    destruct (strconv.Atoi pathSeg) as [index [e|]]; [discriminate|].
    destruct (index <? 0); [discriminate|].
    destruct ((gabs.slices σ !!! l : list gabs.value) !! Z.to_nat index) as [o|] eqn:Hlook;
      [|discriminate].
    assert (Hvo : valid σ o).
    { eapply slice_elem_valid; [done|]. by eapply list_elem_of_lookup_2. }
    eapply (IH Hstar' σ σ' o w pn addr); try done.
    intros Hro. destruct (Hplaced eq_refl) as [A HA].
    erewrite (addr_index _ _ Had); [eauto|exact Ha| |done|exact HA]. by rewrite <- Haa.
Qed.

End TreeFacts.

Section PassWildcard.

Import StringsFacts StoreFacts FrameFacts RoundTrip AcyclicFacts WriteFacts TreeFacts.

Variable isLetterOrDigit : Z -> bool.
Variable ToCamel : string -> string.
Variable Get : string -> list string -> string * jsonparser.ValueType * Z * option error.
Variable Unmarshal : string -> gabs.json + error.

Local Abbreviation Lookup := (LookupConfigurationValue isLetterOrDigit ToCamel Get).
Local Abbreviation Rules := (eachRule isLetterOrDigit ToCamel Get).
Local Abbreviation Iterate := (IterateOverJson isLetterOrDigit ToCamel Get Unmarshal).

(** The rules keep the document a tree, when no rule writes at a path
    with an append segment and every rule succeeds. *)
Lemma eachRule_tree (f : ConfigurationFile) (rules : list ConfigurationFileReplacement) :
  Forall (fun v => appendFree (writePath v)) rules ->
  forall σ parsed, wellFormed σ -> tree σ parsed -> valid σ parsed ->
    (Rules f rules σ parsed).2 = None ->
    tree (Rules f rules σ parsed).1.1.2 (Rules f rules σ parsed).1.2.
Proof.
  induction 1 as [|v rules Hv _ IH]; intros σ parsed Hwf Htree Hp Hok; [done|].
  cbn [eachRule] in *. unfold writePath in Hv.
  destruct Htree as (addr & Had & Hroot).
  destruct (Lookup f v) as [[value dt] [e|]]; [done|].
  destruct (strings.Contains (Match v) ".*").
  - destruct (_ !! 0%nat) as [part0|]; [|done].
    destruct (_ !! 1%nat) as [part1|]; [|done].
    unfold gabs.Path in *.
    destruct (Search_keeps (gabs.DotPathToSlice (strings.Trim part0 ".")) σ parsed Hwf Hp)
      as (Hwf1 & Hg1 & Hv1).
    pose proof (Search_allocates (addressed addr)
                  (fun σ a Hwf HI Ha => addressed_alloc_slice addr σ a Hwf HI Ha)
                  (gabs.DotPathToSlice (strings.Trim part0 ".")) σ parsed Hwf Had Hp) as Had1.
    destruct (gabs.Search σ parsed _) as [σ1 node]. simpl in Hwf1, Hg1, Hv1, Had1.
    assert (Hch : forall x, x ∈ gabs.Children σ1 node -> valid σ1 x) by by apply Children_valid.
    destruct (eachChild_keeps (gabs.Children σ1 node) (strings.Trim part1 ".") value dt
                σ1 Hwf1 Hch) as [Hwf2 Hg2].
    pose proof (eachChild_placed (strings.Trim part1 ".") value dt Hv
                  (gabs.Children σ1 node) σ1 addr Hwf1 Had1 Hch) as Hpl.
    destruct (eachChild σ1 _ _ value dt) as [[tr σ2] [e|]]; [done|].
    simpl in Hwf2, Hg2, Hpl. destruct (Hpl eq_refl) as (addr2 & Had2 & Hagree2).
    assert (Htree2 : tree σ2 parsed).
    { exists addr2. split; [done|]. intros Hr. rewrite Hagree2 by by apply Hg1. auto. }
    specialize (IH σ2 parsed Hwf2 Htree2 (Hg2 _ (Hg1 _ Hp))).
    destruct (Rules f rules σ2 parsed) as [[[tr' σ3] p3] err']. simpl in *. by apply IH.
  - destruct (setPathway_keeps σ parsed (Match v) value dt Hwf Hp) as (Hwf1 & Hg1 & Hv1).
    destruct (setPathway σ parsed (Match v) value dt) as [[σ1 p1] [e|]] eqn:Hset; [done|].
    simpl in Hwf1, Hg1, Hv1.
    assert (Htree1 : tree σ1 p1).
    { unfold setPathway, gabs.SetP in Hset.
      assert (Hnr : isRef (getKeyValue value dt) = false) by by destruct dt.
      assert (Hvv : valid σ (getKeyValue value dt)) by by destruct dt.
      destruct (Set'_tree _ _ _ _ _ _ _ addr (Some []) Hnr Hwf Had Hp
                  Hvv Hv (DotPathToSlice_nonempty (Match v)) Hset)
        as (addr1 & Had1 & Hagree1 & Hnil & Hsame & _).
      exists addr1. split; [done|]. intros Hr.
      destruct (decide (parsed = gabs.Nil)) as [->|Hnn].
      - by apply Hnil.
      - rewrite (Hsame Hnn) in *. rewrite Hagree1 by done. auto. }
    specialize (IH σ1 p1 Hwf1 Htree1 Hv1).
    destruct (Rules f rules σ1 p1) as [[[tr' σ3] p3] err']. simpl in *. by apply IH.
Qed.

(** X14: a rule with a wildcard marker sets the value below every child.
    When the pass succeeds, its last rule has a wildcard marker, no rule
    writes at a path with an append segment, and neither the path of the node
    nor the path below the children has a segment [*], then in the container
    the pass returns every child of the node that is a map or an array holds,
    at the path below the children, the value the rule resolved to, coerced
    by the type of the rule. *)
Theorem X14_wildcard_rule_reaches_every_child (f : ConfigurationFile) (data : string)
    (j : gabs.json) (before : list ConfigurationFileReplacement)
    (r : ConfigurationFileReplacement)
    (tr : list event) (σ : gabs.store) (parsed : gabs.value) :
  Unmarshal data = inl j ->
  Replace f = before ++ [r] ->
  Forall (fun v => appendFree (writePath v)) (Replace f) ->
  strings.Contains (Match r) ".*" = true ->
  starFree (nodePath r) -> starFree (writePath r) ->
  Iterate f data = (tr, Some (σ, parsed), None) ->
  exists (value : string) (dt : jsonparser.ValueType),
    Lookup f r = (value, dt, None) /\
    forall c, c ∈ gabs.Children σ (gabs.Path σ parsed (nodePath r)).2 ->
      isRef c = true ->
      gabs.Path σ c (writePath r) = (σ, Some (getKeyValue value dt)).
Proof.
  intros Hj Hf Hfree Hwild Hsn Hsw Hrun.
  unfold IterateOverJson, ParseJSON in Hrun. rewrite Hj, Hf in Hrun.
  rewrite Hf in Hfree. apply Forall_app in Hfree as [Hbefore Hr].
  rewrite Forall_singleton in Hr.
  destruct (load_keeps j gabs.emptyStore emptyStore_wf) as (Hwf0 & _ & Hv0).
  pose proof (load_acyclic j gabs.emptyStore emptyStore_wf emptyStore_acyclic) as Hac0.
  assert (Htree0 : tree (gabs.load j gabs.emptyStore).1 (gabs.load j gabs.emptyStore).2).
  { destruct (load_tree j gabs.emptyStore (fun _ => None) [] emptyStore_wf
                emptyStore_addressed) as (addr0 & Had0 & _ & Hroot0).
    by exists addr0. }
  destruct (gabs.load j gabs.emptyStore) as [σ0 p0]. simpl in Hwf0, Hv0, Hac0, Htree0.
  rewrite eachRule_app in Hrun.
  destruct (eachRule_keeps isLetterOrDigit ToCamel Get f before σ0 p0 Hwf0 Hv0)
    as (Hwf1 & _ & Hv1).
  pose proof (eachRule_acyclic isLetterOrDigit ToCamel Get f before Hbefore σ0 p0
                Hwf0 Hac0 Hv0) as Hac1.
  pose proof (eachRule_tree f before Hbefore σ0 p0 Hwf0 Htree0 Hv0) as Htree1.
  destruct (Rules f before σ0 p0) as [[[tr1 σ1] p1] [e|]]; [done|].
  simpl in Hwf1, Hv1, Hac1, Htree1. specialize (Hac1 eq_refl). specialize (Htree1 eq_refl).
  destruct Htree1 as (addr & Had & Hroot).
  cbn [eachRule] in Hrun. rewrite Hwild in Hrun.
  unfold nodePath, writePath in *. rewrite Hwild in *.
  destruct (Lookup f r) as [[value dt] [e|]]; [done|].
  exists value, dt. split; [done|].
  destruct (SplitN_2 _ _ Hwild ltac:(done)) as (part0 & part1 & Hsplit & _).
  rewrite Hsplit in *. cbn [lookup list_lookup] in *.
  unfold gabs.Path in *.
  destruct (Search_plain _ Hsn σ1 p1 addr Hwf1 Had Hv1) as [Hstore Hnode].
  destruct (gabs.Search σ1 p1 (gabs.DotPathToSlice (strings.Trim part0 "."))) as [σn node]
    eqn:Hsearch.
  simpl in Hstore, Hnode. subst σn.
  destruct (eachChild σ1 (gabs.Children σ1 node) (strings.Trim part1 ".") value dt)
    as [[trw σ2] [e|]] eqn:Hloop; [done|].
  cbn [eachRule] in Hrun. injection Hrun as _ <- <-.
  (* a node without children: nothing was written *)
  assert (Hnone : gabs.Children σ1 node = [] -> σ2 = σ1).
  { intros Hnil. rewrite Hnil in Hloop. simpl in Hloop. congruence. }
  destruct node as [w|].
  2: { rewrite (Hnone eq_refl), Hsearch. intros c Hc. by apply elem_of_nil in Hc. }
  destruct (Hnode w eq_refl) as [Hvw Hplaced].
  destruct (isRef w) eqn:Hrw.
  2: { assert (Hempty : gabs.Children σ1 (Some w) = []) by by destruct w.
       rewrite (Hnone Hempty), Hsearch. cbn [snd]. rewrite Hempty.
       intros c Hc. by apply elem_of_nil in Hc. }
  assert (Hpw : is_Some (addr w)).
  { apply Hplaced; [|done]. intros Hr1. rewrite Hroot by done. eauto. }
  pose proof (Children_placedApart σ1 addr w Hwf1 Had Hpw) as Hpa.
  assert (Hch : forall x, x ∈ gabs.Children σ1 (Some w) -> valid σ1 x)
    by by apply Children_valid.
  destruct (eachChild_reads _ value dt Hr Hsw _ σ1 addr trw σ2 Hwf1 Hac1 Had Hch Hpa Hloop)
    as (Hwf2 & Hac2 & _ & Hreads & Hframe).
  destruct Hpw as [pn Hpn].
  (* no child lies above the node or on the way to it *)
  assert (Hkeep : forall c, valid σ1 c -> isRef c = true ->
            (exists A q, addr c = Some A /\ A ++ q = pn) -> sameCell σ1 σ2 c).
  { intros c Hc Hrc (A & q & HA & Hq). apply Hframe; [done..|].
    intros c' A' Hc' HA' [q' Hq'].
    assert (Hrc' : isRef c' = true) by (apply (addr_valid _ _ Had); by rewrite HA').
    destruct (proj1 Hpa c' Hc' Hrc') as [B HB].
    assert (Hb : exists s, A' = pn ++ [s]).
    { destruct w as [| | | | |l|l]; try done; simpl in Hc'.
      - destruct Hvw as [m Hm].
        rewrite lookup_total_alt, Hm in Hc'. simpl in Hc'.
        apply list_elem_of_fmap in Hc' as ([k x] & -> & Hx). simpl in HA', Hrc'.
        apply elem_of_map_to_list in Hx. exists (Key k).
        rewrite (addr_key _ _ Had l m k x pn Hm Hx Hrc' Hpn) in HA'. congruence.
      - destruct Hvw as [a Ha].
        rewrite lookup_total_alt, Ha in Hc'. simpl in Hc'.
        apply list_elem_of_lookup in Hc' as [i Hi]. exists (Index i).
        rewrite (addr_index _ _ Had l a i c' pn Ha Hi Hrc' Hpn) in HA'. congruence. }
    destruct Hb as [s ->].
    rewrite HA in Hq'. injection Hq' as Hq'. subst A.
    rewrite <- !app_assoc in Hq.
    assert (Hlen : length (pn ++ [s] ++ q' ++ q) = length pn) by by rewrite Hq.
    rewrite !length_app in Hlen. simpl in Hlen. lia. }
  rewrite (Search_frame_to _ Hsn σ1 σ2 p1 w pn addr Hwf1 Had Hv1); try done.
  - cbn [snd].
    assert (Hsame : gabs.Children σ2 (Some w) = gabs.Children σ1 (Some w)).
    { pose proof (Hkeep w Hvw Hrw) as Hcell.
      destruct w as [| | | | |l|l]; try done; simpl in *.
      - by rewrite !lookup_total_alt, Hcell by (exists pn, []; by rewrite app_nil_r).
      - by rewrite !lookup_total_alt, Hcell by (exists pn, []; by rewrite app_nil_r). }
    rewrite Hsame. apply Hreads.
  - intros Hr1. rewrite Hroot by done. eauto.
Qed.

End PassWildcard.

Module FieldFacts.

Import StringsFacts StoreFacts FrameFacts RoundTrip AcyclicFacts WriteFacts TreeFacts.

(** What is read from a value depends only on the cells at or below its
    place. *)
Lemma read_frame (d : nat) :
  forall (σ σ' : gabs.store) (v : gabs.value) (A : list pos)
         (addr : gabs.value -> option (list pos)),
    wellFormed σ -> addressed addr σ -> valid σ v ->
    (isRef v = true -> below A addr v) ->
    (forall c, valid σ c -> isRef c = true -> below A addr c -> sameCell σ σ' c) ->
    gabs.read d σ' v = gabs.read d σ v.
Proof.
  induction d as [|d IH]; intros σ σ' v A addr Hwf Had Hv Hb Hsame;
    destruct v as [| | | | |l|l]; try done.
  - cbn [gabs.read]. f_equal.
    pose proof (Hsame _ Hv eq_refl (Hb eq_refl)) as Hcell. simpl in Hcell.
    destruct Hv as [m Hm].
    rewrite !lookup_total_alt, Hcell, Hm. simpl.
    apply map_fmap_ext. intros k x Hx.
    apply (IH σ σ' x A addr); try done.
    + by eapply (maps_valid _ Hwf).
    + intros Hrx. destruct (Hb eq_refl) as [q Hq].
      exists (q ++ [Key k]). rewrite app_assoc. by eapply (addr_key _ _ Had).
  - cbn [gabs.read]. f_equal.
    pose proof (Hsame _ Hv eq_refl (Hb eq_refl)) as Hcell. simpl in Hcell.
    destruct Hv as [a Ha].
    rewrite !lookup_total_alt, Hcell, Ha. simpl.
    apply list_fmap_ext. intros i x Hx.
    apply (IH σ σ' x A addr); try done.
    + eapply (slices_valid _ Hwf); [done|]. by eapply list_elem_of_lookup_2.
    + intros Hrx. destruct (Hb eq_refl) as [q Hq].
      exists (q ++ [Index i]). rewrite app_assoc. by eapply (addr_index _ _ Had).
Qed.

Lemma fieldKept_refl (l0 : nat) (k : string) (addr : gabs.value -> option (list pos))
    (σ : gabs.store) :
  fieldKept l0 k addr addr σ σ.
Proof. split; [done|]. split; [done|]. intros. apply sameCell_refl. Qed.

Lemma fieldKept_trans (l0 : nat) (k : string)
    (addr1 addr2 addr3 : gabs.value -> option (list pos)) (σ1 σ2 σ3 : gabs.store) :
  grows σ1 σ2 ->
  fieldKept l0 k addr1 addr2 σ1 σ2 -> fieldKept l0 k addr2 addr3 σ2 σ3 ->
  fieldKept l0 k addr1 addr3 σ1 σ3.
Proof.
  intros Hg (Ha1 & Hf1 & Hs1) (Ha2 & Hf2 & Hs2). split; [|split].
  - intros c Hc. rewrite Ha2 by auto. auto.
  - congruence.
  - intros x Hx Hr Hb. eapply sameCell_trans; [by apply Hs1|].
    apply Hs2; [by apply Hg|done|]. destruct Hb as [q Hq]. exists q. by rewrite Ha1.
Qed.

(** A cell below the field [k'] is neither the root nor below another
    field. *)
Lemma below_other_field (addr : gabs.value -> option (list pos)) (root x : gabs.value)
    (k k' : string) :
  addr root = Some [] -> k <> k' -> below [Key k'] addr x ->
  x <> root /\ ~ below ([] ++ [Key k]) addr x.
Proof.
  intros Hroot Hk [q Hq]. split.
  - intros ->. rewrite Hroot in Hq. done.
  - intros [q' Hq']. rewrite Hq in Hq'. simpl in Hq'. congruence.
Qed.

(** [Set] from the map at the root, on a path whose first segment is [k]:
    every other field of the root and all below it are kept. *)
Lemma Set'_field (fuel : nat) (σ : gabs.store) (l0 : nat) (v : gabs.value)
    (k k' : string) (rest : list string)
    (σ' : gabs.store) (g' : gabs.value) (addr : gabs.value -> option (list pos)) :
  isRef v = false ->
  wellFormed σ -> addressed addr σ -> valid σ (gabs.MapRef l0) -> valid σ v ->
  addr (gabs.MapRef l0) = Some [] ->
  "-" ∉ k :: rest -> k <> k' ->
  gabs.Set' fuel σ (gabs.MapRef l0) v (k :: rest) = (σ', g', None) ->
  exists addr' : gabs.value -> option (list pos),
    addressed addr' σ' /\ fieldKept l0 k' addr addr' σ σ'.
Proof.
  intros Hscalar Hwf Had Hroot Hv Hplace Hdash Hk Hr.
  destruct fuel as [|fuel]; [discriminate|].
  cbn [gabs.Set' gabs.setLoop] in Hr. cbv zeta in Hr.
  assert (Hdash' : "-" ∉ rest) by (intros H; apply Hdash; by right).
  pose proof Hroot as [m Hm].
  assert (Hmm : gabs.maps σ !!! l0 = m) by by rewrite lookup_total_alt, Hm.
  destruct rest as [|seg rest].
  - cbn [gabs.setLoop] in Hr. injection Hr as <- <-.
    exists addr. split; [apply addressed_storeMap; [done|congruence]|].
    split; [done|]. split.
    + cbn [gabs.storeMap gabs.maps]. rewrite lookup_total_insert_eq. by apply lookup_insert_ne.
    + intros x Hx Hrx Hb. apply sameCell_storeMap.
      by destruct (below_other_field addr (gabs.MapRef l0) x k k' Hplace Hk Hb).
  - assert (Hnew :
      gabs.setLoop (fun σ g v h => gabs.Set' fuel σ g v h) (k :: seg :: rest) v 1
        (seg :: rest)
        (gabs.storeMap (gabs.newMap σ ∅).1 l0
           (<[k := gabs.MapRef (gabs.next σ)]> (gabs.maps σ !!! l0))) (gabs.MapRef l0)
        (gabs.MapRef (gabs.next σ)) = (σ', g', None) ->
      exists addr' : gabs.value -> option (list pos),
        addressed addr' σ' /\ fieldKept l0 k' addr addr' σ σ').
    { clear Hr. intros Hr.
      destruct (newMap_empty_keeps σ Hwf) as (Hwf1 & Hg1 & Hv1).
      set (σ1 := (gabs.newMap σ ∅).1) in *.
      set (n := gabs.next σ) in *.
      set (σ2 := gabs.storeMap σ1 l0 (<[k := gabs.MapRef n]> (gabs.maps σ !!! l0))) in *.
      assert (Hwf2 : wellFormed σ2).
      { apply storeMap_wf; [done | by apply Hg1 |].
        intros k0 x Hk0. destruct (decide (k = k0)) as [<-|Hne].
        - rewrite lookup_insert_eq in Hk0. by injection Hk0 as <-.
        - rewrite lookup_insert_ne in Hk0 by done. apply Hg1. by eapply map_entry_valid. }
      assert (Hg2 : grows σ σ2).
      { eapply grows_trans; [exact Hg1 | apply storeMap_grows]. }
      pose proof (addressed_new_child addr σ l0 k Hwf Had Hroot) as Had2.
      set (addr1 := place addr (gabs.MapRef (gabs.next σ))
                      ((fun p => p ++ [Key k]) <$> addr (gabs.MapRef l0))) in Had2.
      assert (Hkept : forall c, valid σ c -> addr1 c = addr c).
      { intros c Hc. unfold addr1. apply place_old. by apply valid_not_fresh. }
      destruct (setLoop_tree _ _ v Hscalar _ addr1 _ σ2 _ _ _ _ Hwf2 Had2
                  (Hg2 _ Hroot) (Hg2 _ Hv) (storeMap_grows _ _ _ _ Hv1) Hdash' Hr)
        as (addr' & Had' & Hagree & Hframe).
      assert (Hchild : addr1 (gabs.MapRef n) = Some ([] ++ [Key k])).
      { unfold addr1. rewrite place_new, Hplace. done. }
      exists addr'. split; [done|]. split; [|split].
      - intros c Hc. rewrite Hagree by by apply Hg2. by apply Hkept.
      - assert (Hcell : sameCell σ2 σ' (gabs.MapRef l0)).
        { apply (Hframe _ Hchild); [by apply Hg2|done|].
          intros [q Hq]. rewrite Hkept, Hplace in Hq by done. done. }
        simpl in Hcell. rewrite lookup_total_alt, Hcell.
        unfold σ2. cbn [gabs.storeMap gabs.maps]. rewrite lookup_insert_eq. simpl.
        by apply lookup_insert_ne.
      - intros x Hx Hrx Hb.
        destruct (below_other_field addr (gabs.MapRef l0) x k k' Hplace Hk Hb) as [Hne Hnb].
        eapply sameCell_trans; [by apply sameCell_newMap|].
        eapply (sameCell_trans _ σ2); [by apply (sameCell_storeMap σ1 l0 _ x)|].
        apply (Hframe _ Hchild); [by apply Hg2|done|].
        intros [q Hq]. rewrite Hkept in Hq by done. apply Hnb. by exists q. }
    destruct ((gabs.maps σ !!! l0) !! k) as [o|] eqn:Hlook; [|by apply Hnew].
    assert (Hvo : valid σ o) by by eapply map_entry_valid.
    assert (Hold :
      isRef o = true ->
      gabs.setLoop (fun σ g v h => gabs.Set' fuel σ g v h) (k :: seg :: rest) v 1
        (seg :: rest) σ (gabs.MapRef l0) o = (σ', g', None) ->
      exists addr' : gabs.value -> option (list pos),
        addressed addr' σ' /\ fieldKept l0 k' addr addr' σ σ').
    { clear Hr. intros Href Hr.
      destruct (setLoop_tree _ _ v Hscalar _ addr _ σ _ _ _ _ Hwf Had Hroot Hv Hvo Hdash' Hr)
        as (addr' & Had' & Hagree & Hframe).
      assert (Hchild : addr o = Some ([] ++ [Key k])).
      { eapply (addr_key _ _ Had); [exact Hm| |done|done]. by rewrite <- Hmm. }
      exists addr'. split; [done|]. split; [done|]. split.
      - assert (Hcell : sameCell σ σ' (gabs.MapRef l0)).
        { apply (Hframe _ Hchild); [done..|]. intros [q Hq]. rewrite Hplace in Hq. done. }
        simpl in Hcell. by rewrite !lookup_total_alt, Hcell.
      - intros x Hx Hrx Hb.
        destruct (below_other_field addr (gabs.MapRef l0) x k k' Hplace Hk Hb) as [Hne Hnb].
        by apply (Hframe _ Hchild). }
    destruct o; try (by apply Hnew); try (by apply Hold); by cbn in Hr.
Qed.

(** The place of a child is the place of its node and one step more. *)
Lemma Children_below (σ : gabs.store) (addr : gabs.value -> option (list pos))
    (w c : gabs.value) (pn A : list pos) :
  wellFormed σ -> addressed addr σ -> valid σ w -> addr w = Some pn ->
  c ∈ gabs.Children σ (Some w) -> addr c = Some A ->
  exists s, A = pn ++ [s].
Proof.
  intros Hwf Had Hvw Hpn Hc HA.
  assert (Hrc : isRef c = true) by (apply (addr_valid _ _ Had); by rewrite HA).
  destruct w as [| | | | |l|l]; try (by apply elem_of_nil in Hc); simpl in Hc.
  - destruct Hvw as [m Hm].
    rewrite lookup_total_alt, Hm in Hc. simpl in Hc.
    apply list_elem_of_fmap in Hc as ([k x] & -> & Hx). simpl in HA, Hrc.
    apply elem_of_map_to_list in Hx. exists (Key k).
    rewrite (addr_key _ _ Had l m k x pn Hm Hx Hrc Hpn) in HA. congruence.
  - destruct Hvw as [a Ha].
    rewrite lookup_total_alt, Ha in Hc. simpl in Hc.
    apply list_elem_of_lookup in Hc as [i Hi]. exists (Index i).
    rewrite (addr_index _ _ Had l a i c pn Ha Hi Hrc Hpn) in HA. congruence.
Qed.

(** The loop over children that have places, when the path has no append
    segment and every write succeeds, touches no cell but at or below the
    place of a child. *)
Lemma eachChild_frame (path value : string) (vt : jsonparser.ValueType) :
  appendFree path ->
  forall (children : list gabs.value) (σ : gabs.store)
         (addr : gabs.value -> option (list pos)),
    wellFormed σ -> addressed addr σ -> (forall c, c ∈ children -> valid σ c) ->
    (forall c, c ∈ children -> isRef c = true -> is_Some (addr c)) ->
    (eachChild σ children path value vt).2 = None ->
    exists addr' : gabs.value -> option (list pos),
      addressed addr' (eachChild σ children path value vt).1.2 /\
      (forall c, valid σ c -> addr' c = addr c) /\
      (forall x, valid σ x -> isRef x = true ->
         (forall c A, c ∈ children -> addr c = Some A -> ~ below A addr x) ->
         sameCell σ (eachChild σ children path value vt).1.2 x).
Proof.
  intros Hfree.
  assert (Hv : isRef (getKeyValue value vt) = false) by by destruct vt.
  induction children as [|c children IH]; intros σ addr Hwf Had Hcs Hpl Hok.
  { exists addr. split; [done|]. split; [done|]. intros. apply sameCell_refl. }
  cbn [eachChild] in *.
  assert (Hc : valid σ c) by (apply Hcs; left).
  assert (Hvv : valid σ (getKeyValue value vt)) by by destruct vt.
  destruct (SetP_keeps σ c (getKeyValue value vt) path Hwf Hc Hvv) as (Hwf1 & Hg1 & _).
  fold (setPathway σ c path value vt) in Hwf1, Hg1.
  destruct (setPathway σ c path value vt) as [[σ1 c1] [e|]] eqn:Hset; [done|].
  simpl in Hwf1, Hg1.
  unfold setPathway, gabs.SetP in Hset.
  destruct (Set'_tree _ _ _ _ _ _ _ addr None Hv Hwf Had Hc Hvv Hfree
              (DotPathToSlice_nonempty path) Hset)
    as (addr1 & Had1 & Hagree1 & Hnil & _ & Hframe1).
  specialize (IH σ1 addr1 Hwf1 Had1).
  destruct (eachChild σ1 children path value vt) as [[tr' σ2] err]. simpl in *.
  destruct IH as (addr2 & Had2 & Hagree2 & Hframe2); [| |done|].
  { intros c' Hc'. apply Hg1, Hcs. by right. }
  { intros c' Hc' Hr. rewrite Hagree1 by (apply Hcs; by right). apply Hpl; [by right|done]. }
  exists addr2. split; [done|]. split.
  { intros x Hx. rewrite Hagree2 by by apply Hg1. auto. }
  intros x Hx Hrx Hnb.
  eapply (sameCell_trans _ σ1).
  - destruct (decide (c = gabs.Nil)) as [->|Hnn]; [by apply Hnil|].
    destruct (addr c) as [A|] eqn:HA.
    + apply (Hframe1 A); [done..|]. apply (Hnb c); [left|done].
    + exfalso. destruct c as [| | | | |l|l]; try done;
        try (pose proof (DotPathToSlice_nonempty path) as Hne;
             destruct (gabs.DotPathToSlice path); [done|]; discriminate).
      * destruct (Hpl (gabs.MapRef l) ltac:(left) eq_refl) as [? ?]. congruence.
      * destruct (Hpl (gabs.SliceRef l) ltac:(left) eq_refl) as [? ?]. congruence.
  - apply Hframe2; [by apply Hg1|done|].
    intros c' A' Hc' HA'. rewrite Hagree1 in HA' by (apply Hcs; by right).
    intros Hb. apply (Hnb c' A'); [by right|done|].
    destruct Hb as [q Hq]. exists q. by rewrite <- Hagree1.
Qed.

(** The writes of a rule with a wildcard marker, from the map at the root
    and through the field [k]: every other field of the root and all below it
    are kept. *)
Lemma wildcard_field (σ : gabs.store) (l0 : nat) (k k' : string) (rest : list string)
    (path value : string) (vt : jsonparser.ValueType)
    (addr : gabs.value -> option (list pos)) :
  wellFormed σ -> addressed addr σ -> valid σ (gabs.MapRef l0) ->
  addr (gabs.MapRef l0) = Some [] ->
  "*" ∉ k :: rest -> k <> k' -> appendFree path ->
  let node := gabs.Search σ (gabs.MapRef l0) (k :: rest) in
  (eachChild node.1 (gabs.Children node.1 node.2) path value vt).2 = None ->
  exists addr' : gabs.value -> option (list pos),
    addressed addr' (eachChild node.1 (gabs.Children node.1 node.2) path value vt).1.2 /\
    fieldKept l0 k' addr addr' σ
      (eachChild node.1 (gabs.Children node.1 node.2) path value vt).1.2.
Proof.
  intros Hwf Had Hroot Hplace Hstar Hk Hfree node.
  destruct (Search_plain _ Hstar σ (gabs.MapRef l0) addr Hwf Had Hroot) as [Hstore Hnode].
  fold node in Hstore, Hnode. rewrite Hstore. clear Hstore.
  assert (Hempty : gabs.Children σ node.2 = [] ->
            exists addr' : gabs.value -> option (list pos),
              addressed addr' (eachChild σ (gabs.Children σ node.2) path value vt).1.2 /\
              fieldKept l0 k' addr addr' σ
                (eachChild σ (gabs.Children σ node.2) path value vt).1.2).
  { intros ->. exists addr. split; [done|]. apply fieldKept_refl. }
  destruct node.2 as [w|] eqn:Hw; [|intros _; by apply Hempty].
  destruct (isRef w) eqn:Hrw; [|intros _; apply Hempty; by destruct w].
  destruct (Hnode w eq_refl) as [Hvw _].
  (* the node lies below the field [k] *)
  assert (Hbw : below [Key k] addr w).
  { assert (Hstar' : "*" ∉ rest) by (intros H; apply Hstar; by right).
    unfold node in Hw. cbn [gabs.Search] in Hw.
    pose proof Hroot as [m Hm].
    assert (Hmm : gabs.maps σ !!! l0 = m) by by rewrite lookup_total_alt, Hm.
    destruct ((gabs.maps σ !!! l0) !! k) as [o|] eqn:Hlook; [|done].
    assert (Hvo : valid σ o) by by eapply map_entry_valid.
    eapply (Search_below _ Hstar' σ o w); try done.
    intros Hro. change [Key k] with ([] ++ [Key k]).
    eapply (addr_key _ _ Had); [exact Hm| |done|done]. by rewrite <- Hmm. }
  destruct Hbw as [q Hq].
  assert (Hch : forall x, x ∈ gabs.Children σ (Some w) -> valid σ x)
    by by apply Children_valid.
  assert (Hpl : forall c, c ∈ gabs.Children σ (Some w) -> isRef c = true -> is_Some (addr c)).
  { apply (Children_placedApart σ addr w Hwf Had). by rewrite Hq. }
  intros Hok.
  destruct (eachChild_frame _ value vt Hfree _ σ addr Hwf Had Hch Hpl Hok)
    as (addr' & Had' & Hagree & Hframe).
  assert (Hout : forall x, valid σ x -> isRef x = true ->
            addr x = Some [] \/ below [Key k'] addr x ->
            forall c A, c ∈ gabs.Children σ (Some w) -> addr c = Some A -> ~ below A addr x).
  { intros x Hx Hrx Hcase c A Hc HA [q' Hq'].
    destruct (Children_below σ addr w c _ A Hwf Had Hvw Hq Hc HA) as [s ->].
    destruct Hcase as [H0|[q0 H0]]; rewrite H0 in Hq'; simpl in Hq'; [done|].
    injection Hq' as Hq'. congruence. }
  exists addr'. split; [done|]. split; [done|]. split.
  - assert (Hcell : sameCell σ (eachChild σ (gabs.Children σ (Some w)) path value vt).1.2
                      (gabs.MapRef l0)).
    { apply Hframe; [done..|]. apply Hout; [done..|]. by left. }
    cbn [sameCell] in Hcell. by rewrite !lookup_total_alt, Hcell.
  - intros x Hx Hrx Hb. apply Hframe; [done..|]. apply Hout; [done..|]. by right.
Qed.

End FieldFacts.

Section PassFields.

Import StringsFacts StoreFacts FrameFacts RoundTrip AcyclicFacts WriteFacts TreeFacts FieldFacts.

Variable isLetterOrDigit : Z -> bool.
Variable ToCamel : string -> string.
Variable Get : string -> list string -> string * jsonparser.ValueType * Z * option error.
Variable Unmarshal : string -> gabs.json + error.

Local Abbreviation Lookup := (LookupConfigurationValue isLetterOrDigit ToCamel Get).
Local Abbreviation Rules := (eachRule isLetterOrDigit ToCamel Get).
Local Abbreviation Iterate := (IterateOverJson isLetterOrDigit ToCamel Get Unmarshal).

(** Rules that avoid a field of the map at the root keep it, and all
    below it. *)
Lemma eachRule_field (f : ConfigurationFile) (rules : list ConfigurationFileReplacement)
    (k' : string) (l0 : nat) :
  Forall (ruleAvoids k') rules ->
  forall σ addr, wellFormed σ -> addressed addr σ -> valid σ (gabs.MapRef l0) ->
    addr (gabs.MapRef l0) = Some [] ->
    (Rules f rules σ (gabs.MapRef l0)).2 = None ->
    exists addr' : gabs.value -> option (list pos),
      addressed addr' (Rules f rules σ (gabs.MapRef l0)).1.1.2 /\
      fieldKept l0 k' addr addr' σ (Rules f rules σ (gabs.MapRef l0)).1.1.2.
Proof.
  induction 1 as [|v rules (Hfree & Hstar & Hfirst) _ IH];
    intros σ addr Hwf Had Hroot Hplace Hok.
  { exists addr. split; [done|]. apply fieldKept_refl. }
  cbn [eachRule] in *.
  unfold firstSegment in Hfirst. unfold writePath, nodePath in *.
  destruct (Lookup f v) as [[value dt] [e|]]; [done|].
  destruct (strings.Contains (Match v) ".*") eqn:Hc; rewrite ?Hc in Hfirst, Hfree, Hstar.
  - destruct (SplitN_2 _ _ Hc ltac:(done)) as (part0 & part1 & Hsplit & _).
    rewrite Hsplit in *. cbn [lookup list_lookup] in *.
    specialize (Hstar eq_refl). unfold starFree in Hstar.
    unfold gabs.Path in *.
    pose proof (DotPathToSlice_nonempty (strings.Trim part0 ".")) as Hne.
    destruct (gabs.DotPathToSlice (strings.Trim part0 ".")) as [|k rest] eqn:Hpath; [done|].
    simpl in Hfirst.
    pose proof (wildcard_field σ l0 k k' rest (strings.Trim part1 ".") value dt addr
                  Hwf Had Hroot Hplace Hstar Hfirst Hfree) as Hw.
    cbv zeta in Hw.
    destruct (Search_keeps (k :: rest) σ (gabs.MapRef l0) Hwf Hroot) as (Hwf1 & Hg1 & Hv1).
    destruct (gabs.Search σ (gabs.MapRef l0) (k :: rest)) as [σ1 node].
    simpl in Hw, Hwf1, Hg1, Hv1.
    assert (Hch : forall x, x ∈ gabs.Children σ1 node -> valid σ1 x) by by apply Children_valid.
    destruct (eachChild_keeps (gabs.Children σ1 node) (strings.Trim part1 ".") value dt
                σ1 Hwf1 Hch) as [Hwf2 Hg2].
    destruct (eachChild σ1 _ _ value dt) as [[tr σ2] [e|]]; [done|].
    simpl in Hw, Hwf2, Hg2. destruct (Hw eq_refl) as (addr2 & Had2 & Hkept2).
    assert (Hg : grows σ σ2) by by eapply grows_trans.
    destruct (IH σ2 addr2 Hwf2 Had2 (Hg _ Hroot)) as (addr3 & Had3 & Hkept3).
    { rewrite (proj1 Hkept2) by done. done. }
    { by destruct (Rules f rules σ2 (gabs.MapRef l0)) as [[[tr' σ3] p3] err']. }
    destruct (Rules f rules σ2 (gabs.MapRef l0)) as [[[tr' σ3] p3] err']. simpl in *.
    exists addr3. split; [done|]. by eapply fieldKept_trans.
  - destruct (setPathway_keeps σ (gabs.MapRef l0) (Match v) value dt Hwf Hroot)
      as (Hwf1 & Hg1 & Hv1).
    pose proof (setPathway_same_root σ (gabs.MapRef l0) (Match v) value dt ltac:(done)) as Hsame.
    destruct (setPathway σ (gabs.MapRef l0) (Match v) value dt) as [[σ1 p1] [e|]] eqn:Hset;
      [done|].
    simpl in Hwf1, Hg1, Hv1, Hsame. subst p1.
    unfold setPathway, gabs.SetP in Hset. unfold appendFree in Hfree.
    pose proof (DotPathToSlice_nonempty (Match v)) as Hne.
    destruct (gabs.DotPathToSlice (Match v)) as [|k rest] eqn:Hpath; [done|].
    simpl in Hfirst.
    assert (Hnr : isRef (getKeyValue value dt) = false) by by destruct dt.
    assert (Hvv : valid σ (getKeyValue value dt)) by by destruct dt.
    destruct (Set'_field _ σ l0 _ k k' rest σ1 _ addr Hnr Hwf Had Hroot Hvv Hplace
                Hfree Hfirst Hset) as (addr1 & Had1 & Hkept1).
    destruct (IH σ1 addr1 Hwf1 Had1 Hv1) as (addr3 & Had3 & Hkept3).
    { rewrite (proj1 Hkept1) by done. done. }
    { by destruct (Rules f rules σ1 (gabs.MapRef l0)) as [[[tr' σ3] p3] err']. }
    destruct (Rules f rules σ1 (gabs.MapRef l0)) as [[[tr' σ3] p3] err']. simpl in *.
    exists addr3. split; [done|]. by eapply fieldKept_trans.
Qed.

(** The rules free no location. *)
Lemma eachRule_next (f : ConfigurationFile) (rules : list ConfigurationFileReplacement)
    (σ : gabs.store) (parsed : gabs.value) :
  wellFormed σ -> valid σ parsed ->
  (gabs.next σ <= gabs.next (Rules f rules σ parsed).1.1.2)%nat.
Proof.
  intros Hwf Hp.
  apply (eachRule_preserves isLetterOrDigit ToCamel Get
           (fun s => (gabs.next σ <= gabs.next s)%nat)); try done; simpl; intros; lia.
Qed.

(** X15: what no rule names is returned as it was decoded.  When the
    document is an object, the pass succeeds, and every rule starts at a
    top-level field other than [k], writes at a path without an append
    segment and, if it has a wildcard marker, reaches its node by a path
    without a wildcard segment, then the field [k] of the returned document
    is the field [k] of the decoded document: absent if it was absent, and
    otherwise the same value to its full depth. *)
Theorem X15_unnamed_field_is_returned_as_decoded (f : ConfigurationFile) (data : string)
    (fields : list (string * gabs.json)) (k : string) :
  Unmarshal data = inl (gabs.JObject fields) ->
  Forall (ruleAvoids k) (Replace f) ->
  (Iterate f data).2 = None ->
  exists tm tm0 : gmap string gabs.tree,
    document (Iterate f data) = Some (gabs.TMap tm) /\
    treeOf (gabs.JObject fields) = gabs.TMap tm0 /\
    tm !! k = tm0 !! k.
Proof.
  intros Hj Havoid Hok. unfold document. unfold IterateOverJson, ParseJSON in *.
  rewrite Hj in *.
  destruct (load_keeps (gabs.JObject fields) gabs.emptyStore emptyStore_wf) as (Hwf0 & _ & Hv0).
  destruct (load_reads (gabs.JObject fields) gabs.emptyStore emptyStore_wf) as [_ Hread].
  destruct (load_tree (gabs.JObject fields) gabs.emptyStore (fun _ => None) []
              emptyStore_wf emptyStore_addressed) as (addr0 & Had0 & _ & Hroot0).
  assert (Hroot : exists l, (gabs.load (gabs.JObject fields) gabs.emptyStore).2 = gabs.MapRef l).
  { cbn [gabs.load]. match goal with |- context [?F fields gabs.emptyStore ∅] =>
      destruct (F fields gabs.emptyStore ∅) as [σ1 m] end. simpl. eauto. }
  destruct Hroot as [l Hl].
  destruct (gabs.load (gabs.JObject fields) gabs.emptyStore) as [σ0 p0].
  simpl in Hwf0, Hv0, Hread, Hl, Had0, Hroot0. subst p0. specialize (Hroot0 eq_refl).
  destruct (eachRule_field f (Replace f) k l Havoid σ0 addr0 Hwf0 Had0 Hv0 Hroot0)
    as (addr1 & Had1 & Hagree & Hfield & Hframe).
  { by destruct (Rules f (Replace f) σ0 (gabs.MapRef l)) as [[[tr σ1] p1] [e|]]. }
  assert (Hnn : gabs.MapRef l <> gabs.Nil) by done.
  pose proof (eachRule_same_root isLetterOrDigit ToCamel Get f (Replace f) σ0 _ Hnn) as Hsame.
  pose proof (eachRule_next f (Replace f) σ0 (gabs.MapRef l) Hwf0 Hv0) as Hnext.
  destruct (Rules f (Replace f) σ0 (gabs.MapRef l)) as [[[tr σ1] p1] [e|]]; [done|].
  simpl in Hsame, Hnext, Hfield, Hframe, Had1. subst p1. cbn [fst snd].
  specialize (Hread (S (gabs.next σ1)) ltac:(lia)).
  change (gabs.TMap (gabs.read (gabs.next σ1) σ0
                       <$> (gabs.maps σ0 !!! l : gmap string gabs.value))
          = treeOf (gabs.JObject fields)) in Hread.
  exists (gabs.read (gabs.next σ1) σ1 <$> (gabs.maps σ1 !!! l : gmap string gabs.value)),
         (gabs.read (gabs.next σ1) σ0 <$> (gabs.maps σ0 !!! l : gmap string gabs.value)).
  split; [reflexivity|]. split; [by rewrite <- Hread|].
  rewrite !lookup_fmap, Hfield.
  destruct ((gabs.maps σ0 !!! l : gmap string gabs.value) !! k) as [w|] eqn:Hw; [|done].
  simpl. f_equal.
  assert (Hvw : valid σ0 w) by by eapply map_entry_valid.
  apply (read_frame _ σ0 σ1 w [Key k] addr0); try done.
  intros Hrw. destruct Hv0 as [m0 Hm0]. apply below_refl.
  change [Key k] with ([] ++ [Key k]).
  eapply (addr_key _ _ Had0); [exact Hm0| |done|done].
  by rewrite lookup_total_alt, Hm0 in Hw.
Qed.

End PassFields.

Lemma X3_witness :
  setPathway gabs.emptyStore (gabs.Str "a") "bind" "127.0.0.1" jsonparser.String
  = (gabs.emptyStore, gabs.Str "a", Some ErrPathCollision).
Proof.
  exact (proj1 (X3_scalar_target_collides gabs.emptyStore (gabs.Str "a") []
                  "bind" "127.0.0.1" jsonparser.String eq_refl)).
Defined.

Lemma X6_witness :
  document (IterateOverJson noLetters strcase.ToCamel (hostGet []) (fun _ => inl worldsDoc)
              emptyFile "")
  = Some (treeOf worldsDoc).
Proof.
  exact (proj2 (X6_document_before_rules noLetters strcase.ToCamel (hostGet [])
                  (fun _ => inl worldsDoc) emptyFile "" worldsDoc eq_refl eq_refl)).
Defined.

Lemma X7_witness :
  exists segs : list string,
    lookupPath noLetters strcase.ToCamel "{{ config.docker.network.interface }}"
      = map strcase.ToCamel segs /\
    segs <> [] /\
    join "." segs = "docker.network.interface" /\
    Forall (fun p => strings.Contains p "." = false) segs.
Proof.
  apply (X7_lookup_keys_are_the_segments noLetters strcase.ToCamel
           "{{ config.docker.network.interface }}" ""
           {| regexp.whole := "{{ config.docker.network.interface }}";
              regexp.group1 := "docker.network.interface"; regexp.after := "" |}).
  reflexivity.
Defined.

Lemma X9_witness :
  gabs.Path (setPathway (loaded serverDoc).1 (loaded serverDoc).2 "server.port" "25566"
               jsonparser.Number).1.1
            (loaded serverDoc).2 "server.port"
  = ((setPathway (loaded serverDoc).1 (loaded serverDoc).2 "server.port" "25566"
        jsonparser.Number).1.1,
     Some (gabs.Int 25566)).
Proof.
  apply (X9_write_then_read (loaded serverDoc).1 (loaded serverDoc).2 "server.port" "25566"
           jsonparser.Number).
  - apply (StoreFacts.load_keeps serverDoc gabs.emptyStore StoreFacts.emptyStore_wf).
  - apply (AcyclicFacts.load_acyclic serverDoc gabs.emptyStore StoreFacts.emptyStore_wf
             AcyclicFacts.emptyStore_acyclic).
  - apply (StoreFacts.load_keeps serverDoc gabs.emptyStore StoreFacts.emptyStore_wf).
  - apply (bool_decide_unpack _). vm_compute. exact I.
  - vm_compute. reflexivity.
Defined.

Lemma X10_witness :
  exists (value : string) (dt : jsonparser.ValueType),
    LookupConfigurationValue noLetters strcase.ToCamel portHost portFile portRule
      = (value, dt, None) /\
    gabs.Path (returned portPass).1 (returned portPass).2 "server.port"
      = ((returned portPass).1, Some (getKeyValue value dt)).
Proof.
  apply (X10_last_rule_reads_back noLetters strcase.ToCamel portHost (fun _ => inl serverDoc)
           portFile "" serverDoc [] portRule portPass.1.1
           (returned portPass).1 (returned portPass).2).
  - reflexivity.
  - reflexivity.
  - constructor; [|constructor]. apply (bool_decide_unpack _). vm_compute. exact I.
  - reflexivity.
  - vm_compute. reflexivity.
Defined.

Lemma X11_witness :
  exists tm : gmap string gabs.tree,
    document portPass = Some (gabs.TMap tm) /\
    forall k, k ∈ [("server", gabs.JObject [("port", gabs.JNumber "25565")])].*1 ->
              is_Some (tm !! k).
Proof.
  apply (X11_top_level_fields_are_kept noLetters strcase.ToCamel portHost
           (fun _ => inl serverDoc) portFile ""
           [("server", gabs.JObject [("port", gabs.JNumber "25565")])]).
  - reflexivity.
  - vm_compute. reflexivity.
Defined.


Lemma X13_witness :
  (setPathway (loaded serverDoc).1 (loaded serverDoc).2 "server.port.name" "x"
     jsonparser.String).1
  = loaded serverDoc.
Proof.
  rewrite (surjective_pairing (loaded serverDoc)) at 3.
  apply (X13_failed_write_changes_nothing (loaded serverDoc).1 (loaded serverDoc).2
           "server.port.name" "x" jsonparser.String ErrPathCollision).
  - apply (StoreFacts.load_keeps serverDoc gabs.emptyStore StoreFacts.emptyStore_wf).
  - apply (StoreFacts.load_keeps serverDoc gabs.emptyStore StoreFacts.emptyStore_wf).
  - apply (bool_decide_unpack _). vm_compute. exact I.
  - vm_compute. reflexivity.
Defined.

Lemma X14_witness :
  exists (value : string) (dt : jsonparser.ValueType),
    LookupConfigurationValue noLetters strcase.ToCamel (hostGet []) worldsFile bindRule
      = (value, dt, None) /\
    forall c,
      c ∈ gabs.Children (returned worldsPass).1
            (gabs.Path (returned worldsPass).1 (returned worldsPass).2 (nodePath bindRule)).2 ->
      isRef c = true ->
      gabs.Path (returned worldsPass).1 c (writePath bindRule)
        = ((returned worldsPass).1, Some (getKeyValue value dt)).
Proof.
  apply (X14_wildcard_rule_reaches_every_child noLetters strcase.ToCamel (hostGet [])
           (fun _ => inl worldsDoc) worldsFile "" worldsDoc [] bindRule worldsPass.1.1
           (returned worldsPass).1 (returned worldsPass).2).
  - reflexivity.
  - reflexivity.
  - constructor; [|constructor]. apply (bool_decide_unpack _). vm_compute. exact I.
  - reflexivity.
  - apply (bool_decide_unpack _). vm_compute. exact I.
  - apply (bool_decide_unpack _). vm_compute. exact I.
  - vm_compute. reflexivity.
Defined.

Lemma X15_witness :
  exists tm tm0 : gmap string gabs.tree,
    document mixedPass = Some (gabs.TMap tm) /\
    treeOf (gabs.JObject mixedFields) = gabs.TMap tm0 /\
    tm !! "motd" = tm0 !! "motd".
Proof.
  apply (X15_unnamed_field_is_returned_as_decoded noLetters strcase.ToCamel portHost
           (fun _ => inl (gabs.JObject mixedFields)) mixedFile "" mixedFields "motd").
  - reflexivity.
  - constructor; [|constructor; [|constructor]];
      (split; [|split; [intros _|]]; apply (bool_decide_unpack _); vm_compute; exact I).
  - vm_compute. reflexivity.
Defined.
